(** * Guidance-score conditioning methods of [diffusionlib.conditioning_method.jax]

    A shallow embedding of the method registry and of the eleven guidance
    classes of [src/diffusionlib/conditioning_method/jax.py], with the
    array operations they call.

    Numbers are exact rationals ([Qc], canonical fractions with Leibniz
    equality): the development is about the algebra the code performs, not
    about rounding.  An array is its [shape] together with the function from
    a multi-index to the entry stored there; every operation of the source
    that can raise returns in the error monad [res]. *)

From Stdlib Require Import QArith Qcanon Lqa Zdivisibility List.
From Stdlib Require Qcabs.
From stdpp Require Import base numbers list strings gmap.

Local Open Scope Qc_scope.

(** ** Exceptions and the error monad

    [NotANumber] is no exception of the source: it stands for an array all
    of whose entries are NaN, which the source returns and no array of
    rationals can hold. *)

Inductive exn :=
| NameError (msg : string)
| KeyError (key : string)
| UnboundLocalError (var : string)
| IndexError
| ValueError
| TypeError
| LinearAlgebraError
| NotANumber.

Inductive res (A : Type) :=
| Ok (a : A)
| Raise (e : exn).
Arguments Ok {A} a.
Arguments Raise {A} e.

#[global] Instance res_ret : MRet res := λ A a, Ok a.
#[global] Instance res_bind : MBind res := λ A B f r,
  match r with
  | Ok a => f a
  | Raise e => Raise e
  end.
#[global] Instance res_fmap : FMap res := λ A B f r,
  match r with
  | Ok a => Ok (f a)
  | Raise e => Raise e
  end.

Definition is_ok {A} (r : res A) : Prop :=
  match r with Ok _ => True | Raise _ => False end.

(** ** Arrays *)

Record ndarray := NdArray { shape : list nat; item : list nat → Qc }.

(** The shape of an array, under a name the [shape] attribute of a method
    does not hide. *)
Abbreviation array_shape := shape.

Definition ndim (a : ndarray) : nat := length (shape a).

Definition size_of (sh : list nat) : nat := foldr Nat.mul 1%nat sh.

(** All multi-indices of a shape, in row-major order. *)
Fixpoint indices (sh : list nat) : list (list nat) :=
  match sh with
  | [] => [[]]
  | n :: sh' => i ← seq 0 n; cons i <$> indices sh'
  end.

Definition valid_index (sh idx : list nat) : Prop :=
  Forall2 (λ i n, (i < n)%nat) idx sh.

(** The entries of an array in row-major order. *)
Definition to_list (a : ndarray) : list Qc := item a <$> indices (shape a).

(** Two arrays are the same array when they have the same shape and the same
    entry at every index inside it. *)
Definition arr_eq (a b : ndarray) : Prop :=
  shape a = shape b ∧ ∀ idx, valid_index (shape a) idx → item a idx = item b idx.

Definition res_eq (r1 r2 : res ndarray) : Prop :=
  match r1, r2 with
  | Ok a, Ok b => arr_eq a b
  | Raise e1, Raise e2 => e1 = e2
  | _, _ => False
  end.

Definition qsum (l : list Qc) : Qc := foldr Qcplus 0 l.
Definition sum_n (n : nat) (f : nat → Qc) : Qc := qsum (f <$> seq 0 n).
Definition sum_over (sh : list nat) (f : list nat → Qc) : Qc :=
  qsum (f <$> indices sh).

(** A Python float used in array arithmetic is a zero-dimensional array. *)
Definition scalar (c : Qc) : ndarray := NdArray [] (λ _, c).

(** *** Broadcasting *)

Fixpoint broadcast_rev (r1 r2 : list nat) : res (list nat) :=
  match r1, r2 with
  | [], r => Ok r
  | r, [] => Ok r
  | n1 :: r1', n2 :: r2' =>
      rest ← broadcast_rev r1' r2';
      if decide (n1 = n2) then Ok (n1 :: rest)
      else if decide (n1 = 1%nat) then Ok (n2 :: rest)
      else if decide (n2 = 1%nat) then Ok (n1 :: rest)
      else Raise ValueError
  end.

Definition broadcast_shapes (s1 s2 : list nat) : res (list nat) :=
  reverse <$> broadcast_rev (reverse s1) (reverse s2).

(** The index an operand of shape [sh] is read at, for the index [idx] of the
    broadcast result: trailing axes are aligned and an axis of size one is
    read at 0. *)
Definition bc_index (sh idx : list nat) : list nat :=
  zip_with (λ n i, if decide (n = 1%nat) then 0%nat else i)
           sh (drop (length idx - length sh) idx).

Definition map2_bc (op : Qc → Qc → Qc) (a b : ndarray) : res ndarray :=
  sh ← broadcast_shapes (shape a) (shape b);
  Ok (NdArray sh (λ idx, op (item a (bc_index (shape a) idx))
                            (item b (bc_index (shape b) idx)))).

Definition add := map2_bc Qcplus.
Definition sub := map2_bc Qcminus.
Definition mul := map2_bc Qcmult.
Definition div := map2_bc Qcdiv.

Definition map_arr (f : Qc → Qc) (a : ndarray) : ndarray :=
  NdArray (shape a) (λ idx, f (item a idx)).

(** *** Construction, indexing and shape manipulation *)

(** [jnp.eye(n)] *)
Definition eye (n : nat) : ndarray :=
  NdArray [n; n] (λ idx, if decide (nth 0 idx 0%nat = nth 1 idx 0%nat) then 1 else 0).

(** [jnp.ones_like(a)] *)
Definition ones_like (a : ndarray) : ndarray := NdArray (shape a) (λ _, 1).

(** [a[i]] along the leading axis, without the bounds check. *)
Definition slice0 (a : ndarray) (i : nat) : ndarray :=
  NdArray (tail (shape a)) (λ idx, item a (i :: idx)).

(** [a[0]] *)
Definition getitem0 (a : ndarray) : res ndarray :=
  match shape a with
  | [] => Raise IndexError
  | n :: _ => if decide (n = 0%nat) then Raise IndexError else Ok (slice0 a 0)
  end.

(** [a.shape[1]] *)
Definition shape1 (a : ndarray) : res nat :=
  match shape a with
  | _ :: n :: _ => Ok n
  | _ => Raise IndexError
  end.

Fixpoint ravel (sh idx : list nat) : nat :=
  match sh, idx with
  | _ :: sh', i :: idx' => (i * size_of sh' + ravel sh' idx')%nat
  | _, _ => 0%nat
  end.

Fixpoint unravel (sh : list nat) (k : nat) : list nat :=
  match sh with
  | [] => []
  | _ :: sh' => (k / size_of sh')%nat :: unravel sh' (k mod size_of sh')
  end.

(** The shape a [reshape] request stands for: at most one entry may be [-1],
    which is inferred from the number of entries. *)
Definition resolve_shape (total : nat) (new : list Z) : res (list nat) :=
  let known := filter (λ z, z ≠ (-1)%Z) new in
  if bool_decide (Forall (λ z, (0 ≤ z)%Z) known) then
    let p := size_of (Z.to_nat <$> known) in
    match (length new - length known)%nat with
    | 0%nat => if decide (p = total) then Ok (Z.to_nat <$> new) else Raise TypeError
    | 1%nat =>
        if bool_decide (p ≠ 0%nat ∧ (total mod p)%nat = 0%nat)
        then Ok ((λ z, if decide (z = (-1)%Z) then (total / p)%nat else Z.to_nat z) <$> new)
        else Raise TypeError
    | _ => Raise ValueError
    end
  else Raise ValueError.

(** [a.reshape(new)]: the entries keep their row-major position. *)
Definition reshape (a : ndarray) (new : list Z) : res ndarray :=
  sh ← resolve_shape (size_of (shape a)) new;
  Ok (NdArray sh (λ idx, item a (unravel (shape a) (ravel sh idx)))).

Definition shape_Z (sh : list nat) : list Z := Z.of_nat <$> sh.

Fixpoint index_of (j : nat) (l : list nat) : nat :=
  match l with
  | [] => 0%nat
  | k :: l' => if decide (k = j) then 0%nat else S (index_of j l')
  end.

Definition is_perm (axes : list nat) (n : nat) : bool :=
  bool_decide (length axes = n) && forallb (λ j, bool_decide (j ∈ axes)) (seq 0 n).

(** [jnp.transpose(a, axes)]: axis [k] of the result is axis [axes[k]] of [a]. *)
Definition transpose (a : ndarray) (axes : list nat) : res ndarray :=
  if is_perm axes (ndim a) then
    Ok (NdArray ((λ k, nth k (shape a) 0%nat) <$> axes)
                (λ idx, item a ((λ j, nth (index_of j axes) idx 0%nat) <$> seq 0 (ndim a))))
  else Raise ValueError.

(** [a.T] *)
Definition T (a : ndarray) : res ndarray := transpose a (reverse (seq 0 (ndim a))).

Definition pad_left (n : nat) (l : list nat) : list nat :=
  replicate (n - length l) 1%nat ++ l.

(** [jnp.tile(a, reps)] *)
Definition tile (a : ndarray) (reps : list nat) : ndarray :=
  let d := max (length reps) (ndim a) in
  let sh := pad_left d (shape a) in
  NdArray (zip_with Nat.mul sh (pad_left d reps))
          (λ idx, item a (drop (d - ndim a) (zip_with Nat.modulo idx sh))).

(** [jnp.expand_dims(a, axis=0)] *)
Definition expand_dims0 (a : ndarray) : ndarray :=
  NdArray (1%nat :: shape a) (λ idx, item a (tail idx)).

(** [jnp.squeeze(a, axis=1)] *)
Definition squeeze1 (a : ndarray) : res ndarray :=
  match shape a with
  | n :: 1%nat :: sh =>
      Ok (NdArray (n :: sh)
                  (λ idx, item a (match idx with i :: idx' => i :: 0%nat :: idx' | [] => [] end)))
  | _ => Raise ValueError
  end.

(** [jnp.diagonal(a, axis1=1, axis2=2)] of a three-dimensional array. *)
Definition diagonal12 (a : ndarray) : res ndarray :=
  match shape a with
  | [n; p; q] =>
      Ok (NdArray [n; min p q]
                  (λ idx, item a [nth 0 idx 0%nat; nth 1 idx 0%nat; nth 1 idx 0%nat]))
  | _ => Raise ValueError
  end.

(** [jnp.sum(a, axis=-1)] *)
Definition sum_last (a : ndarray) : res ndarray :=
  match reverse (shape a) with
  | [] => Raise ValueError
  | k :: r => Ok (NdArray (reverse r) (λ idx, sum_n k (λ j, item a (idx ++ [j]))))
  end.

(** [a @ b] for the operand ranks the module uses: a matrix or a vector on
    the right. *)
Definition matmul (a b : ndarray) : res ndarray :=
  match shape b with
  | [k] =>
      match reverse (shape a) with
      | k' :: r =>
          if decide (k' = k)
          then Ok (NdArray (reverse r) (λ idx, sum_n k (λ j, item a (idx ++ [j]) * item b [j])))
          else Raise TypeError
      | [] => Raise TypeError
      end
  | [k; m] =>
      match shape a with
      | [n; k'] =>
          if decide (k' = k)
          then Ok (NdArray [n; m]
                     (λ idx, sum_n k (λ l, item a [nth 0 idx 0%nat; l] * item b [l; nth 1 idx 0%nat])))
          else Raise TypeError
      | _ => Raise TypeError
      end
  | _ => Raise TypeError
  end.

(** *** Mapping over the leading axis *)

Definition stack_rows (n : nat) (sh : list nat) (rows : list ndarray) : ndarray :=
  NdArray (n :: sh)
          (λ idx, match idx with
                  | i :: idx' => match rows !! i with Some r => item r idx' | None => 0 end
                  | [] => 0
                  end).

(** The per-sample function [f], which may look at the position [b] of the
    sample, applied to every slice [a[b]] and the results stacked.  The
    function is run once on the first slice for the shape of the result, as
    tracing does. *)
Definition batch_map (f : nat → ndarray → res ndarray) (a : ndarray) : res ndarray :=
  match shape a with
  | [] => Raise ValueError
  | n :: _ =>
      r0 ← f 0%nat (slice0 a 0);
      rows ← mapM (λ b, f b (slice0 a b)) (seq 0 n);
      Ok (stack_rows n (shape r0) rows)
  end.

(** [jax.vmap(f)(a)] *)
Definition vmap (f : ndarray → res ndarray) (a : ndarray) : res ndarray :=
  batch_map (λ _, f) a.

(** [jax.vmap(f)(a, b)]: both arguments are mapped over their leading axis,
    which must have the same size. *)
Definition vmap2 (f : ndarray → ndarray → res ndarray) (a b : ndarray) : res ndarray :=
  match shape b with
  | [] => Raise ValueError
  | m :: _ =>
      if decide (hd_error (shape a) = Some m)
      then batch_map (λ i ai, f ai (slice0 b i)) a
      else Raise ValueError
  end.

(** ** Linear algebra *)

(** Determinant by expansion along the first row. *)
Fixpoint det (n : nat) (m : nat → nat → Qc) : Qc :=
  match n with
  | 0%nat => 1
  | S n' =>
      sum_n n (λ j, (-1) ^ j * m 0%nat j
                    * det n' (λ i k, m (S i) (if decide (k < j)%nat then k else S k)))
  end.

Definition entries2 (a : ndarray) : nat → nat → Qc := λ i j, item a [i; j].

Definition replace_col (m : nat → nat → Qc) (j : nat) (b : nat → Qc) : nat → nat → Qc :=
  λ i k, if decide (k = j) then b i else m i k.

(** Modelled from the spec: the linear solve behind [batch_linalg_solve] of
    [diffusionlib.util.misc], which is not among the sources.  The spec asks
    for one independent [(d_y × d_y)] solve per sample that fails with
    LinearAlgebraError on a singular matrix; the solution of a regular
    system is given by Cramer's rule. *)
Definition linalg_solve (A b : ndarray) : res ndarray :=
  match shape A, shape b with
  | [n; n'], [n''] =>
      if bool_decide (n = n' ∧ n' = n'') then
        if decide (det n (entries2 A) = 0) then Raise LinearAlgebraError
        else Ok (NdArray [n]
                   (λ idx, det n (replace_col (entries2 A) (nth 0 idx 0%nat) (λ i, item b [i]))
                           / det n (entries2 A)))
      else Raise ValueError
  | _, _ => Raise ValueError
  end.

(** Modelled from the spec: the batched helpers of [diffusionlib.util.misc]
    (batched solve, batched matmul, batched elementwise scale), which are not
    among the sources.  Each maps the operation over the batch axis; the
    [_A] forms keep their first argument fixed across the batch. *)
Definition batch_linalg_solve : ndarray → ndarray → res ndarray := vmap2 linalg_solve.
Definition batch_linalg_solve_A (A : ndarray) : ndarray → res ndarray := vmap (linalg_solve A).
Definition batch_matmul : ndarray → ndarray → res ndarray := vmap2 matmul.
Definition batch_matmul_A (A : ndarray) : ndarray → res ndarray := vmap (matmul A).
Definition batch_mul : ndarray → ndarray → res ndarray := vmap2 mul.
Definition batch_mul_A (A : ndarray) : ndarray → res ndarray := vmap (mul A).

(** ** Differentiable functions and the SDE handle *)

(** A per-sample function the differentiation engine can handle: its value
    and its Jacobian at a point, of shape (output shape ++ input shape). *)
Record dfun := DFun { df_apply : ndarray → res ndarray; df_jac : ndarray → ndarray }.

(** [lambda x: x] *)
Definition identity_map : dfun :=
  DFun (λ x, Ok x)
       (λ x, NdArray (shape x ++ shape x)
                     (λ idx, if decide (take (ndim x) idx = drop (ndim x) idx) then 1 else 0)).

(** [lambda x: H @ x] *)
Definition linear_map (H : ndarray) : dfun := DFun (matmul H) (λ _, H).

(** Modelled from the spec: the SDE handle, which is not among the sources.
    It gives the posterior-mean estimate of one sample at one time together
    with the unconditional score, and the two variance coefficients.  The
    Jacobian of the posterior mean is what the differentiation engine
    computes for it; its entry at [o ++ i] is the derivative of entry [o] of
    the estimate in entry [i] of the sample. *)
Record SDE := {
  sde_mean : ndarray → Qc → list nat → Qc;
  sde_mean_jac : ndarray → Qc → list nat → Qc;
  sde_score : ndarray → Qc → list nat → Qc;
  sde_ratio : Qc → Qc;
  sde_r2 : Qc → Qc → Qc;
}.

Definition first_item (a : ndarray) : Qc := item a (replicate (ndim a) 0%nat).

(** The time of sample [b] when [t] is broadcast against the batch. *)
Definition sample_time (t : ndarray) (b : nat) : Qc :=
  match shape t with
  | [] => item t []
  | n :: _ => first_item (slice0 t (if decide (n = 1%nat) then 0%nat else b))
  end.

Definition sample_mean (sde : SDE) (tb : Qc) (xb : ndarray) : ndarray :=
  NdArray (shape xb) (sde_mean sde xb tb).
Definition sample_score (sde : SDE) (tb : Qc) (xb : ndarray) : ndarray :=
  NdArray (shape xb) (sde_score sde xb tb).

(** The estimate of one sample reshaped as [get_estimate_x_0] is asked to,
    with the Jacobian of the reshaped estimate in the sample. *)
Definition sample_mean_reshaped (sde : SDE) (sh : option (list Z)) (tb : Qc) (xb : ndarray)
  : res (ndarray * ndarray) :=
  match sh with
  | None => Ok (sample_mean sde tb xb, NdArray (shape xb ++ shape xb) (sde_mean_jac sde xb tb))
  | Some new =>
      x0 ← reshape (sample_mean sde tb xb) new;
      Ok (x0, NdArray (shape x0 ++ shape xb)
                (λ idx, sde_mean_jac sde xb tb
                          (unravel (shape xb) (ravel (shape x0) (take (ndim x0) idx))
                           ++ drop (ndim x0) idx)))
  end.

(** [h] applied to the estimate of one sample. *)
Definition sample_estimate (sde : SDE) (h : dfun) (sh : option (list Z)) (tb : Qc) (xb : ndarray)
  : res ndarray :=
  '(x0, _) ← sample_mean_reshaped sde sh tb xb;
  df_apply h x0.

(** Its Jacobian in the sample, by the chain rule. *)
Definition sample_estimate_jac (sde : SDE) (h : dfun) (sh : option (list Z)) (tb : Qc) (xb : ndarray)
  : res ndarray :=
  '(x0, J) ← sample_mean_reshaped sde sh tb xb;
  hx ← df_apply h x0;
  Ok (NdArray (shape hx ++ shape xb)
        (λ idx, sum_over (shape x0)
                  (λ k, item (df_jac h x0) (take (ndim hx) idx ++ k)
                        * item J (k ++ drop (ndim hx) idx)))).

(** The per-sample part of the [shape] argument of [get_estimate_x_0]: its
    leading entry has to be the batch size. *)
Definition sample_shape (sh : option (list Z)) (B : nat) : res (option (list Z)) :=
  match sh with
  | None => Ok None
  | Some [] => Raise TypeError
  | Some (b :: rest) => if decide (b = Z.of_nat B) then Ok (Some rest) else Raise TypeError
  end.

(** Modelled from the spec: [sde.get_estimate_x_0(h, shape)(x, t)], the
    estimate of [h(x0)] for every sample of the batch, jointly with the
    unconditional score and auxiliary data (here the estimate of [x0]). *)
Definition estimate_x_0 (sde : SDE) (h : dfun) (sh : option (list Z)) (x t : ndarray)
  : res (ndarray * (ndarray * ndarray)) :=
  sh' ← sample_shape sh (hd 0%nat (shape x));
  h_x_0 ← batch_map (λ b, sample_estimate sde h sh' (sample_time t b)) x;
  s ← batch_map (λ b xb, Ok (sample_score sde (sample_time t b) xb)) x;
  x_0 ← batch_map (λ b xb, Ok (sample_mean sde (sample_time t b) xb)) x;
  Ok (h_x_0, (s, x_0)).

(** Modelled from the spec: [sde.get_estimate_x_0_vmap(h)(x, t)], the same
    estimate for one sample [x] and its time [t]. *)
Definition estimate_x_0_vmap (sde : SDE) (h : dfun) (x t : ndarray)
  : res (ndarray * (ndarray * ndarray)) :=
  h_x_0 ← sample_estimate sde h None (first_item t) x;
  Ok (h_x_0, (sample_score sde (first_item t) x, sample_mean sde (first_item t) x)).

(** [sde.ratio(t)] and [sde.r2(t, data_variance)], entry by entry. *)
Definition ratio (sde : SDE) (t : ndarray) : ndarray := map_arr (sde_ratio sde) t.
Definition r2 (sde : SDE) (t : ndarray) (data_variance : Qc) : ndarray :=
  map_arr (λ q, sde_r2 sde q data_variance) t.

(** *** The differentiation engine *)

(** [jax.vjp(lambda x: estimate(x, t), x, has_aux=True)]: the value, the
    pullback and the auxiliary output.  The pullback takes a cotangent of
    the shape of the value and returns an array of the shape of [x]; every
    sample is pulled back through the Jacobian of its own estimate. *)
Definition jax_vjp (sde : SDE) (h : dfun) (sh : option (list Z)) (x t : ndarray)
  : res (ndarray * (ndarray → res ndarray) * (ndarray * ndarray)) :=
  '(h_x_0, aux) ← estimate_x_0 sde h sh x t;
  sh' ← sample_shape sh (hd 0%nat (shape x));
  jac ← batch_map (λ b, sample_estimate_jac sde h sh' (sample_time t b)) x;
  Ok (h_x_0,
      (λ ct, if decide (shape ct = shape h_x_0)
             then Ok (NdArray (shape x)
                        (λ idx, sum_over (tail (shape h_x_0))
                                  (λ o, item ct (hd 0%nat idx :: o)
                                        * item jac (hd 0%nat idx :: o ++ tail idx))))
             else Raise ValueError),
      aux).

(** A per-sample function as the engine traces it: its value and its
    Jacobian in its first argument, of shape (output shape ++ input shape). *)
Record traced := Traced {
  tr_value : ndarray → res ndarray;
  tr_jac : ndarray → res ndarray;
}.

(** [jax.jacrev(f)] and [jax.jacfwd(f)]: both return the Jacobian of [f],
    built from pullbacks or from pushforwards. *)
Definition jacrev (f : traced) : ndarray → res ndarray := tr_jac f.
Definition jacfwd (f : traced) : ndarray → res ndarray := tr_jac f.

(** [lambda x, t: estimate_h_x_0_vmap(x, t)[0]] at a fixed [t] *)
Definition estimate_vmap_fst (sde : SDE) (h : dfun) (t : ndarray) : traced :=
  Traced (λ x, fst <$> estimate_x_0_vmap sde h x t)
         (λ x, sample_estimate_jac sde h None (first_item t) x).

(** [lambda _x: estimate_h_x_0(jnp.expand_dims(_x, axis=0), t.reshape(1, 1))[0]] *)
Definition estimate_expanded_fst (sde : SDE) (h : dfun) (t : ndarray) : traced :=
  Traced (λ x, t11 ← reshape t [1; 1]%Z;
               fst <$> estimate_x_0 sde h None (expand_dims0 x) t11)
         (λ x, t11 ← reshape t [1; 1]%Z;
               expand_dims0 <$> sample_estimate_jac sde h None (sample_time t11 0) x).

(** The cotangent of an operand of shape [sh] for the cotangent [a] of the
    broadcast result: the entries read from the same place are added. *)
Definition unbroadcast (sh : list nat) (a : ndarray) : ndarray :=
  NdArray sh (λ j, sum_over (shape a)
                     (λ idx, if decide (bc_index sh idx = j) then item a idx else 0)).

(** [jnp.linalg.norm(a)] needs a square root, which the rationals lack: the
    root function is a parameter of the methods that use it. *)
Definition norm (sqrt : Qc → Qc) (a : ndarray) : Qc :=
  sqrt (sum_over (shape a) (λ idx, item a idx ^ 2)).

(** The pullback of [jnp.linalg.norm] at [a], for the cotangent [ct] of the
    norm.  The norm is the root of the sum of the products [v * v] of the
    entries: the root hands [ct * (0.5 / norm)] to the sum, the sum hands it
    to every product and the product hands it to [v] once for each factor.
    Where the norm is zero the quotient is infinite in the source and its
    product with the entries, which are zero, is NaN in every entry, if
    there is one. *)
Definition norm_vjp (sqrt : Qc → Qc) (a : ndarray) (ct : Qc) : res ndarray :=
  let n := norm sqrt a in
  if decide (n = 0 ∧ size_of (shape a) ≠ 0%nat) then Raise NotANumber
  else Ok (map_arr (λ v, ct * (Q2Qc 0.5 / n) * v + ct * (Q2Qc 0.5 / n) * v) a).

(** The pullback of [y - h] to [h], of shape [sh]: the negated cotangent,
    the entries read from one entry of [h] added up. *)
Definition sub_vjp (sh : list nat) (ct : ndarray) : ndarray :=
  unbroadcast sh (map_arr Qcopp ct).

(** A scalar function of [(x, t)] with an auxiliary output as the engine
    runs it: its value, the pullback of a cotangent of the value to [x],
    and the auxiliary output. *)
Definition traced_scalar : Type :=
  ndarray → ndarray → res (Qc * (Qc → res ndarray) * ndarray).

(** [jax.grad(f, has_aux=True)(x, t)]: [f] is run forward and the cotangent
    1 of its value is pulled back to [x]. *)
Definition grad (f : traced_scalar) (x t : ndarray) : res (ndarray * ndarray) :=
  '(_, pullback, aux) ← f x t;
  g ← pullback 1;
  Ok (g, aux).

(** [sh[0]] of a shape tuple *)
Definition shape0 (sh : list nat) : res nat :=
  match sh with
  | n :: _ => Ok n
  | [] => Raise IndexError
  end.

(** The type of the function [get_guidance_score_func] returns. *)
Definition guidance : Type := ndarray → ndarray → res ndarray.

(** ** The conditioning methods

    One module per class: the record [t] holds the attributes [__init__]
    stores, [guidance_score] is the closure and [get_guidance_score_func]
    the method that builds it. *)

Module DPS.
Record t := Build { sde : SDE; observation_map : dfun; y : ndarray; scale : Qc }.

Section Norm.
Variable sqrt : Qc → Qc.


(** [l2_norm] as the engine runs it for [grad]: the same three steps, each
    with its pullback.  The cotangent of the norm goes back through the
    norm, through the subtraction and through the estimate. *)
Definition traced_l2_norm (self : t) : traced_scalar := λ x tt,
  '(h_x_0, vjp_estimate_h_x_0, (s, _)) ←
    jax_vjp (sde self) (observation_map self) None x tt;
  innovation ← sub (y self) h_x_0;
  Ok (norm sqrt innovation,
      (λ ct, ct_innovation ← norm_vjp sqrt innovation ct;
             vjp_estimate_h_x_0 (sub_vjp (shape h_x_0) ct_innovation)),
      s).

(** [likelihood_score = grad(l2_norm, has_aux=True)] *)
Definition likelihood_score (self : t) : ndarray → ndarray → res (ndarray * ndarray) :=
  grad (traced_l2_norm self).

Definition guidance_score (self : t) (x tt : ndarray) : res ndarray :=
  '(ls, s) ← likelihood_score self x tt;
  scaled ← mul (scalar (scale self)) ls;
  sub s scaled.

Definition get_guidance_score_func (self : t) : res guidance :=
  Ok (guidance_score self).
End Norm.
End DPS.

Module DPSMod.
Record t := Build { sde : SDE; observation_map : dfun; y : ndarray; noise_std : Qc }.

(** The body of the closure up to the likelihood term [ls], returned with
    the unconditional score [s]. *)
Definition likelihood_score (self : t) (x tt : ndarray) : res (ndarray * ndarray) :=
  '(h_x_0, vjp_estimate_h_x_0, (s, _)) ←
    jax_vjp (sde self) (observation_map self) None x tt;
  innovation ← sub (y self) h_x_0;
  let C_yy := scalar (noise_std self ^ 2) in
  ls ← div innovation C_yy;
  ls ← vjp_estimate_h_x_0 ls;
  Ok (ls, s).

Definition guidance_score (self : t) (x tt : ndarray) : res ndarray :=
  '(ls, s) ← likelihood_score self x tt;
  add s ls.

Definition get_guidance_score_func (self : t) : res guidance :=
  Ok (guidance_score self).
End DPSMod.

Module PIG.
Record t := Build {
  sde : SDE; observation_map : dfun; y : ndarray; noise_std : Qc; HHT : ndarray
}.

(** [C_yy] of the branch for a full [HHT]:
    [sde.r2(t[0], data_variance=1.0) * HHT + noise_std**2 * jnp.eye(y.shape[1])] *)
Definition full_C_yy (self : t) (d : nat) (tt : ndarray) : res ndarray :=
  t0 ← getitem0 tt;
  scaled ← mul (r2 (sde self) t0 1) (HHT self);
  noise ← mul (scalar (noise_std self ^ 2)) (eye d);
  add scaled noise.

(** [C_yy] of the branch for an [HHT] of shape [(1,)]:
    [sde.r2(t[0], data_variance=1.0) * HHT + noise_std**2] *)
Definition scalar_C_yy (self : t) (tt : ndarray) : res ndarray :=
  t0 ← getitem0 tt;
  scaled ← mul (r2 (sde self) t0 1) (HHT self);
  add scaled (scalar (noise_std self ^ 2)).

(** The [if]/[elif] on the shape of [HHT]: the value bound to the local
    [f], if a branch binds it. *)
Definition solve_innovation (self : t) (tt innovation : ndarray) : res (option ndarray) :=
  d ← shape1 (y self);
  if decide (shape (HHT self) = [d; d]) then
    C_yy ← full_C_yy self d tt;
    f ← batch_linalg_solve_A C_yy innovation;
    Ok (Some f)
  else if decide (shape (HHT self) = [1%nat]) then
    C_yy ← scalar_C_yy self tt;
    f ← div innovation C_yy;
    Ok (Some f)
  else Ok None.

Definition likelihood_score (self : t) (x tt : ndarray) : res (ndarray * ndarray) :=
  '(h_x_0, vjp_estimate_h_x_0, (s, _)) ←
    jax_vjp (sde self) (observation_map self) None x tt;
  innovation ← sub (y self) h_x_0;
  bound ← solve_innovation self tt innovation;
  f ← match bound with
      | Some f => Ok f
      | None => Raise (UnboundLocalError "f")
      end;
  ls ← vjp_estimate_h_x_0 f;
  Ok (ls, s).

Definition guidance_score (self : t) (x tt : ndarray) : res ndarray :=
  '(ls, s) ← likelihood_score self x tt;
  add s ls.

Definition get_guidance_score_func (self : t) : res guidance :=
  Ok (guidance_score self).
End PIG.

(** The covariance the full-matrix methods solve with:
    [sde.ratio(t[0]) * second_moment + noise_std**2 * jnp.eye(y.shape[1])].
    The second moment is an expression of the same statement in some of
    them, evaluated after [sde.ratio(t[0])]. *)
Definition full_covariance (sde : SDE) (noise_std : Qc) (y tt : ndarray)
    (second_moment : res ndarray) : res ndarray :=
  t0 ← getitem0 tt;
  second_moment ← second_moment;
  scaled ← mul (ratio sde t0) second_moment;
  d ← shape1 y;
  noise ← mul (scalar (noise_std ^ 2)) (eye d);
  add scaled noise.

(** The one of the diagonal methods:
    [sde.ratio(t[0]) * diag + noise_std**2]. *)
Definition diagonal_covariance (sde : SDE) (noise_std : Qc) (tt : ndarray)
    (diag : res ndarray) : res ndarray :=
  t0 ← getitem0 tt;
  diag ← diag;
  scaled ← mul (ratio sde t0) diag;
  add scaled (scalar (noise_std ^ 2)).

(** What the body of a full-matrix closure has computed when it reaches the
    linear solve: the covariance [C_yy] and the innovation it solves for, the
    array the solution is mapped back with and the unconditional score
    [s]. *)
Record linear_system := LinearSystem {
  C_yy : ndarray;
  innovation : ndarray;
  back : ndarray;
  score : ndarray;
}.

Module VJPAlt.
Record t := Build { sde : SDE; H : ndarray; y : ndarray; noise_std : Qc; shape : list nat }.

Definition batch_H (self : t) : res ndarray :=
  h0 ← shape0 (array_shape (H self));
  let _shape := h0 :: tail (shape self) in
  let axes := [1; 0]%nat ++ drop 2 (seq 0 (length (shape self) + 1)) in
  H_reshaped ← reshape (H self) (shape_Z _shape);
  b ← shape0 (shape self);
  transpose (tile H_reshaped (b :: replicate (length (shape self)) 1%nat)) axes.

(** The body of the closure up to the linear solve. *)
Definition system (self : t) (batch_H x tt : ndarray)
  : res (linear_system * (ndarray → res ndarray)) :=
  '(x_0, vjp_x_0, (s, _)) ← jax_vjp (sde self) identity_map None x tt;
  H_grad_x_0 ← vmap vjp_x_0 batch_H;
  h0 ← shape0 (array_shape (H self));
  b ← shape0 (shape self);
  h1 ← shape1 (H self);
  H_grad_x_0 ← reshape H_grad_x_0 (shape_Z [h0; b; h1]);
  C_yy ← full_covariance (sde self) (noise_std self) (y self) tt
           (H_grad_x_0_T ← transpose H_grad_x_0 [1; 2; 0]%nat;
            batch_matmul_A (H self) H_grad_x_0_T);
  x_0_flat ← reshape x_0 [Z.of_nat b; -1]%Z;
  H_x_0 ← batch_matmul_A (H self) x_0_flat;
  innovation ← sub (y self) H_x_0;
  Ok (LinearSystem C_yy innovation H_grad_x_0 s, vjp_x_0).

Definition likelihood_score (self : t) (batch_H x tt : ndarray) : res (ndarray * ndarray) :=
  '(sys, vjp_x_0) ← system self batch_H x tt;
  f ← batch_linalg_solve (C_yy sys) (innovation sys);
  H_T ← T (H self);
  HT_f ← batch_matmul_A H_T f;
  cotangent ← reshape HT_f (shape_Z (shape self));
  ls ← vjp_x_0 cotangent;
  Ok (ls, score sys).

Definition guidance_score (self : t) (batch_H x tt : ndarray) : res ndarray :=
  '(ls, s) ← likelihood_score self batch_H x tt;
  add s ls.

Definition get_guidance_score_func (self : t) : res guidance :=
  batch_H ← batch_H self;
  Ok (guidance_score self batch_H).
End VJPAlt.

Module VJP.
Record t := Build { sde : SDE; H : ndarray; y : ndarray; noise_std : Qc; shape : list nat }.

Definition batch_H (self : t) : res ndarray :=
  b ← shape0 (shape self);
  transpose (tile (H self) [b; 1; 1]%nat) [1; 0; 2]%nat.

(** The body of the closure up to the linear solve; [b] is the batch size
    [get_guidance_score_func] passed to [get_estimate_x_0]. *)
Definition system (self : t) (b : nat) (batch_H x tt : ndarray) : res linear_system :=
  '(x_0, vjp_x_0, (s, _)) ←
    jax_vjp (sde self) identity_map (Some [Z.of_nat b; -1]%Z) x tt;
  H_grad_x_0 ← vmap vjp_x_0 batch_H;
  h0 ← shape0 (array_shape (H self));
  b' ← shape0 (shape self);
  h1 ← shape1 (H self);
  H_grad_x_0 ← reshape H_grad_x_0 (shape_Z [h0; b'; h1]);
  C_yy ← full_covariance (sde self) (noise_std self) (y self) tt
           (H_grad_x_0_T ← transpose H_grad_x_0 [1; 2; 0]%nat;
            batch_matmul_A (H self) H_grad_x_0_T);
  H_x_0 ← batch_matmul_A (H self) x_0;
  innovation ← sub (y self) H_x_0;
  Ok (LinearSystem C_yy innovation H_grad_x_0 s).

Definition likelihood_score (self : t) (b : nat) (batch_H x tt : ndarray)
  : res (ndarray * ndarray) :=
  sys ← system self b batch_H x tt;
  f ← batch_linalg_solve (C_yy sys) (innovation sys);
  H_grad_x_0_T ← transpose (back sys) [1; 2; 0]%nat;
  product ← batch_matmul H_grad_x_0_T f;
  ls ← reshape product (shape_Z (array_shape (score sys)));
  Ok (ls, score sys).

Definition guidance_score (self : t) (b : nat) (batch_H x tt : ndarray) : res ndarray :=
  '(ls, s) ← likelihood_score self b batch_H x tt;
  add s ls.

Definition get_guidance_score_func (self : t) : res guidance :=
  b ← shape0 (shape self);
  batch_H ← batch_H self;
  Ok (guidance_score self b batch_H).
End VJP.

Module VJPMask.
Record t := Build {
  sde : SDE; observation_map : dfun; y : ndarray; noise_std : Qc; shape : list nat
}.

Definition likelihood_score (self : t) (x tt : ndarray) : res (ndarray * ndarray) :=
  let batch_observation_map := vmap (df_apply (observation_map self)) in
  '(h_x_0, vjp_h_x_0, (s, _)) ←
    jax_vjp (sde self) (observation_map self) None x tt;
  observed_ones ← batch_observation_map (ones_like x);
  pulled ← vjp_h_x_0 observed_ones;
  diag ← batch_observation_map pulled;
  C_yy ← diagonal_covariance (sde self) (noise_std self) tt (Ok diag);
  innovation ← sub (y self) h_x_0;
  ls ← div innovation C_yy;
  ls ← vjp_h_x_0 ls;
  Ok (ls, s).

Definition guidance_score (self : t) (x tt : ndarray) : res ndarray :=
  '(ls, s) ← likelihood_score self x tt;
  add s ls.

Definition get_guidance_score_func (self : t) : res guidance :=
  Ok (guidance_score self).
End VJPMask.

(** [(0,) + tuple(range(len(shape) + 1)[2:]) + (1,)] *)
Definition jacobian_axes (sh : list nat) : list nat :=
  [0%nat] ++ drop 2 (seq 0 (length sh + 1)) ++ [1%nat].

(** The part the four Jacobian methods share after the Jacobian is there:
    contract it with the solved innovation and give the result the shape of
    the score. *)
Definition contract_jacobian (jac : ndarray) (axes : list nat) (f s : ndarray) : res ndarray :=
  jac_T ← transpose jac axes;
  product ← batch_matmul jac_T f;
  reshape product (shape_Z (shape s)).

Module JacRev.
Record t := Build {
  sde : SDE; observation_map : dfun; y : ndarray; noise_std : Qc; shape : list nat
}.

Definition system (self : t) (x tt : ndarray) : res linear_system :=
  let batch_batch_observation_map := vmap (vmap (df_apply (observation_map self))) in
  let jacrev_vmap :=
    vmap2 (λ xb tb, jacrev (estimate_vmap_fst (sde self) (observation_map self) tb) xb) in
  '(h_x_0, (s, _)) ← estimate_x_0 (sde self) (observation_map self) None x tt;
  grad_H_x_0 ← jacrev_vmap x tt;
  H_grad_H_x_0 ← batch_batch_observation_map grad_H_x_0;
  C_yy ← full_covariance (sde self) (noise_std self) (y self) tt (Ok H_grad_H_x_0);
  innovation ← sub (y self) h_x_0;
  Ok (LinearSystem C_yy innovation grad_H_x_0 s).

Definition likelihood_score (self : t) (axes : list nat) (x tt : ndarray)
  : res (ndarray * ndarray) :=
  sys ← system self x tt;
  f ← batch_linalg_solve (C_yy sys) (innovation sys);
  ls ← contract_jacobian (back sys) axes f (score sys);
  Ok (ls, score sys).

Definition guidance_score (self : t) (axes : list nat) (x tt : ndarray) : res ndarray :=
  '(ls, s) ← likelihood_score self axes x tt;
  add s ls.

Definition get_guidance_score_func (self : t) : res guidance :=
  Ok (guidance_score self (jacobian_axes (shape self))).
End JacRev.

Module JacFwd.
Record t := Build {
  sde : SDE; observation_map : dfun; y : ndarray; noise_std : Qc; shape : list nat
}.

Definition system (self : t) (x tt : ndarray) : res linear_system :=
  let batch_batch_observation_map := vmap (vmap (df_apply (observation_map self))) in
  let jacfwd_vmap :=
    vmap2 (λ xb tb, jacfwd (estimate_vmap_fst (sde self) (observation_map self) tb) xb) in
  '(h_x_0, (s, _)) ← estimate_x_0 (sde self) (observation_map self) None x tt;
  H_grad_x_0 ← jacfwd_vmap x tt;
  H_grad_H_x_0 ← batch_batch_observation_map H_grad_x_0;
  C_yy ← full_covariance (sde self) (noise_std self) (y self) tt (Ok H_grad_H_x_0);
  innovation ← sub (y self) h_x_0;
  Ok (LinearSystem C_yy innovation H_grad_x_0 s).

Definition likelihood_score (self : t) (axes : list nat) (x tt : ndarray)
  : res (ndarray * ndarray) :=
  sys ← system self x tt;
  f ← batch_linalg_solve (C_yy sys) (innovation sys);
  ls ← contract_jacobian (back sys) axes f (score sys);
  Ok (ls, score sys).

Definition guidance_score (self : t) (axes : list nat) (x tt : ndarray) : res ndarray :=
  '(ls, s) ← likelihood_score self axes x tt;
  add s ls.

Definition get_guidance_score_func (self : t) : res guidance :=
  Ok (guidance_score self (jacobian_axes (shape self))).
End JacFwd.

Module JacRevDiagonal.
Record t := Build {
  sde : SDE; observation_map : dfun; y : ndarray; noise_std : Qc; shape : list nat
}.

Definition vec_jacrev (self : t) (x tt : ndarray) : res ndarray :=
  vmap (jacrev (estimate_expanded_fst (sde self) (observation_map self) tt)) x.

Definition likelihood_score (self : t) (axes : list nat) (x tt : ndarray)
  : res (ndarray * ndarray) :=
  let batch_batch_observation_map := vmap (vmap (df_apply (observation_map self))) in
  '(h_x_0, (s, _)) ← estimate_x_0 (sde self) (observation_map self) None x tt;
  t0 ← getitem0 tt;
  jac ← vec_jacrev self x t0;
  grad_H_x_0 ← squeeze1 jac;
  H_grad_H_x_0 ← batch_batch_observation_map grad_H_x_0;
  C_yy ← diagonal_covariance (sde self) (noise_std self) tt (diagonal12 H_grad_H_x_0);
  innovation ← sub (y self) h_x_0;
  inverse ← div (scalar 1) C_yy;
  f ← batch_mul innovation inverse;
  ls ← contract_jacobian grad_H_x_0 axes f s;
  Ok (ls, s).

Definition guidance_score (self : t) (axes : list nat) (x tt : ndarray) : res ndarray :=
  '(ls, s) ← likelihood_score self axes x tt;
  add s ls.

Definition get_guidance_score_func (self : t) : res guidance :=
  Ok (guidance_score self (jacobian_axes (shape self))).
End JacRevDiagonal.

Module VJPDiagonal.
Record t := Build { sde : SDE; H : ndarray; y : ndarray; noise_std : Qc; shape : list nat }.

Definition batch_H (self : t) : res ndarray :=
  b ← shape0 (shape self);
  transpose (tile (H self) [b; 1; 1]%nat) [1; 0; 2]%nat.

Definition likelihood_score (self : t) (b : nat) (batch_H x tt : ndarray)
  : res (ndarray * ndarray) :=
  '(x_0, vjp_x_0, (s, _)) ←
    jax_vjp (sde self) identity_map (Some [Z.of_nat b; -1]%Z) x tt;
  H_grad_x_0 ← vmap vjp_x_0 batch_H;
  h0 ← shape0 (array_shape (H self));
  b' ← shape0 (shape self);
  h1 ← shape1 (H self);
  H_grad_x_0 ← reshape H_grad_x_0 (shape_Z [h0; b'; h1]);
  H_grad_x_0_T ← transpose H_grad_x_0 [1; 0; 2]%nat;
  products ← batch_mul_A (H self) H_grad_x_0_T;
  diag_H_grad_H_x_0 ← sum_last products;
  C_yy ← diagonal_covariance (sde self) (noise_std self) tt (Ok diag_H_grad_H_x_0);
  H_x_0 ← batch_matmul_A (H self) x_0;
  innovation ← sub (y self) H_x_0;
  inverse ← div (scalar 1) C_yy;
  f ← batch_mul innovation inverse;
  H_T ← T (H self);
  HT_f ← batch_matmul_A H_T f;
  ls ← vjp_x_0 HT_f;
  Ok (ls, s).

Definition guidance_score (self : t) (b : nat) (batch_H x tt : ndarray) : res ndarray :=
  '(ls, s) ← likelihood_score self b batch_H x tt;
  add s ls.

Definition get_guidance_score_func (self : t) : res guidance :=
  b ← shape0 (shape self);
  batch_H ← batch_H self;
  Ok (guidance_score self b batch_H).
End VJPDiagonal.

Module JacFwdDiagonal.
Record t := Build {
  sde : SDE; observation_map : dfun; y : ndarray; noise_std : Qc; shape : list nat
}.

Definition vec_jacfwd (self : t) (x tt : ndarray) : res ndarray :=
  vmap (jacfwd (estimate_expanded_fst (sde self) (observation_map self) tt)) x.

Definition likelihood_score (self : t) (axes : list nat) (x tt : ndarray)
  : res (ndarray * ndarray) :=
  let batch_batch_observation_map := vmap (vmap (df_apply (observation_map self))) in
  '(h_x_0, (s, _)) ← estimate_x_0 (sde self) (observation_map self) None x tt;
  t0 ← getitem0 tt;
  jac ← vec_jacfwd self x t0;
  H_grad_x_0 ← squeeze1 jac;
  H_grad_H_x_0 ← batch_batch_observation_map H_grad_x_0;
  C_yy ← diagonal_covariance (sde self) (noise_std self) tt (diagonal12 H_grad_H_x_0);
  innovation ← sub (y self) h_x_0;
  inverse ← div (scalar 1) C_yy;
  f ← batch_mul innovation inverse;
  ls ← contract_jacobian H_grad_x_0 axes f s;
  Ok (ls, s).

Definition guidance_score (self : t) (axes : list nat) (x tt : ndarray) : res ndarray :=
  '(ls, s) ← likelihood_score self axes x tt;
  add s ls.

Definition get_guidance_score_func (self : t) : res guidance :=
  Ok (guidance_score self (jacobian_axes (shape self))).
End JacFwdDiagonal.

(** ** The registry *)

Inductive ConditioningMethodName :=
| DIFFUSION_POSTERIOR_SAMPLING
| DIFFUSION_POSTERIOR_SAMPLING_MOD
| PSEUDO_INVERSE_GUIDANCE
| VJP_GUIDANCE
| VJP_GUIDANCE_ALT
| VJP_GUIDANCE_MASK
| VJP_GUIDANCE_DIAG
| JAC_REV_GUIDANCE
| JAC_REV_GUIDANCE_DIAG
| JAC_FWD_GUIDANCE
| JAC_FWD_GUIDANCE_DIAG.

#[global] Instance ConditioningMethodName_eq_dec : EqDecision ConditioningMethodName.
Proof. solve_decision. Defined.

(** The enumeration mixes in [str]: a member hashes and compares as its
    value, which is the key the dictionary sees. *)
Definition value (name : ConditioningMethodName) : string :=
  match name with
  | DIFFUSION_POSTERIOR_SAMPLING => "diffusion_posterior_sampling"
  | DIFFUSION_POSTERIOR_SAMPLING_MOD => "diffusion_psoterior_sampling_mod"
  | PSEUDO_INVERSE_GUIDANCE => "pseduo_inverse_guidance"
  | VJP_GUIDANCE => "vjp_guidance"
  | VJP_GUIDANCE_ALT => "vjp_guidance_alt"
  | VJP_GUIDANCE_MASK => "vjp_guidance_mask"
  | VJP_GUIDANCE_DIAG => "vjp_guidance_diag"
  | JAC_REV_GUIDANCE => "jac_rev_guidance"
  | JAC_REV_GUIDANCE_DIAG => "jac_rev_guidance_diag"
  | JAC_FWD_GUIDANCE => "jac_fwd_guidance"
  | JAC_FWD_GUIDANCE_DIAG => "jac_fwd_guidance_diag"
  end.

Definition all_names : list ConditioningMethodName :=
  [DIFFUSION_POSTERIOR_SAMPLING; DIFFUSION_POSTERIOR_SAMPLING_MOD; PSEUDO_INVERSE_GUIDANCE;
   VJP_GUIDANCE; VJP_GUIDANCE_ALT; VJP_GUIDANCE_MASK; VJP_GUIDANCE_DIAG;
   JAC_REV_GUIDANCE; JAC_REV_GUIDANCE_DIAG; JAC_FWD_GUIDANCE; JAC_FWD_GUIDANCE_DIAG].

Section Registry.
(** The class objects stored, the arguments of a constructor call, the
    instances built, and the constructor call itself. *)
Context {C Args Inst : Type} (call : C → Args → res Inst).

(** [d.get(name, None)]: [None] of the result is Python's [None]. *)
Definition dict_get (d : gmap string C) (name : string) : option C := d !! name.

(** Truth value of what [dict.get] returned: a class object is true,
    [None] is false. *)
Definition truthy (o : option C) : bool :=
  match o with Some _ => true | None => false end.

(** [o is None] *)
Definition is_None (o : option C) : bool :=
  match o with Some _ => false | None => true end.

(** [register_conditioning_method(name)(cls)] on the dictionary [d]: the
    outcome of the call and the dictionary after it. *)
Definition register_conditioning_method (name : string) (cls : C) (d : gmap string C)
  : res C * gmap string C :=
  if truthy (dict_get d name)
  then (Raise (NameError ("Name " +:+ name +:+ " is already registered!")), d)
  else (Ok cls, <[name := cls]> d).

(** [get_conditioning_method(name, *args, **kwargs)] *)
Definition get_conditioning_method (name : string) (args : Args) (d : gmap string C)
  : res Inst * gmap string C :=
  if is_None (dict_get d name)
  then (Raise (NameError ("Name " +:+ name +:+ " is not defined!")), d)
  else match d !! name with
       | Some cls => (call cls args, d)
       | None => (Raise (KeyError name), d)
       end.
End Registry.

(** The eleven classes as objects. *)
Module Class.
Inductive t :=
| DPS | DPSMod | PIG | VJPAlt | VJP | VJPMask
| JacRev | JacFwd | JacRevDiagonal | VJPDiagonal | JacFwdDiagonal.

#[global] Instance eq_dec : EqDecision t.
Proof. solve_decision. Defined.
End Class.

(** An instance of one of them. *)
Inductive method :=
| DPS_instance (self : DPS.t)
| DPSMod_instance (self : DPSMod.t)
| PIG_instance (self : PIG.t)
| VJPAlt_instance (self : VJPAlt.t)
| VJP_instance (self : VJP.t)
| VJPMask_instance (self : VJPMask.t)
| JacRev_instance (self : JacRev.t)
| JacFwd_instance (self : JacFwd.t)
| JacRevDiagonal_instance (self : JacRevDiagonal.t)
| VJPDiagonal_instance (self : VJPDiagonal.t)
| JacFwdDiagonal_instance (self : JacFwdDiagonal.t).

(** The keyword arguments of a constructor call. *)
Record kwargs := Kwargs {
  kw_sde : option SDE;
  kw_observation_map : option dfun;
  kw_H : option ndarray;
  kw_y : option ndarray;
  kw_noise_std : option Qc;
  kw_shape : option (list nat);
  kw_scale : option Qc;
  kw_HHT : option ndarray;
}.

(** A parameter without default has to be given; an argument the signature
    does not have is a [TypeError]. *)
Definition required {A} (o : option A) : res A :=
  match o with Some a => Ok a | None => Raise TypeError end.
Definition unexpected {A} (o : option A) : res unit :=
  match o with Some _ => Raise TypeError | None => Ok () end.

(** [__init__(self, sde, observation_map, y, noise_std, shape)] *)
Definition map_init {X} (build : SDE → dfun → ndarray → Qc → list nat → X) (kw : kwargs) : res X :=
  sde ← required (kw_sde kw);
  observation_map ← required (kw_observation_map kw);
  y ← required (kw_y kw);
  noise_std ← required (kw_noise_std kw);
  shape ← required (kw_shape kw);
  _ ← unexpected (kw_H kw);
  _ ← unexpected (kw_scale kw);
  _ ← unexpected (kw_HHT kw);
  Ok (build sde observation_map y noise_std shape).

(** [__init__(self, sde, H, y, noise_std, shape)] *)
Definition matrix_init {X} (build : SDE → ndarray → ndarray → Qc → list nat → X) (kw : kwargs) : res X :=
  sde ← required (kw_sde kw);
  H ← required (kw_H kw);
  y ← required (kw_y kw);
  noise_std ← required (kw_noise_std kw);
  shape ← required (kw_shape kw);
  _ ← unexpected (kw_observation_map kw);
  _ ← unexpected (kw_scale kw);
  _ ← unexpected (kw_HHT kw);
  Ok (build sde H y noise_std shape).

(** A constructor call with keyword arguments: the [__init__] of each class stores its arguments, with
    the defaults [scale=0.4] of DPS and [HHT=jnp.array([1.0])] of PIG. *)
Definition construct (cls : Class.t) (kw : kwargs) : res method :=
  match cls with
  | Class.DPS =>
      sde ← required (kw_sde kw);
      observation_map ← required (kw_observation_map kw);
      y ← required (kw_y kw);
      _ ← unexpected (kw_H kw);
      _ ← unexpected (kw_noise_std kw);
      _ ← unexpected (kw_shape kw);
      _ ← unexpected (kw_HHT kw);
      Ok (DPS_instance (DPS.Build sde observation_map y (default (Q2Qc 0.4) (kw_scale kw))))
  | Class.DPSMod =>
      sde ← required (kw_sde kw);
      observation_map ← required (kw_observation_map kw);
      y ← required (kw_y kw);
      noise_std ← required (kw_noise_std kw);
      _ ← unexpected (kw_H kw);
      _ ← unexpected (kw_shape kw);
      _ ← unexpected (kw_scale kw);
      _ ← unexpected (kw_HHT kw);
      Ok (DPSMod_instance (DPSMod.Build sde observation_map y noise_std))
  | Class.PIG =>
      sde ← required (kw_sde kw);
      observation_map ← required (kw_observation_map kw);
      y ← required (kw_y kw);
      noise_std ← required (kw_noise_std kw);
      _ ← unexpected (kw_H kw);
      _ ← unexpected (kw_shape kw);
      _ ← unexpected (kw_scale kw);
      Ok (PIG_instance (PIG.Build sde observation_map y noise_std
                          (default (NdArray [1%nat] (λ _, 1)) (kw_HHT kw))))
  | Class.VJPAlt => VJPAlt_instance <$> matrix_init VJPAlt.Build kw
  | Class.VJP => VJP_instance <$> matrix_init VJP.Build kw
  | Class.VJPMask => VJPMask_instance <$> map_init VJPMask.Build kw
  | Class.JacRev => JacRev_instance <$> map_init JacRev.Build kw
  | Class.JacFwd => JacFwd_instance <$> map_init JacFwd.Build kw
  | Class.JacRevDiagonal => JacRevDiagonal_instance <$> map_init JacRevDiagonal.Build kw
  | Class.VJPDiagonal => VJPDiagonal_instance <$> matrix_init VJPDiagonal.Build kw
  | Class.JacFwdDiagonal => JacFwdDiagonal_instance <$> map_init JacFwdDiagonal.Build kw
  end.

(** [instance.get_guidance_score_func()] *)
Definition get_guidance_score_func (sqrt : Qc → Qc) (m : method) : res guidance :=
  match m with
  | DPS_instance self => DPS.get_guidance_score_func sqrt self
  | DPSMod_instance self => DPSMod.get_guidance_score_func self
  | PIG_instance self => PIG.get_guidance_score_func self
  | VJPAlt_instance self => VJPAlt.get_guidance_score_func self
  | VJP_instance self => VJP.get_guidance_score_func self
  | VJPMask_instance self => VJPMask.get_guidance_score_func self
  | JacRev_instance self => JacRev.get_guidance_score_func self
  | JacFwd_instance self => JacFwd.get_guidance_score_func self
  | JacRevDiagonal_instance self => JacRevDiagonal.get_guidance_score_func self
  | VJPDiagonal_instance self => VJPDiagonal.get_guidance_score_func self
  | JacFwdDiagonal_instance self => JacFwdDiagonal.get_guidance_score_func self
  end.

(** The guidance score of an instance at [(x, t)]. *)
Definition guidance_score (sqrt : Qc → Qc) (m : method) (x tt : ndarray) : res ndarray :=
  f ← get_guidance_score_func sqrt m;
  f x tt.

(** The likelihood term [ls] and the score [s] an instance computes before
    the last line of its closure. *)
Definition likelihood_score (sqrt : Qc → Qc) (m : method) (x tt : ndarray)
  : res (ndarray * ndarray) :=
  match m with
  | DPS_instance self => DPS.likelihood_score sqrt self x tt
  | DPSMod_instance self => DPSMod.likelihood_score self x tt
  | PIG_instance self => PIG.likelihood_score self x tt
  | VJPAlt_instance self =>
      batch_H ← VJPAlt.batch_H self;
      VJPAlt.likelihood_score self batch_H x tt
  | VJP_instance self =>
      b ← shape0 (VJP.shape self);
      batch_H ← VJP.batch_H self;
      VJP.likelihood_score self b batch_H x tt
  | VJPMask_instance self => VJPMask.likelihood_score self x tt
  | JacRev_instance self =>
      JacRev.likelihood_score self (jacobian_axes (JacRev.shape self)) x tt
  | JacFwd_instance self =>
      JacFwd.likelihood_score self (jacobian_axes (JacFwd.shape self)) x tt
  | JacRevDiagonal_instance self =>
      JacRevDiagonal.likelihood_score self (jacobian_axes (JacRevDiagonal.shape self)) x tt
  | VJPDiagonal_instance self =>
      b ← shape0 (VJPDiagonal.shape self);
      batch_H ← VJPDiagonal.batch_H self;
      VJPDiagonal.likelihood_score self b batch_H x tt
  | JacFwdDiagonal_instance self =>
      JacFwdDiagonal.likelihood_score self (jacobian_axes (JacFwdDiagonal.shape self)) x tt
  end.


(** The decorators of the module, in the order the module applies them. *)
Definition decorations : list (ConditioningMethodName * Class.t) :=
  [(DIFFUSION_POSTERIOR_SAMPLING, Class.DPS);
   (DIFFUSION_POSTERIOR_SAMPLING_MOD, Class.DPSMod);
   (PSEUDO_INVERSE_GUIDANCE, Class.PIG);
   (VJP_GUIDANCE_ALT, Class.VJPAlt);
   (VJP_GUIDANCE, Class.VJP);
   (VJP_GUIDANCE_MASK, Class.VJPMask);
   (JAC_REV_GUIDANCE, Class.JacRev);
   (JAC_FWD_GUIDANCE, Class.JacFwd);
   (JAC_REV_GUIDANCE_DIAG, Class.JacRevDiagonal);
   (VJP_GUIDANCE_DIAG, Class.VJPDiagonal);
   (JAC_FWD_GUIDANCE_DIAG, Class.JacFwdDiagonal)].

(** Importing the module: the dictionary starts empty and every decorator
    runs in turn; an exception stops the import. *)
Fixpoint run_decorations (l : list (ConditioningMethodName * Class.t)) (d : gmap string Class.t)
  : res () * gmap string Class.t :=
  match l with
  | [] => (Ok (), d)
  | (name, cls) :: l' =>
      match register_conditioning_method (value name) cls d with
      | (Ok _, d') => run_decorations l' d'
      | (Raise e, d') => (Raise e, d')
      end
  end.

Definition module_init : res () * gmap string Class.t := run_decorations decorations ∅.

(** The dictionary once the module is imported. *)
Definition __CONDITIONING_METHOD__ : gmap string Class.t := module_init.2.

(** ** The end-to-end scenario of the spec

    An SDE stub whose posterior-mean estimate is the sample itself and
    whose score is zero; its variance coefficients are constants. *)
Definition stub_sde (ratio_value r2_value : Qc) : SDE := {|
  sde_mean := λ x _ idx, item x idx;
  sde_mean_jac := λ x _ idx, if decide (take (ndim x) idx = drop (ndim x) idx) then 1 else 0;
  sde_score := λ _ _ _, 0;
  sde_ratio := λ _, ratio_value;
  sde_r2 := λ _ _, r2_value;
|}.

(** A matrix given by its rows, and a batch of times. *)
Definition matrix (rows : list (list Qc)) : ndarray :=
  NdArray [length rows; length (hd [] rows)]
          (λ idx, nth (nth 1 idx 0%nat) (nth (nth 0 idx 0%nat) rows []) 0).

Definition times (ts : list Qc) : ndarray :=
  NdArray [length ts; 1%nat] (λ idx, nth (nth 0 idx 0%nat) ts 0).

Definition vector (entries : list Qc) : ndarray :=
  NdArray [length entries] (λ idx, nth (nth 0 idx 0%nat) entries 0).

Definition unwrap (r : res ndarray) : ndarray :=
  match r with Ok a => a | Raise _ => scalar 0 end.

(** The keyword arguments of the scenario for each class: identity
    observation map, [H] the identity matrix, [noise_std = 0.1] and the shape
    of the batch. *)
Definition scenario_kwargs (sde : SDE) (y : ndarray) (cls : Class.t) : kwargs :=
  let with_map :=
    Kwargs (Some sde) (Some identity_map) None (Some y) (Some (Q2Qc 0.1)) None None None in
  let shaped := Some [4; 2]%nat in
  match cls with
  | Class.DPS => Kwargs (Some sde) (Some identity_map) None (Some y) None None None None
  | Class.DPSMod | Class.PIG => with_map
  | Class.VJPAlt | Class.VJP | Class.VJPDiagonal =>
      Kwargs (Some sde) None (Some (eye 2)) (Some y) (Some (Q2Qc 0.1)) shaped None None
  | _ => Kwargs (Some sde) (Some identity_map) None (Some y) (Some (Q2Qc 0.1)) shaped None None
  end.

(** Look a method up by name in the registry of the module, construct it and
    evaluate its guidance function. *)
Definition run_method (sqrt : Qc → Qc) (name : string) (kw : kwargs) (x tt : ndarray)
  : res ndarray :=
  m ← (get_conditioning_method construct name kw __CONDITIONING_METHOD__).1;
  guidance_score sqrt m x tt.

Definition scenario_x : ndarray :=
  matrix [[Qc_of_Z 0; Qc_of_Z 1]; [Qc_of_Z 10; Qc_of_Z 11];
          [Qc_of_Z 20; Qc_of_Z 21]; [Qc_of_Z 30; Qc_of_Z 31]].
Definition scenario_y : ndarray :=
  matrix [[Qc_of_Z 3; Qc_of_Z 4]; [Qc_of_Z 3; Qc_of_Z 4];
          [Qc_of_Z 3; Qc_of_Z 4]; [Qc_of_Z 3; Qc_of_Z 4]].
Definition scenario_t : ndarray := times [Q2Qc 0.5; Q2Qc 0.5; Q2Qc 0.5; Q2Qc 0.5].

(** The same method on an SDE handle with another [ratio]. *)
Definition with_ratio (ratio' : Qc → Qc) (sde : SDE) : SDE := {|
  sde_mean := sde_mean sde;
  sde_mean_jac := sde_mean_jac sde;
  sde_score := sde_score sde;
  sde_ratio := ratio';
  sde_r2 := sde_r2 sde;
|}.

Definition PIG_with_ratio (ratio' : Qc → Qc) (self : PIG.t) : PIG.t :=
  PIG.Build (with_ratio ratio' (PIG.sde self)) (PIG.observation_map self) (PIG.y self)
            (PIG.noise_std self) (PIG.HHT self).

(** ** Singular covariances

    [C_yy] is a batch of square matrices that fits the innovation, and the
    matrix of some sample has determinant zero. *)
Definition singular_batch (C innov : ndarray) : bool :=
  match shape C, shape innov with
  | [B; d; d'], [B'; d''] =>
      bool_decide (d = d' ∧ d' = d'' ∧ B = B')
      && existsb (λ b, bool_decide (det d (entries2 (slice0 C b)) = 0)) (seq 0 B)
  | _, _ => false
  end.

(** The same for the single matrix PIG solves every sample with. *)
Definition singular_matrix (C innov : ndarray) : bool :=
  match shape C, shape innov with
  | [d; d'], [_; d''] =>
      bool_decide (d = d' ∧ d' = d'') && bool_decide (det d (entries2 C) = 0)
  | _, _ => false
  end.

Definition system_singular (r : res linear_system) : bool :=
  match r with
  | Ok sys => singular_batch (C_yy sys) (innovation sys)
  | Raise _ => false
  end.

(** What a call on an instance has computed when it reaches the solve. *)
Definition VJP_system (self : VJP.t) (x tt : ndarray) : res linear_system :=
  b ← shape0 (VJP.shape self);
  batch_H ← VJP.batch_H self;
  VJP.system self b batch_H x tt.

Definition VJPAlt_system (self : VJPAlt.t) (x tt : ndarray) : res linear_system :=
  batch_H ← VJPAlt.batch_H self;
  fst <$> VJPAlt.system self batch_H x tt.

(** The covariance and the innovation PIG reaches its batched solve with,
    when [HHT] is a full matrix. *)
Definition PIG_system (self : PIG.t) (x tt : ndarray) : res (option (ndarray * ndarray)) :=
  '(h_x_0, _, _) ← jax_vjp (PIG.sde self) (PIG.observation_map self) None x tt;
  innovation ← sub (PIG.y self) h_x_0;
  d ← shape1 (PIG.y self);
  if decide (shape (PIG.HHT self) = [d; d]) then
    C_yy ← PIG.full_C_yy self d tt;
    Ok (Some (C_yy, innovation))
  else Ok None.

Definition PIG_singular (self : PIG.t) (x tt : ndarray) : bool :=
  match PIG_system self x tt with
  | Ok (Some (C, innov)) => singular_matrix C innov
  | _ => false
  end.

(** An observation matrix of rank one: both observations read the first
    coordinate. *)
Definition rank_one : ndarray := matrix [[1; 0]; [1; 0]].

(** Instances of the scenario. *)
Definition scenario_PIG (HHT : ndarray) : PIG.t :=
  PIG.Build (stub_sde 1 1) identity_map scenario_y (Q2Qc 0.1) HHT.

Definition scenario_DPS : DPS.t :=
  DPS.Build (stub_sde 1 1) identity_map (matrix [[Qc_of_Z 3; Qc_of_Z 4]]) (Q2Qc 0.4).

(** ** The correction of the full-matrix methods on flat samples

    For a batch [x] of [B] samples of shape [(d,)], observed through the
    identity, the four full-matrix methods solve, for every sample [b], a
    system with the matrix [ratio * J_b + noise_std**2 * I], or with the
    transpose of [J_b] in it, against the innovation [y_b - x0_b], and map
    the solution [f_b] back with the transpose of [J_b]; [J_b] is the
    Jacobian of the posterior mean at the sample. *)
Section ClosedForm.
Context (sde : SDE) (noise_std : Qc) (x y tt : ndarray) (B d : nat).

Definition mean_at (b j : nat) : Qc := sde_mean sde (slice0 x b) (item tt [b; 0%nat]) [j].
Definition score_at (b j : nat) : Qc := sde_score sde (slice0 x b) (item tt [b; 0%nat]) [j].
Definition jac_at (b o i : nat) : Qc :=
  sde_mean_jac sde (slice0 x b) (item tt [b; 0%nat]) [o; i].

Definition symmetric_jacobian : Prop :=
  ∀ b i j, (b < B)%nat → (i < d)%nat → (j < d)%nat → jac_at b i j = jac_at b j i.

(** The result [g] of a guidance function is the one described, with the
    Jacobian transposed in the matrix of the system or not. *)
Definition follows_closed_form (transposed : bool) (g : res ndarray) : Prop :=
  ∃ C innov,
    shape C = [B; d; d] ∧ shape innov = [B; d]
    ∧ (∀ b i j, (b < B)%nat → (i < d)%nat → (j < d)%nat →
         item C [b; i; j]
         = sde_ratio sde (item tt [0; 0]%nat)
           * (if transposed then jac_at b j i else jac_at b i j)
           + noise_std ^ 2 * (if decide (i = j) then 1 else 0))
    ∧ (∀ b i, (b < B)%nat → (i < d)%nat → item innov [b; i] = item y [b; i] - mean_at b i)
    ∧ (∀ e, batch_linalg_solve C innov = Raise e → g = Raise e)
    ∧ (∀ f, batch_linalg_solve C innov = Ok f →
         ∃ out, g = Ok out
                ∧ shape out = [B; d]
                ∧ ∀ b j, (b < B)%nat → (j < d)%nat →
                    item out [b; j]
                    = score_at b j + sum_n d (λ k, jac_at b k j * item f [b; k])).
End ClosedForm.

(** The four instances for flat samples, identity observation and [H = I]. *)
Definition flat_VJP (sde : SDE) (noise_std : Qc) (y : ndarray) (B d : nat) : method :=
  VJP_instance (VJP.Build sde (eye d) y noise_std [B; d]).
Definition flat_VJPAlt (sde : SDE) (noise_std : Qc) (y : ndarray) (B d : nat) : method :=
  VJPAlt_instance (VJPAlt.Build sde (eye d) y noise_std [B; d]).
Definition flat_JacRev (sde : SDE) (noise_std : Qc) (y : ndarray) (B d : nat) : method :=
  JacRev_instance (JacRev.Build sde identity_map y noise_std [B; d]).
Definition flat_JacFwd (sde : SDE) (noise_std : Qc) (y : ndarray) (B d : nat) : method :=
  JacFwd_instance (JacFwd.Build sde identity_map y noise_std [B; d]).

(** An SDE handle whose score is not a gradient: with unit variance and
    unit mean coefficient the score [(x_1, 0)] gives the posterior-mean
    estimate [(x_0 + x_1, x_1)], whose Jacobian is not symmetric. *)
Definition shear_sde : SDE := {|
  sde_mean := λ x _ idx,
    match idx with
    | [0%nat] => item x [0%nat] + item x [1%nat]
    | _ => item x idx
    end;
  sde_mean_jac := λ _ _ idx,
    match idx with
    | [0; 0]%nat | [0; 1]%nat | [1; 1]%nat => 1
    | _ => 0
    end;
  sde_score := λ x _ idx,
    match idx with
    | [0%nat] => item x [1%nat]
    | _ => 0
    end;
  sde_ratio := λ _, 1;
  sde_r2 := λ _ _, 1;
|}.


Definition flat_request (sh : option (list Z)) : Prop := sh = None ∨ sh = Some [(-1)%Z].

(** The [shape] argument VJPAlt gives to [get_estimate_x_0] (none) and the
    one VJP gives (the batch size and [-1]). *)
Definition batch_request (sh : option (list Z)) (B : nat) : Prop :=
  sh = None ∨ sh = Some [Z.of_nat B; (-1)%Z].

(** The inverse of a square matrix, column by column with Cramer's rule. *)
Definition linalg_inv (A : ndarray) : res ndarray :=
  match shape A with
  | [n; n'] =>
      if decide (n = n') then
        if decide (det n (entries2 A) = 0) then Raise LinearAlgebraError
        else Ok (NdArray [n; n]
                   (λ idx, det n (replace_col (entries2 A) (nth 0 idx 0%nat)
                                    (λ k, if decide (k = nth 1 idx 0%nat) then 1 else 0))
                           / det n (entries2 A)))
      else Raise ValueError
  | _ => Raise ValueError
  end.

(** The closed form the end-to-end scenario of the specification compares
    with, for a batch of samples: [Hᵗ·(c·H·Hᵗ + noise_var·I)⁻¹·(y − H·x)].
    The specification writes it with [c = 1]. *)
Definition kalman_correction (H : ndarray) (c noise_var : Qc) (y x : ndarray) : res ndarray :=
  H_T ← T H;
  HHT ← matmul H H_T;
  d_y ← shape0 (shape H);
  scaled ← mul (scalar c) HHT;
  noise ← mul (scalar noise_var) (eye d_y);
  S ← add scaled noise;
  S_inv ← linalg_inv S;
  gain ← matmul H_T S_inv;
  H_x ← batch_matmul_A H x;
  innovation ← sub y H_x;
  batch_matmul_A gain innovation.

(** ** Linear observation maps on flat samples

    The observation maps the docstrings name, [lambda x: x] and
    [lambda x: H @ x], act on a sample of [d] entries as a matrix with
    entries [A o k]: the value is the product with the matrix and the
    Jacobian is the matrix. *)
Definition linear_observation (h : dfun) (A : nat → nat → Qc) (dy d : nat) : Prop :=
  ∀ v, shape v = [d] →
    ∃ r, df_apply h v = Ok r
         ∧ shape r = [dy]
         ∧ (∀ o, (o < dy)%nat → item r [o] = sum_n d (λ k, A o k * item v [k]))
         ∧ ∀ o k, (o < dy)%nat → (k < d)%nat → item (df_jac h v) [o; k] = A o k.

Section Observed.
Context (sde : SDE) (A : nat → nat → Qc) (d : nat) (x y tt : ndarray).

(** Entry [o] of the observed estimate of sample [b], of its Jacobian in
    entry [i] of the sample, and of the innovation. *)
Definition observed_mean (b o : nat) : Qc := sum_n d (λ k, A o k * mean_at sde x tt b k).
Definition observed_jac (b o i : nat) : Qc := sum_n d (λ k, A o k * jac_at sde x tt b k i).
Definition observed_innovation (b o : nat) : Qc := item y [b; o] - observed_mean b o.
End Observed.

Section MaskDiagonal.
Context (sde : SDE) (A : nat → nat → Qc) (dy d : nat) (x tt : ndarray).

(** What VJPMask takes for the diagonal of the second moment: the
    observation of the pullback of the observed all-ones sample. *)
Definition mask_diagonal (b p : nat) : Qc :=
  sum_n d (λ i, A p i * sum_n dy (λ o, sum_n d (λ k, A o k * 1)
                                        * observed_jac sde A d x tt b o i)).
End MaskDiagonal.

(** A row vector as a matrix with one row: the observation [lambda x: H @ x]
    of the sum of the two entries of a sample. *)
Definition sum_of_entries : ndarray := matrix [[1; 1]].
Definition scenario_sums : ndarray := matrix [[Qc_of_Z 2]; [Qc_of_Z 20]; [Qc_of_Z 40]; [Qc_of_Z 60]].

(** The matrix with [c] on the diagonal and zero elsewhere. *)
Definition diag_matrix (c : nat → Qc) : nat → nat → Qc :=
  λ i j, if decide (i = j) then c i else 0.

Section FirstTime.
Context (sde : SDE) (A : nat → nat → Qc) (d : nat) (x tt : ndarray).

(** The Jacobian of the estimate of sample [b] taken at the time of the
    first sample of the batch, and its observation. *)
Definition jac_first (b o i : nat) : Qc :=
  sde_mean_jac sde (slice0 x b) (item tt [0; 0]%nat) [o; i].
Definition observed_jac_first (b o i : nat) : Qc :=
  sum_n d (λ k, A o k * jac_first b k i).
End FirstTime.

(** Entry [o] of the diagonal of [A·J·Aᵗ], given the rows [OJ] of [A·J]. *)
Definition second_moment_diagonal (A : nat → nat → Qc) (d : nat) (OJ : nat → nat → Qc)
    (o : nat) : Qc :=
  sum_n d (λ i, A o i * OJ o i).

Section DiagonalForm.
Context (sde : SDE) (A : nat → nat → Qc) (noise_std : Qc) (x y tt : ndarray) (dy d : nat).

(** The covariance a diagonal method divides entry [o] of the innovation of
    sample [b] by, and what it returns at [b; j], given the rows [OJ b] of
    the observed Jacobian it uses for sample [b]. *)
Definition diagonal_C_yy (OJ : nat → nat → nat → Qc) (b o : nat) : Qc :=
  sde_ratio sde (item tt [0; 0]%nat) * second_moment_diagonal A d (OJ b) o + noise_std ^ 2.
Definition diagonal_guidance (OJ : nat → nat → nat → Qc) (b j : nat) : Qc :=
  score_at sde x tt b j
  + sum_n dy (λ o, OJ b o j
                   * (observed_innovation sde A d x y tt b o * (1 / diagonal_C_yy OJ b o))).
End DiagonalForm.

(** An SDE handle whose posterior-mean estimate scales the sample by the
    time: its Jacobian depends on the time. *)
Definition scaling_sde : SDE := {|
  sde_mean := λ x t idx, t * item x idx;
  sde_mean_jac := λ x t idx, if decide (take (ndim x) idx = drop (ndim x) idx) then t else 0;
  sde_score := λ _ _ _, 0;
  sde_ratio := λ _, 1;
  sde_r2 := λ _ _, 1;
|}.

Section DiagonalJacobianForm.
Context (sde : SDE) (noise_std : Qc) (x y tt : ndarray) (B d : nat).

(** The Jacobian of the estimate of every sample is a diagonal matrix. *)
Definition diagonal_jacobian : Prop :=
  ∀ b o i, (b < B)%nat → (o < d)%nat → (i < d)%nat → o ≠ i → jac_at sde x tt b o i = 0.

(** Every sample has the time of the first one. *)
Definition same_times : Prop :=
  ∀ b, (b < B)%nat → item tt [b; 0%nat] = item tt [0; 0]%nat.

(** The variance of entry [j] of sample [b] and the guidance there when the
    Jacobian is diagonal. *)
Definition entry_variance (b j : nat) : Qc :=
  sde_ratio sde (item tt [0; 0]%nat) * jac_at sde x tt b j j + noise_std ^ 2.
Definition entrywise_guidance (b j : nat) : Qc :=
  score_at sde x tt b j
  + jac_at sde x tt b j j * ((item y [b; j] - mean_at sde x tt b j) / entry_variance b j).

(** The eight methods that build a covariance from the Jacobian, for flat
    samples observed entirely. *)
Definition covariance_methods : list method :=
  [flat_VJP sde noise_std y B d; flat_VJPAlt sde noise_std y B d;
   flat_JacRev sde noise_std y B d; flat_JacFwd sde noise_std y B d;
   VJPMask_instance (VJPMask.Build sde identity_map y noise_std [B; d]);
   JacRevDiagonal_instance (JacRevDiagonal.Build sde identity_map y noise_std [B; d]);
   VJPDiagonal_instance (VJPDiagonal.Build sde (eye d) y noise_std [B; d]);
   JacFwdDiagonal_instance (JacFwdDiagonal.Build sde identity_map y noise_std [B; d])].
End DiagonalJacobianForm.

(** The matrix with the given entries. *)
Definition of_entries (B d : nat) (F : nat → nat → Qc) : ndarray :=
  NdArray [B; d] (λ idx, F (nth 0 idx 0%nat) (nth 1 idx 0%nat)).

(** * The score network and its training loop ([diffusion/backwards.py]) *)

(** ** Array operations the module uses *)

(** [jnp.array([a, b, ...])] of arrays: they have to have one shape. *)
Definition jnp_array (l : list ndarray) : res ndarray :=
  match l with
  | [] => Ok (NdArray [0%nat] (λ _, 0))
  | a :: _ =>
      if bool_decide (Forall (λ b, shape b = shape a) l)
      then Ok (NdArray (length l :: shape a)
                 (λ idx, match idx with
                         | i :: r => item (nth i l a) r
                         | [] => 0
                         end))
      else Raise ValueError
  end.

(** [a.squeeze(-1)]: the last axis has to have size one. *)
Definition squeeze_last (a : ndarray) : res ndarray :=
  match reverse (shape a) with
  | 1%nat :: r => Ok (NdArray (reverse r) (λ idx, item a (idx ++ [0%nat])))
  | _ => Raise ValueError
  end.

(** [jnp.concatenate([a, b])], along the leading axis: the arrays have at
    least one axis and agree on the others. *)
Definition concatenate (a b : ndarray) : res ndarray :=
  match shape a, shape b with
  | n :: sa, m :: sb =>
      if decide (sa = sb)
      then Ok (NdArray ((n + m)%nat :: sa)
                 (λ idx, match idx with
                         | i :: r => if decide (i < n)%nat then item a (i :: r)
                                     else item b ((i - n)%nat :: r)
                         | [] => 0
                         end))
      else Raise TypeError
  | _, _ => Raise ValueError
  end.

(** [jax.nn.relu(a)] *)
Definition relu (a : ndarray) : ndarray :=
  map_arr (λ v, if decide (0 ≤ v) then v else 0) a.

(** [jnp.mean(a)], a zero-dimensional array. *)
Definition mean (a : ndarray) : ndarray :=
  scalar (sum_over (shape a) (item a) / Qc_of_Z (Z.of_nat (size_of (shape a)))).

(** [eqx.nn.Linear]: the call is [weight @ x + bias]. *)
Module Linear.
Record t := Build { weight : ndarray; bias : ndarray }.

Definition __call__ (self : t) (x : ndarray) : res ndarray :=
  x ← matmul (weight self) x;
  add x (bias self).

(** What [eqx.nn.Linear(in_features, out_features, key=key)] builds has a
    weight of shape (out_features, in_features) and a bias of shape
    (out_features,). *)
Definition has_features (self : t) (in_features out_features : nat) : Prop :=
  shape (weight self) = [out_features; in_features] ∧ shape (bias self) = [out_features].
End Linear.

(** ** [FullyConnectedWithTime] *)

Module FullyConnectedWithTime.
Record t := Build { layers : list Linear.t }.

Section Init.
(** The keys, [jax.random.split(key, 4)] and the constructor of
    [eqx.nn.Linear], which draws the weights from its key. *)
Context {Key : Type} (split4 : Key → Key * Key * Key * Key).
Context (linear : nat → nat → Key → Linear.t).

Definition __init__ (in_size : nat) (key : Key) : t :=
  let '(key1, key2, key3, key4) := split4 key in
  let out_size := in_size in
  Build [linear (in_size + 4)%nat 256%nat key1;
         linear 256%nat 256%nat key2;
         linear 256%nat 256%nat key3;
         linear 256%nat out_size key4].
End Init.

Section Call.
(** The cosine, the sine and [jnp.pi], which the rationals lack. *)
Context (cos sin : Qc → Qc) (pi : Qc).

(** [jnp.array([t - 0.5, jnp.cos(2 * jnp.pi * t), jnp.sin(2 * jnp.pi * t),
    -jnp.cos(4 * jnp.pi * t)]).squeeze(-1)] *)
Definition t_fourier (tt : ndarray) : res ndarray :=
  stacked ← jnp_array [map_arr (λ v, v - Q2Qc 0.5) tt;
                       map_arr (λ v, cos (Qc_of_Z 2 * pi * v)) tt;
                       map_arr (λ v, sin (Qc_of_Z 2 * pi * v)) tt;
                       map_arr (λ v, - cos (Qc_of_Z 4 * pi * v)) tt];
  squeeze_last stacked.

(** [for layer in ls: x = jax.nn.relu(layer(x))] *)
Fixpoint hidden (ls : list Linear.t) (x : ndarray) : res ndarray :=
  match ls with
  | [] => Ok x
  | layer :: ls' =>
      x' ← Linear.__call__ layer x;
      hidden ls' (relu x')
  end.

Definition __call__ (self : t) (x tt : ndarray) : res ndarray :=
  t_fourier ← t_fourier tt;
  x ← concatenate x t_fourier;
  x ← hidden (removelast (layers self)) x;
  match last (layers self) with
  | Some layer => Linear.__call__ layer x
  | None => Raise IndexError
  end.
End Call.
End FullyConnectedWithTime.

(** A constructor of linear layers for examples: all weights and biases
    zero. *)
Definition zero_linear (in_features out_features : nat) (key : unit) : Linear.t :=
  Linear.Build (NdArray [out_features; in_features] (λ _, 0))
               (NdArray [out_features] (λ _, 0)).

(** ** [loss] *)

Section Loss.
(** The keys with [random.split(rng, 2)], the draws [random.choice(key, a,
    shape)] and [random.normal(key, shape)], and the square root behind
    [** 0.5]. *)
Context {Key Grads : Type} (split2 : Key → Key * Key).
Context (choice : Key → ndarray → list nat → ndarray) (normal : Key → list nat → ndarray).
Context (sqrt cos sin : Qc → Qc) (pi : Qc).

(** The function under the two decorators. *)
Definition loss_value (model : FullyConnectedWithTime.t) (data alpha_bar : ndarray) (rng : Key)
  : res ndarray :=
  let '(key1, key2) := split2 rng in
  b ← shape0 (shape data);
  let r_alpha_bar := choice key1 alpha_bar [b; 1%nat] in
  let noise := normal key2 (shape data) in
  signal ← mul data (map_arr sqrt r_alpha_bar);
  blur ← mul noise (map_arr (λ v, sqrt (1 - v)) r_alpha_bar);
  noised_data ← add signal blur;
  output ← vmap2 (FullyConnectedWithTime.__call__ cos sin pi model) noised_data r_alpha_bar;
  residual ← sub noise output;
  Ok (mean (map_arr (λ v, v ^ 2) residual)).

(** [jax.value_and_grad] makes it return its value together with its
    gradient in the model, which the differentiation engine computes. *)
Definition loss (grad : FullyConnectedWithTime.t → ndarray → ndarray → Key → Grads)
    (model : FullyConnectedWithTime.t) (data alpha_bar : ndarray) (rng : Key)
  : res (ndarray * Grads) :=
  value ← loss_value model data alpha_bar rng;
  Ok (value, grad model data alpha_bar rng).
End Loss.

(** Draws for examples: the first entry of the array every time, and the
    constant one for the noise. *)
Definition choose_first (key : unit) (a : ndarray) (sh : list nat) : ndarray :=
  NdArray sh (λ _, item a [0%nat]).
Definition constant_noise (key : unit) (sh : list nat) : ndarray := NdArray sh (λ _, 1).

(** ** [fit] *)

(** [optax.GradientTransformation]: the two functions of an optimizer. *)
Module GradientTransformation.
Record t (Model Params Grads Updates OptState : Type) := Build {
  init : Params → OptState;
  update : Grads → OptState → Model → Updates * OptState;
}.
Arguments Build {_ _ _ _ _} _ _.
Arguments init {_ _ _ _ _} _ _.
Arguments update {_ _ _ _ _} _ _ _ _.
End GradientTransformation.

(** What stops [fit]: an exception of the array code, or the division by
    zero of [step % print_every]. *)
Inductive raised := Exception (e : exn) | ZeroDivisionError.

(** [range(n)] *)
Definition range (n : Z) : list Z := Z.of_nat <$> seq 0 (Z.to_nat n).

(** [jnp.mean(jnp.array(losses))] *)
Definition mean_loss (losses : list ndarray) : res ndarray :=
  a ← jnp_array losses;
  Ok (mean a).

Section Fit.
(** The loss with its gradient, as [loss] returns them, and the two
    functions of equinox, [eqx.filter(model, eqx.is_array)] and
    [eqx.apply_updates]. *)
Context {Model Params Grads Updates OptState Key : Type}.
Context (split2 : Key → Key * Key).
Context (loss : Model → ndarray → ndarray → Key → res (ndarray * Grads)).
Context (filter_arrays : Model → Params) (apply_updates : Model → Updates → Model).

Definition make_step (optimizer : GradientTransformation.t Model Params Grads Updates OptState)
    (model : Model) (opt_state : OptState) (data alpha_bar : ndarray) (step_rng : Key)
  : res (Model * OptState * ndarray) :=
  '(loss_value, grads) ← loss model data alpha_bar step_rng;
  let '(updates, opt_state) := GradientTransformation.update optimizer grads opt_state model in
  let model := apply_updates model updates in
  Ok (model, opt_state, loss_value).

(** The variables of the loop, and the lines printed so far, each with its
    step and its average. *)
Record fit_state := FitState {
  fit_model : Model;
  fit_opt_state : OptState;
  fit_rng : Key;
  fit_losses : list ndarray;
  fit_printed : list (Z * ndarray);
}.

(** The body of the loop for one [step]. *)
Definition fit_step (optimizer : GradientTransformation.t Model Params Grads Updates OptState)
    (data alpha_bar : ndarray) (steps print_every step : Z) (st : fit_state)
  : raised + fit_state :=
  let '(step_rng, rng) := split2 (fit_rng st) in
  match make_step optimizer (fit_model st) (fit_opt_state st) data alpha_bar step_rng with
  | Raise e => inl (Exception e)
  | Ok (model, opt_state, train_loss) =>
      let losses := fit_losses st ++ [train_loss] in
      if decide (print_every = 0%Z) then inl ZeroDivisionError
      else if bool_decide ((step mod print_every)%Z = 0%Z ∨ step = (steps - 1)%Z) then
        match mean_loss losses with
        | Ok average => inr (FitState model opt_state rng losses
                               (fit_printed st ++ [(step, average)]))
        | Raise e => inl (Exception e)
        end
      else inr (FitState model opt_state rng losses (fit_printed st))
  end.

Fixpoint fit_loop (optimizer : GradientTransformation.t Model Params Grads Updates OptState)
    (data alpha_bar : ndarray) (steps print_every : Z) (todo : list Z) (st : fit_state)
  : raised + fit_state :=
  match todo with
  | [] => inr st
  | step :: todo' =>
      match fit_step optimizer data alpha_bar steps print_every step st with
      | inl e => inl e
      | inr st' => fit_loop optimizer data alpha_bar steps print_every todo' st'
      end
  end.

(** The run of [fit] up to its [return]. *)
Definition fit_run (model : Model) (steps : Z)
    (optimizer : GradientTransformation.t Model Params Grads Updates OptState)
    (data alpha_bar : ndarray) (rng : Key) (print_every : Z) : raised + fit_state :=
  let opt_state := GradientTransformation.init optimizer (filter_arrays model) in
  fit_loop optimizer data alpha_bar steps print_every (range steps)
           (FitState model opt_state rng [] []).

Definition fit (model : Model) (steps : Z)
    (optimizer : GradientTransformation.t Model Params Grads Updates OptState)
    (data alpha_bar : ndarray) (rng : Key) (print_every : Z) : raised + Model :=
  match fit_run model steps optimizer data alpha_bar rng print_every with
  | inl e => inl e
  | inr st => inr (fit_model st)
  end.
End Fit.

(** When a line is printed. *)
Definition prints (steps print_every step : Z) : Prop :=
  (step mod print_every)%Z = 0%Z ∨ step = (steps - 1)%Z.

(** A training set-up for examples: the model is a counter, every step adds
    one to it, and the loss of a model is its count. *)
Definition counting_loss (model : nat) (data alpha_bar : ndarray) (key : nat)
  : res (ndarray * unit) :=
  Ok (scalar (Qc_of_Z (Z.of_nat model)), ()).
Definition counting_optimizer : GradientTransformation.t nat nat unit nat nat :=
  GradientTransformation.Build (λ _, 0%nat) (λ _ opt_state _, (1%nat, S opt_state)).
Definition counting_fit (steps print_every : Z) : raised + nat :=
  fit (λ key : nat, (key, S key)) counting_loss id Nat.add 0%nat steps counting_optimizer
      (scalar 0) (scalar 0) 0%nat print_every.
Definition counting_run (steps print_every : Z) : raised + fit_state :=
  fit_run (λ key : nat, (key, S key)) counting_loss id Nat.add 0%nat steps counting_optimizer
          (scalar 0) (scalar 0) 0%nat print_every.

(** The entries a list of decorators leaves in the dictionary. *)
Definition bindings (l : list (ConditioningMethodName * Class.t)) : list (string * Class.t) :=
  (λ p, (value p.1, p.2)) <$> l.

(** The classes whose constructor takes the matrix [H], and the error their
    [get_guidance_score_func] raises for the empty shape tuple. *)
Definition takes_matrix (cls : Class.t) : bool :=
  match cls with
  | Class.VJP | Class.VJPAlt | Class.VJPDiagonal => true
  | _ => false
  end.

Definition class_of (m : method) : Class.t :=
  match m with
  | DPS_instance _ => Class.DPS
  | DPSMod_instance _ => Class.DPSMod
  | PIG_instance _ => Class.PIG
  | VJPAlt_instance _ => Class.VJPAlt
  | VJP_instance _ => Class.VJP
  | VJPMask_instance _ => Class.VJPMask
  | JacRev_instance _ => Class.JacRev
  | JacFwd_instance _ => Class.JacFwd
  | JacRevDiagonal_instance _ => Class.JacRevDiagonal
  | VJPDiagonal_instance _ => Class.VJPDiagonal
  | JacFwdDiagonal_instance _ => Class.JacFwdDiagonal
  end.

Section ObservedForm.
Context (sde : SDE) (A : nat → nat → Qc) (noise_std : Qc) (x y tt : ndarray) (B dy d : nat).

(** Entry [i, j] of [A·J·Aᵗ] for sample [b]. *)
Definition observed_second_moment (b i j : nat) : Qc :=
  sum_n d (λ k, A j k * observed_jac sde A d x tt b i k).

Definition symmetric_second_moment : Prop :=
  ∀ b i j, (b < B)%nat → (i < dy)%nat → (j < dy)%nat →
    observed_second_moment b i j = observed_second_moment b j i.

(** The closed form for an observation that acts as the matrix [A]: the
    covariance is [ratio(t[0]) * A·J·Aᵗ + noise_std**2 * I], with the second
    moment transposed or not, the innovation [y − A·x0] is solved against it
    sample by sample, and the solution is mapped back with [(A·J)ᵗ] and
    added to the score. *)
Definition follows_observed_form (transposed : bool) (g : res ndarray) : Prop :=
  ∃ C innov,
    shape C = [B; dy; dy] ∧ shape innov = [B; dy]
    ∧ (∀ b i j, (b < B)%nat → (i < dy)%nat → (j < dy)%nat →
         item C [b; i; j]
         = sde_ratio sde (item tt [0; 0]%nat)
           * (if transposed then observed_second_moment b j i
              else observed_second_moment b i j)
           + noise_std ^ 2 * (if decide (i = j) then 1 else 0))
    ∧ (∀ b i, (b < B)%nat → (i < dy)%nat →
         item innov [b; i] = observed_innovation sde A d x y tt b i)
    ∧ (∀ e, batch_linalg_solve C innov = Raise e → g = Raise e)
    ∧ (∀ f, batch_linalg_solve C innov = Ok f →
         ∃ out, g = Ok out
                ∧ shape out = [B; d]
                ∧ ∀ b j, (b < B)%nat → (j < d)%nat →
                    item out [b; j]
                    = score_at sde x tt b j
                      + sum_n dy (λ o, observed_jac sde A d x tt b o j * item f [b; o])).
End ObservedForm.

(** ** The gradient of the norm

    The norm of the innovation is rational at some samples only, so it is a
    function given by its graph, and a gradient is stated by the estimate
    that defines it: the change of the function is the change the gradient
    predicts, up to a multiple of the square of the distance. *)


(** The root of a rational that is a square: of a fraction in lowest terms
    it takes the integer roots of the numerator and of the denominator. *)
Definition exact_sqrt (q : Qc) : Qc :=
  Q2Qc (Z.sqrt (Qnum (this q)) # Z.to_pos (Z.sqrt (Zpos (Qden (this q))))).






(** *** The increment of a sum of squares

    The innovation [i] of a batch changes by [- D] when the observed
    estimate changes by [D]; [OJ] is the Jacobian of the estimate, [e] the
    change of the samples and [n] the norm of the innovation. *)
Section SquareIncrement.
Context (B dy d : nat) (i D : nat → nat → Qc) (OJ : nat → nat → nat → Qc).
Context (e : nat → nat → Qc) (n : Qc).

(** The change of the estimate to first order, and the rest. *)
Definition linear_part (b o : nat) : Qc := sum_n d (λ j, OJ b o j * e b j).
Definition rest (b o : nat) : Qc := D b o - linear_part b o.



End SquareIncrement.


(** ** The system PIG solves *)

(** The matrix [c * M + v * I], entry by entry. *)
Definition regularised (c v : Qc) (M : nat → nat → Qc) : nat → nat → Qc :=
  λ i k, c * M i k + v * (if decide (i = k) then 1 else 0).

(** The solution of the regular system [M f = b] the solve returns. *)
Definition solution (n : nat) (M : nat → nat → Qc) (b : nat → Qc) (i : nat) : Qc :=
  det n (replace_col M i b) / det n M.

(** ** Valid inputs *)






(** * Properties *)

(** ** The error monad *)

Lemma bind_Ok {A B} (e : res A) (k : A → res B) (v : B) :
  e ≫= k = Ok v ↔ ∃ a, e = Ok a ∧ k a = Ok v.
Proof.
  destruct e as [a | err]; simpl.
  - split; [eauto | by intros (? & [= <-] & ?)].
  - split; [done | by intros (? & ? & ?)].
Qed.

Lemma fmap_Ok {A B} (f : A → B) (e : res A) (v : B) :
  f <$> e = Ok v ↔ ∃ a, e = Ok a ∧ v = f a.
Proof.
  destruct e as [a | err]; simpl.
  - split; [intros [= <-]; eauto | by intros (? & [= <-] & ->)].
  - split; [done | by intros (? & ? & ?)].
Qed.

(** Take the successful run [H] of a sequence of binds apart. *)
Ltac inv_res H :=
  repeat match type of H with
    | _ ≫= _ = Ok _ =>
        let a := fresh "a" in let Ha := fresh "E" in
        apply bind_Ok in H as (a & Ha & H)
    | _ <$> _ = Ok _ =>
        let a := fresh "a" in let Ha := fresh "E" in
        apply fmap_Ok in H as (a & Ha & H)
    | (let '(_, _) := ?p in _) = Ok _ => destruct p
    | Ok _ = Ok _ => injection H as H
    | Raise _ = Ok _ => discriminate H
    | (if ?c then _ else _) = Ok _ => destruct c
    | match ?o with Some _ => _ | None => _ end = Ok _ => destruct o
    end.

(** ** Shapes *)

Lemma broadcast_rev_same (r : list nat) : broadcast_rev r r = Ok r.
Proof.
  induction r as [| n r IH]; simpl; [done |].
  rewrite IH. simpl. by rewrite decide_True.
Qed.

Lemma broadcast_shapes_same (sh : list nat) : broadcast_shapes sh sh = Ok sh.
Proof.
  unfold broadcast_shapes. rewrite broadcast_rev_same. simpl.
  by rewrite reverse_involutive.
Qed.

Lemma broadcast_rev_nil_l (r : list nat) : broadcast_rev [] r = Ok r.
Proof. by destruct r. Qed.

Lemma broadcast_rev_nil_r (r : list nat) : broadcast_rev r [] = Ok r.
Proof. by destruct r. Qed.

Lemma broadcast_shapes_nil_l (sh : list nat) : broadcast_shapes [] sh = Ok sh.
Proof.
  unfold broadcast_shapes. rewrite reverse_nil, broadcast_rev_nil_l. simpl.
  by rewrite reverse_involutive.
Qed.

Lemma broadcast_shapes_nil_r (sh : list nat) : broadcast_shapes sh [] = Ok sh.
Proof.
  unfold broadcast_shapes. rewrite reverse_nil, broadcast_rev_nil_r. simpl.
  by rewrite reverse_involutive.
Qed.



Lemma filter_nonneg_shape_Z (sh : list nat) :
  filter (λ z, z ≠ (-1)%Z) (shape_Z sh) = shape_Z sh.
Proof.
  unfold shape_Z. induction sh as [| n sh IH]; [done |].
  rewrite fmap_cons, filter_cons_True by lia. by rewrite IH.
Qed.

Lemma to_nat_shape_Z (sh : list nat) : Z.to_nat <$> shape_Z sh = sh.
Proof.
  unfold shape_Z. rewrite <- list_fmap_compose.
  induction sh as [| n sh IH]; [done |]. rewrite fmap_cons, IH. simpl. by rewrite Nat2Z.id.
Qed.


Lemma resolve_shape_exact_ok (sh : list nat) :
  resolve_shape (size_of sh) (shape_Z sh) = Ok sh.
Proof.
  unfold resolve_shape. rewrite filter_nonneg_shape_Z, Nat.sub_diag, to_nat_shape_Z.
  rewrite bool_decide_true, decide_True; [done.. |].
  unfold shape_Z. apply Forall_fmap, Forall_forall. intros; simpl; lia.
Qed.


(** ** Mapping over the batch *)

Lemma batch_map_shape (f : nat → ndarray → res ndarray) (a r : ndarray) :
  batch_map f a = Ok r →
  ∃ n sh r0, shape a = n :: sh ∧ f 0%nat (slice0 a 0) = Ok r0 ∧ shape r = n :: shape r0.
Proof.
  unfold batch_map. destruct (shape a) as [| n sh] eqn:Hs; [done |].
  intros H. inv_res H. subst r. simpl. eauto 10.
Qed.






Ltac inv_all :=
  repeat match goal with
    | H : _ ≫= _ = Ok _ |- _ => progress inv_res H
    | H : (let '(_, _) := _ in _) = Ok _ |- _ => progress inv_res H
    end; simplify_eq.


Section Shapes.
Variable sqrt : Qc → Qc.











End Shapes.





(** In the scenario every one of the eleven methods, looked up by its
    name, returns an array. *)
Lemma scenario_all_run (name : ConditioningMethodName) (cls : Class.t) :
  (name, cls) ∈ decorations →
  is_ok (run_method id (value name) (scenario_kwargs (stub_sde 1 1) scenario_y cls)
           scenario_x scenario_t).
Proof.
  unfold decorations. rewrite !elem_of_cons, elem_of_nil.
  intros H. repeat (destruct H as [H | H]; [simplify_eq; vm_compute; exact I |]). done.
Qed.

Section RegistryFacts.
Context {C Args Inst : Type} (call : C → Args → res Inst).

Lemma register_fresh (name : string) (cls : C) (d : gmap string C) :
  d !! name = None →
  register_conditioning_method name cls d = (Ok cls, <[name := cls]> d).
Proof. intros Hd. unfold register_conditioning_method, dict_get. by rewrite Hd. Qed.

Lemma register_bound (name : string) (cls old : C) (d : gmap string C) :
  d !! name = Some old →
  register_conditioning_method name cls d
  = (Raise (NameError ("Name " +:+ name +:+ " is already registered!")), d).
Proof. intros Hd. unfold register_conditioning_method, dict_get. by rewrite Hd. Qed.

Lemma get_bound (name : string) (cls : C) (args : Args) (d : gmap string C) :
  d !! name = Some cls →
  get_conditioning_method call name args d = (call cls args, d).
Proof. intros Hd. unfold get_conditioning_method, dict_get. by rewrite Hd. Qed.

Lemma get_unbound (name : string) (args : Args) (d : gmap string C) :
  d !! name = None →
  get_conditioning_method call name args d
  = (Raise (NameError ("Name " +:+ name +:+ " is not defined!")), d).
Proof. intros Hd. unfold get_conditioning_method, dict_get. by rewrite Hd. Qed.

Lemma get_read_only (name : string) (args : Args) (d : gmap string C) :
  (get_conditioning_method call name args d).2 = d.
Proof.
  unfold get_conditioning_method, dict_get.
  by destruct (d !! name).
Qed.
End RegistryFacts.

(** C4: on a dictionary where [name] is free, [get] fails with the
    not-defined error, [register] binds the constructor, [get] afterwards
    returns what the constructor builds from the arguments given, and a
    second [register] of the name fails with the already-registered error
    and leaves the dictionary as it was; so does [register] on any
    dictionary that holds the name. *)
Theorem registry_register_get {C Args Inst : Type} (call : C → Args → res Inst)
    (name : string) (ctor : C) (args : Args) (d : gmap string C) :
  (d !! name = None →
     get_conditioning_method call name args d
     = (Raise (NameError ("Name " +:+ name +:+ " is not defined!")), d)
     ∧ register_conditioning_method name ctor d = (Ok ctor, <[name := ctor]> d)
     ∧ get_conditioning_method call name args (register_conditioning_method name ctor d).2
       = (call ctor args, <[name := ctor]> d)
     ∧ ∀ ctor' : C,
         register_conditioning_method name ctor' (register_conditioning_method name ctor d).2
         = (Raise (NameError ("Name " +:+ name +:+ " is already registered!")),
            (register_conditioning_method name ctor d).2))
  ∧ (is_Some (d !! name) →
     register_conditioning_method name ctor d
     = (Raise (NameError ("Name " +:+ name +:+ " is already registered!")), d)).
Proof.
  split.
  - intros Hd. rewrite (register_fresh name ctor d Hd). simpl.
    repeat split.
    + by apply get_unbound.
    + apply get_bound, lookup_insert_eq.
    + intros ctor'. eapply register_bound, lookup_insert_eq.
  - intros [old Hold]. by eapply register_bound.
Qed.

Lemma registry_register_get_witness :
  (∅ : gmap string Class.t) !! "vjp_guidance" = None
  ∧ get_conditioning_method construct "vjp_guidance"
      (Kwargs None None None None None None None None)
      (register_conditioning_method "vjp_guidance" Class.VJP ∅).2
    = (Raise TypeError, {["vjp_guidance" := Class.VJP]})
  ∧ is_Some (__CONDITIONING_METHOD__ !! "vjp_guidance")
  ∧ register_conditioning_method "vjp_guidance" Class.DPS __CONDITIONING_METHOD__
    = (Raise (NameError "Name vjp_guidance is already registered!"), __CONDITIONING_METHOD__).
Proof.
  pose proof (registry_register_get construct "vjp_guidance" Class.VJP
                (Kwargs None None None None None None None None) ∅) as [Hfree _].
  pose proof (registry_register_get construct "vjp_guidance" Class.DPS
                (Kwargs None None None None None None None None)
                __CONDITIONING_METHOD__) as [_ Hbound].
  assert (Hnone : (∅ : gmap string Class.t) !! "vjp_guidance" = None) by reflexivity.
  assert (Hsome : is_Some (__CONDITIONING_METHOD__ !! "vjp_guidance"))
    by (exists Class.VJP; vm_compute; reflexivity).
  destruct (Hfree Hnone) as (_ & _ & Hget & _).
  split; [exact Hnone |]. split; [exact Hget |]. split; [exact Hsome |]. exact (Hbound Hsome).
Defined.

Lemma module_init_eq :
  module_init = (Ok (), foldl (λ d p, <[value p.1 := p.2]> d) ∅ decorations).
Proof.
  unfold module_init, decorations. simpl.
  repeat (rewrite register_fresh; [| by simplify_map_eq]).
  reflexivity.
Qed.

Lemma registry_eq :
  __CONDITIONING_METHOD__ = foldl (λ d p, <[value p.1 := p.2]> d) ∅ decorations.
Proof. unfold __CONDITIONING_METHOD__. by rewrite module_init_eq. Qed.

Lemma registry_lookup_decorated (name : ConditioningMethodName) (cls : Class.t) :
  (name, cls) ∈ decorations → __CONDITIONING_METHOD__ !! value name = Some cls.
Proof.
  rewrite registry_eq. unfold decorations.
  rewrite !elem_of_cons, elem_of_nil.
  intros H. repeat (destruct H as [H | H]; [by simplify_eq |]). done.
Qed.

Lemma registry_lookup_other (name : string) :
  name ∉ (value <$> all_names) → __CONDITIONING_METHOD__ !! name = None.
Proof.
  intros H. rewrite registry_eq. unfold decorations; simpl.
  repeat (rewrite lookup_insert_ne; [| intros <-; apply H; simpl; set_solver]).
  apply lookup_empty.
Qed.

(** C10: importing the module runs the eleven decorators without error; the
    dictionary then holds exactly the eleven names of the enumeration, each
    bound to the class decorated with it, so [get] constructs that class for
    each of them and fails for every other name; [get] never changes the
    dictionary. *)
Theorem module_registry :
  module_init = (Ok (), __CONDITIONING_METHOD__)
  ∧ length all_names = 11%nat
  ∧ NoDup (value <$> all_names)
  ∧ decorations.*1 ≡ₚ all_names
  ∧ NoDup decorations.*2
  ∧ dom __CONDITIONING_METHOD__ = list_to_set (value <$> all_names)
  ∧ (∀ name cls, (name, cls) ∈ decorations →
       __CONDITIONING_METHOD__ !! value name = Some cls
       ∧ (∀ kw, get_conditioning_method construct (value name) kw __CONDITIONING_METHOD__
                = (construct cls kw, __CONDITIONING_METHOD__))
       ∧ ∀ sde y, is_ok (get_conditioning_method construct (value name) (scenario_kwargs sde y cls)
                         __CONDITIONING_METHOD__).1)
  ∧ (∀ name kw, name ∉ (value <$> all_names) →
       get_conditioning_method construct name kw __CONDITIONING_METHOD__
       = (Raise (NameError ("Name " +:+ name +:+ " is not defined!")), __CONDITIONING_METHOD__))
  ∧ (∀ name kw d, (get_conditioning_method construct name kw d).2 = d).
Proof.
  split; [| split; [| split; [| split; [| split; [| split; [| split; [| split]]]]]]].
  - unfold __CONDITIONING_METHOD__. by rewrite module_init_eq.
  - reflexivity.
  - apply (bool_decide_unpack _). vm_compute. reflexivity.
  - apply (bool_decide_unpack _). vm_compute. reflexivity.
  - apply (bool_decide_unpack _). vm_compute. reflexivity.
  - rewrite registry_eq. unfold decorations, all_names. simpl.
    rewrite !dom_insert_L, dom_empty_L. set_solver.
  - intros name cls Hin. pose proof (registry_lookup_decorated name cls Hin) as Hl.
    split; [exact Hl | split].
    + intros kw. by apply get_bound.
    + intros sde y. rewrite (get_bound construct _ cls _ _ Hl). simpl.
      destruct cls; exact I.
  - intros name kw Hout. by apply get_unbound, registry_lookup_other.
  - intros name kw d. apply get_read_only.
Qed.

Lemma module_registry_witness :
  (PSEUDO_INVERSE_GUIDANCE, Class.PIG) ∈ decorations
  ∧ __CONDITIONING_METHOD__ !! "pseduo_inverse_guidance" = Some Class.PIG
  ∧ ("pseudo_inverse_guidance" ∉ (value <$> all_names))
  ∧ get_conditioning_method construct "pseudo_inverse_guidance"
      (Kwargs None None None None None None None None) __CONDITIONING_METHOD__
    = (Raise (NameError "Name pseudo_inverse_guidance is not defined!"),
       __CONDITIONING_METHOD__).
Proof.
  destruct module_registry as (_ & _ & _ & _ & _ & _ & Hin & Hout & _).
  assert (Hmem : (PSEUDO_INVERSE_GUIDANCE, Class.PIG) ∈ decorations)
    by (apply (bool_decide_unpack _); vm_compute; reflexivity).
  assert (Hnot : "pseudo_inverse_guidance" ∉ (value <$> all_names))
    by (apply (bool_decide_unpack _); vm_compute; reflexivity).
  split; [exact Hmem |]. split; [exact (proj1 (Hin _ _ Hmem)) |].
  split; [exact Hnot |].
  exact (Hout "pseudo_inverse_guidance" (Kwargs None None None None None None None None) Hnot).
Defined.

(** ** Entries of broadcast results *)

Lemma bc_index_valid (sh idx : list nat) : valid_index sh idx → bc_index sh idx = idx.
Proof.
  intros Hv. unfold bc_index.
  rewrite (Forall2_length _ _ _ Hv), Nat.sub_diag, drop_0.
  induction Hv as [| i n idx sh Hi Hv IH]; [done |].
  simpl. rewrite IH. case_decide; [f_equal; lia | done].
Qed.

Lemma map2_bc_same_item op (a b r : ndarray) (idx : list nat) :
  shape a = shape b → map2_bc op a b = Ok r → valid_index (shape a) idx →
  item r idx = op (item a idx) (item b idx).
Proof.
  intros Hs H Hv. unfold map2_bc in H. rewrite <- Hs, broadcast_shapes_same in H.
  simpl in H. injection H as <-. cbn [item].
  by rewrite bc_index_valid.
Qed.

Lemma broadcast_shapes_one_l (sh : list nat) :
  sh ≠ [] → broadcast_shapes [1%nat] sh = Ok sh.
Proof.
  intros Hne. unfold broadcast_shapes.
  destruct (reverse sh) as [| n r] eqn:Hr.
  - apply (f_equal reverse) in Hr. rewrite reverse_involutive in Hr. done.
  - assert (Hn : reverse (n :: r) = sh) by (by rewrite <- Hr, reverse_involutive).
    change (reverse [1%nat]) with [1%nat]. cbn [broadcast_rev mbind res_bind].
    case_decide; [subst n; simpl; by rewrite Hn |].
    rewrite decide_True by done. simpl. by rewrite Hn.
Qed.

Lemma bc_index_one (idx : list nat) : idx ≠ [] → bc_index [1%nat] idx = [0%nat].
Proof.
  intros Hne. unfold bc_index. simpl.
  destruct (drop (length idx - 1) idx) as [| i l] eqn:Hd; [| done].
  apply (f_equal length) in Hd. rewrite length_drop in Hd. simpl in Hd.
  destruct idx; [done | simpl in Hd; lia].
Qed.

Lemma bc_index_nil (idx : list nat) : bc_index [] idx = [].
Proof. done. Qed.

(** ** PIG *)

Lemma getitem0_batch (tt : ndarray) (n : nat) (sh : list nat) :
  shape tt = n :: sh → n ≠ 0%nat → getitem0 tt = Ok (slice0 tt 0).
Proof. intros Hs Hn. unfold getitem0. rewrite Hs. by rewrite decide_False. Qed.

Lemma map2_bc_eval op (a b : ndarray) (sh : list nat) :
  broadcast_shapes (shape a) (shape b) = Ok sh →
  map2_bc op a b
  = Ok (NdArray sh (λ idx, op (item a (bc_index (shape a) idx))
                              (item b (bc_index (shape b) idx)))).
Proof. intros H. unfold map2_bc. by rewrite H. Qed.

Lemma PIG_full_C_yy_entries (self : PIG.t) (tt : ndarray) (B d : nat) :
  shape tt = [B; 1%nat] → B ≠ 0%nat → shape (PIG.HHT self) = [d; d] →
  ∃ C, PIG.full_C_yy self d tt = Ok C
       ∧ shape C = [d; d]
       ∧ ∀ i j, (i < d)%nat → (j < d)%nat →
           item C [i; j]
           = sde_r2 (PIG.sde self) (item tt [0; 0]%nat) 1 * item (PIG.HHT self) [i; j]
             + PIG.noise_std self ^ 2 * (if decide (i = j) then 1 else 0).
Proof.
  intros Ht HB HH. unfold PIG.full_C_yy, mul, add.
  rewrite (getitem0_batch tt B [1%nat] Ht HB). cbn [mbind res_bind].
  rewrite (map2_bc_eval _ (r2 _ _ _) _ [d; d])
    by (cbn [shape r2 map_arr slice0]; rewrite Ht, HH; by apply broadcast_shapes_one_l).
  cbn [mbind res_bind].
  rewrite (map2_bc_eval _ (scalar _) (eye d) [d; d]) by apply broadcast_shapes_nil_l.
  cbn [mbind res_bind].
  rewrite (map2_bc_eval _ _ _ [d; d]) by apply broadcast_shapes_same.
  eexists. split; [reflexivity |]. split; [done |].
  intros i j Hi Hj. cbn [item shape r2 map_arr slice0 scalar eye].
  rewrite Ht, HH. cbn [tail].
  rewrite !(bc_index_valid [d; d] [i; j]) by (repeat constructor; done).
  rewrite bc_index_one by done. done.
Qed.

Lemma PIG_scalar_C_yy_entries (self : PIG.t) (tt : ndarray) (B : nat) :
  shape tt = [B; 1%nat] → B ≠ 0%nat → shape (PIG.HHT self) = [1%nat] →
  ∃ C, PIG.scalar_C_yy self tt = Ok C
       ∧ shape C = [1%nat]
       ∧ item C [0%nat]
         = sde_r2 (PIG.sde self) (item tt [0; 0]%nat) 1 * item (PIG.HHT self) [0%nat]
           + PIG.noise_std self ^ 2.
Proof.
  intros Ht HB HH. unfold PIG.scalar_C_yy, mul, add.
  rewrite (getitem0_batch tt B [1%nat] Ht HB). cbn [mbind res_bind].
  rewrite (map2_bc_eval _ (r2 _ _ _) _ [1%nat])
    by (cbn [shape r2 map_arr slice0]; rewrite Ht, HH; apply broadcast_shapes_same).
  cbn [mbind res_bind].
  rewrite (map2_bc_eval _ _ (scalar _) [1%nat]) by apply broadcast_shapes_nil_r.
  eexists. split; [reflexivity |]. split; [done |].
  cbn [item shape r2 map_arr slice0 scalar]. rewrite Ht, HH. done.
Qed.

(** C9: with an [HHT] whose shape is neither [(y.shape[1], y.shape[1])] nor
    [(1,)], the instance is constructed and its guidance function is built
    without complaint, and a call that gets as far as the innovation raises
    the unbound-local error for [f]. *)
Theorem PIG_unbound_local (sqrt : Qc → Qc) (sde : SDE) (h : dfun) (y HHT : ndarray)
    (noise_std : Qc) (x tt : ndarray) (d : nat) :
  let self := PIG.Build sde h y noise_std HHT in
  shape1 y = Ok d → shape HHT ≠ [d; d] → shape HHT ≠ [1%nat] →
  is_ok ('(h_x_0, _, _) ← jax_vjp sde h None x tt; sub y h_x_0) →
  (get_conditioning_method construct (value PSEUDO_INVERSE_GUIDANCE)
     (Kwargs (Some sde) (Some h) None (Some y) (Some noise_std) None None (Some HHT))
     __CONDITIONING_METHOD__).1 = Ok (PIG_instance self)
  ∧ get_guidance_score_func sqrt (PIG_instance self) = Ok (PIG.guidance_score self)
  ∧ PIG.guidance_score self x tt = Raise (UnboundLocalError "f").
Proof.
  intros self Hy Hfull Hone Hok. split; [| split].
  - rewrite (get_bound construct _ Class.PIG); [done |].
    apply registry_lookup_decorated. apply (bool_decide_unpack _). vm_compute. reflexivity.
  - reflexivity.
  - unfold PIG.guidance_score, PIG.likelihood_score, PIG.solve_innovation.
    cbn [PIG.sde PIG.observation_map PIG.y PIG.HHT PIG.noise_std self].
    destruct (jax_vjp _ _ _ _ _) as [[[h_x_0 vjp_fun] [s aux]] | e]; [| done].
    cbn [mbind res_bind] in *. destruct (sub _ _); [| done].
    cbn [mbind res_bind]. rewrite Hy. cbn [mbind res_bind].
    by rewrite !decide_False by done.
Qed.

(** ** The batched solve on a singular covariance *)

Lemma mapM_raise {A B} (f : A → res B) (l : list A) (e : exn) :
  (∀ a, a ∈ l → is_ok (f a) ∨ f a = Raise e) →
  (∃ a, a ∈ l ∧ f a = Raise e) →
  mapM f l = Raise e.
Proof.
  induction l as [| a l IH]; intros Hall (a0 & Hin & Ha0).
  - by apply elem_of_nil in Hin.
  - cbn [mapM]. destruct (Hall a) as [Hok | Hr]; [left | | by rewrite Hr].
    destruct (f a) as [v | e'] eqn:Hfa; [| done]. cbn [mbind res_bind].
    apply elem_of_cons in Hin as [-> | Hin]; [congruence |].
    rewrite IH; [done | | eauto]. intros a' Ha'. apply Hall. by right.
Qed.

Lemma linalg_solve_cases (A b : ndarray) (d : nat) :
  shape A = [d; d] → shape b = [d] →
  (det d (entries2 A) = 0 ∧ linalg_solve A b = Raise LinearAlgebraError)
  ∨ (det d (entries2 A) ≠ 0 ∧ is_ok (linalg_solve A b)).
Proof.
  intros HA Hb. unfold linalg_solve. rewrite HA, Hb.
  rewrite bool_decide_true by done.
  destruct (decide (det d (entries2 A) = 0)); [by left | by right].
Qed.

Lemma batch_linalg_solve_singular (C innov : ndarray) :
  singular_batch C innov = true → batch_linalg_solve C innov = Raise LinearAlgebraError.
Proof.
  unfold singular_batch.
  destruct (shape C) as [| B [| d [| d' [| ? ?]]]] eqn:HC; try done.
  destruct (shape innov) as [| B' [| d'' [| ? ?]]] eqn:Hi; try done.
  intros H. apply andb_prop in H as [Hd Hex].
  apply bool_decide_eq_true in Hd as (<- & <- & <-).
  apply existsb_exists in Hex as (b & Hb & Hdet).
  apply bool_decide_eq_true in Hdet. apply in_seq in Hb.
  unfold batch_linalg_solve, vmap2, batch_map. rewrite Hi, HC.
  cbn [hd_error]. rewrite decide_True by done.
  assert (Hcase : ∀ i, is_ok (linalg_solve (slice0 C i) (slice0 innov i))
                       ∨ linalg_solve (slice0 C i) (slice0 innov i) = Raise LinearAlgebraError).
  { intros i. destruct (linalg_solve_cases (slice0 C i) (slice0 innov i) d) as [[_ ?] | [_ ?]];
      [by cbn [shape slice0]; rewrite HC | by cbn [shape slice0]; rewrite Hi | by right | by left]. }
  destruct (Hcase 0%nat) as [Hok | ->]; [| done].
  destruct (linalg_solve (slice0 C 0) (slice0 innov 0)); [| done]. cbn [mbind res_bind].
  rewrite (mapM_raise _ _ LinearAlgebraError); [done | by intros |].
  exists b. split; [apply list_elem_of_In, in_seq; lia |].
  destruct (linalg_solve_cases (slice0 C b) (slice0 innov b) d) as [[_ ?] | [? _]];
    [by cbn [shape slice0]; rewrite HC | by cbn [shape slice0]; rewrite Hi | done | done].
Qed.

Lemma batch_linalg_solve_A_singular (C innov : ndarray) :
  singular_matrix C innov = true → batch_linalg_solve_A C innov = Raise LinearAlgebraError.
Proof.
  unfold singular_matrix.
  destruct (shape C) as [| d [| d' [| ? ?]]] eqn:HC; try done.
  destruct (shape innov) as [| B [| d'' [| ? ?]]] eqn:Hi; try done.
  intros H. apply andb_prop in H as [Hd Hdet].
  apply bool_decide_eq_true in Hd as (<- & <-). apply bool_decide_eq_true in Hdet.
  unfold batch_linalg_solve_A, vmap, batch_map. rewrite Hi.
  destruct (linalg_solve_cases C (slice0 innov 0) d) as [[_ ->] | [? _]];
    [done | by cbn [shape slice0]; rewrite Hi | done | done].
Qed.

Lemma system_singular_inv (r : res linear_system) :
  system_singular r = true →
  ∃ sys, r = Ok sys ∧ singular_batch (C_yy sys) (innovation sys) = true.
Proof. destruct r; [eauto | done]. Qed.

(** C2: when the covariance a full-matrix method hands to its batched solve
    is singular, the call of the guidance function raises
    LinearAlgebraError: the solve gets the covariance as computed, and its
    error is not caught. *)
Theorem singular_covariance_raises (sqrt : Qc → Qc) (x tt : ndarray) :
  (∀ self, system_singular (VJP_system self x tt) = true →
     guidance_score sqrt (VJP_instance self) x tt = Raise LinearAlgebraError)
  ∧ (∀ self, system_singular (VJPAlt_system self x tt) = true →
     guidance_score sqrt (VJPAlt_instance self) x tt = Raise LinearAlgebraError)
  ∧ (∀ self, PIG_singular self x tt = true →
     guidance_score sqrt (PIG_instance self) x tt = Raise LinearAlgebraError)
  ∧ (∀ self, system_singular (JacRev.system self x tt) = true →
     guidance_score sqrt (JacRev_instance self) x tt = Raise LinearAlgebraError)
  ∧ (∀ self, system_singular (JacFwd.system self x tt) = true →
     guidance_score sqrt (JacFwd_instance self) x tt = Raise LinearAlgebraError).
Proof.
  split; [| split; [| split; [| split]]].
  - intros self H. apply system_singular_inv in H as (sys & Hsys & Hsing).
    unfold VJP_system in Hsys. inv_all.
    unfold guidance_score. cbn [get_guidance_score_func].
    unfold VJP.get_guidance_score_func.
    repeat match goal with E : _ = Ok _ |- _ => rewrite E; clear E end.
    cbn [mbind res_bind]. unfold VJP.guidance_score, VJP.likelihood_score.
    rewrite Hsys. cbn [mbind res_bind].
    by rewrite batch_linalg_solve_singular.
  - intros self H. apply system_singular_inv in H as (sys & Hsys & Hsing).
    unfold VJPAlt_system in Hsys. inv_all.
    unfold guidance_score. cbn [get_guidance_score_func].
    unfold VJPAlt.get_guidance_score_func.
    match goal with E : VJPAlt.batch_H _ = Ok _ |- _ => rewrite E end.
    cbn [mbind res_bind]. unfold VJPAlt.guidance_score, VJPAlt.likelihood_score.
    match goal with E : VJPAlt.system _ _ _ _ = Ok ?p |- _ => rewrite E; destruct p end.
    cbn [mbind res_bind fst] in *.
    by rewrite batch_linalg_solve_singular.
  - intros self H. unfold PIG_singular in H.
    destruct (PIG_system self x tt) as [[[C innov] |] | e] eqn:Hsys; try done.
    unfold PIG_system in Hsys. inv_all.
    unfold guidance_score. cbn [get_guidance_score_func].
    unfold PIG.get_guidance_score_func. cbn [mbind res_bind].
    unfold PIG.guidance_score, PIG.likelihood_score, PIG.solve_innovation.
    repeat match goal with
      | p : (ndarray * ndarray)%type |- _ => destruct p
      | E : _ = Ok _ |- _ => rewrite E; cbn [mbind res_bind]
      end.
    rewrite decide_True by done.
    repeat match goal with E : _ = Ok _ |- _ => rewrite E; cbn [mbind res_bind] end.
    by rewrite batch_linalg_solve_A_singular.
  - intros self H. apply system_singular_inv in H as (sys & Hsys & Hsing).
    unfold guidance_score. cbn [get_guidance_score_func].
    unfold JacRev.get_guidance_score_func. cbn [mbind res_bind]. unfold JacRev.guidance_score, JacRev.likelihood_score.
    rewrite Hsys. cbn [mbind res_bind].
    by rewrite batch_linalg_solve_singular.
  - intros self H. apply system_singular_inv in H as (sys & Hsys & Hsing).
    unfold guidance_score. cbn [get_guidance_score_func].
    unfold JacFwd.get_guidance_score_func. cbn [mbind res_bind]. unfold JacFwd.guidance_score, JacFwd.likelihood_score.
    rewrite Hsys. cbn [mbind res_bind].
    by rewrite batch_linalg_solve_singular.
Qed.

Lemma singular_covariance_raises_witness :
  guidance_score id (VJP_instance (VJP.Build (stub_sde 1 1) rank_one scenario_y 0 [4; 2]%nat))
    scenario_x scenario_t = Raise LinearAlgebraError
  ∧ guidance_score id
      (VJPAlt_instance (VJPAlt.Build (stub_sde 1 1) rank_one scenario_y 0 [4; 2]%nat))
      scenario_x scenario_t = Raise LinearAlgebraError
  ∧ guidance_score id
      (PIG_instance (PIG.Build (stub_sde 1 1) (linear_map rank_one) scenario_y 0
                       (matrix [[1; 1]; [1; 1]])))
      scenario_x scenario_t = Raise LinearAlgebraError
  ∧ guidance_score id
      (JacRev_instance
         (JacRev.Build (stub_sde 1 1) (linear_map rank_one) scenario_y 0 [4; 2]%nat))
      scenario_x scenario_t = Raise LinearAlgebraError
  ∧ guidance_score id
      (JacFwd_instance
         (JacFwd.Build (stub_sde 1 1) (linear_map rank_one) scenario_y 0 [4; 2]%nat))
      scenario_x scenario_t = Raise LinearAlgebraError.
Proof.
  destruct (singular_covariance_raises id scenario_x scenario_t)
    as (HVJP & HVJPAlt & HPIG & HJacRev & HJacFwd).
  split; [apply HVJP; vm_compute; reflexivity |].
  split; [apply HVJPAlt; vm_compute; reflexivity |].
  split; [apply HPIG; vm_compute; reflexivity |].
  split; [apply HJacRev; vm_compute; reflexivity |].
  apply HJacFwd; vm_compute; reflexivity.
Defined.

Lemma PIG_unbound_local_witness :
  guidance_score id
    (PIG_instance (scenario_PIG (vector [1; 1; 1]))) scenario_x scenario_t
  = Raise (UnboundLocalError "f").
Proof.
  assert (Hy : shape1 scenario_y = Ok 2%nat) by reflexivity.
  assert (Hfull : shape (vector [1; 1; 1]) ≠ [2; 2]%nat) by discriminate.
  assert (Hone : shape (vector [1; 1; 1]) ≠ [1%nat]) by discriminate.
  assert (Hok : is_ok ('(h_x_0, _, _) ← jax_vjp (stub_sde 1 1) identity_map None
                                          scenario_x scenario_t;
                       sub scenario_y h_x_0)) by (vm_compute; exact I).
  destruct (PIG_unbound_local id (stub_sde 1 1) identity_map scenario_y (vector [1; 1; 1])
              (Q2Qc 0.1) scenario_x scenario_t 2 Hy Hfull Hone Hok) as (_ & Hf & Hraise).
  exact Hraise.
Defined.

(** ** The stacked observation matrix of VJP and VJPAlt *)

Lemma zip_with_mul_ones (sig : list nat) :
  zip_with Nat.mul sig (replicate (length sig) 1%nat) = sig.
Proof. induction sig as [| n sig IH]; [done |]. simpl. rewrite IH. f_equal. lia. Qed.

Lemma nth_seq_slice (l : list nat) (a n : nat) :
  (a + n ≤ length l)%nat → (λ k, nth k l 0%nat) <$> seq a n = take n (drop a l).
Proof.
  revert a. induction n as [| n IH]; intros a Hl; [done |].
  cbn [seq fmap list_fmap]. change (list_fmap nat nat ?f ?l') with (f <$> l').
  rewrite IH by lia.
  destruct (lookup_lt_is_Some_2 l a ltac:(lia)) as [v Hv].
  rewrite (drop_S l v a Hv). cbn [take]. f_equal.
  by rewrite nth_lookup, Hv.
Qed.

Lemma is_perm_swap_first (n : nat) : is_perm ([1; 0]%nat ++ seq 2 n) (2 + n) = true.
Proof.
  unfold is_perm. apply andb_true_intro. split.
  - apply bool_decide_eq_true. simpl. by rewrite length_seq.
  - apply forallb_forall. intros j Hj. apply bool_decide_eq_true.
    apply in_seq in Hj. rewrite elem_of_app, !elem_of_cons, elem_of_seq.
    destruct j as [| [| j]]; [left; by right; left | left; by left | right; lia].
Qed.

Lemma VJP_batch_H_shape (self : VJP.t) (dy dx B : nat) (sig : list nat) :
  shape (VJP.H self) = [dy; dx] → VJP.shape self = B :: sig →
  ∃ bH, VJP.batch_H self = Ok bH ∧ shape bH = [dy; B; dx].
Proof.
  intros HH Hs. unfold VJP.batch_H. rewrite Hs. cbn [shape0 mbind res_bind].
  unfold transpose, tile, ndim. cbn [shape]. rewrite HH.
  cbn. eexists. split; [reflexivity |]. cbn. f_equal; [lia | f_equal; [lia | f_equal; lia]].
Qed.

Lemma VJPAlt_batch_H_shape (self : VJPAlt.t) (dy dx B : nat) (sig : list nat) :
  shape (VJPAlt.H self) = [dy; dx] → VJPAlt.shape self = B :: sig → size_of sig = dx →
  ∃ bH, VJPAlt.batch_H self = Ok bH ∧ shape bH = dy :: B :: sig.
Proof.
  intros HH Hs Hsize. unfold VJPAlt.batch_H. rewrite HH, Hs.
  cbn [shape0 mbind res_bind tail length].
  unfold reshape. rewrite HH.
  replace (size_of [dy; dx]) with (size_of (dy :: sig))
    by (cbn [size_of foldr]; rewrite <- Hsize; unfold size_of; lia).
  rewrite resolve_shape_exact_ok. cbn [mbind res_bind].
  unfold transpose, tile, ndim. cbn [shape].
  assert (Hpad1 : pad_left (length (B :: replicate (S (length sig)) 1%nat)
                            `max` length (dy :: sig)) (dy :: sig) = 1%nat :: dy :: sig).
  { unfold pad_left. cbn [length]. rewrite length_replicate.
    by replace (S (S (length sig)) `max` S (length sig) - S (length sig))%nat
      with 1%nat by lia. }
  assert (Hpad2 : pad_left (length (B :: replicate (S (length sig)) 1%nat)
                            `max` length (dy :: sig)) (B :: replicate (S (length sig)) 1%nat)
                  = B :: 1%nat :: replicate (length sig) 1%nat).
  { unfold pad_left. cbn [length]. rewrite length_replicate.
    by replace (S (S (length sig)) `max` S (length sig) - S (S (length sig)))%nat
      with 0%nat by lia. }
  rewrite Hpad1, Hpad2. cbn [zip_with]. rewrite zip_with_mul_ones.
  replace (S (length sig) + 1)%nat with (S (S (length sig))) by lia.
  cbn [seq drop length].
  rewrite drop_0.
  change (S (S (length sig))) with (2 + length sig)%nat.
  rewrite is_perm_swap_first.
  eexists. split; [reflexivity |]. cbn [shape]. rewrite fmap_app.
  rewrite (nth_seq_slice (1 * B :: dy * 1 :: sig)%nat 2 (length sig)) by (simpl; lia).
  cbn [drop fmap list_fmap nth app]. rewrite firstn_all.
  f_equal; [lia |]. f_equal; lia.
Qed.

Lemma vmap_leading_axis (f : ndarray → res ndarray) (a r : ndarray) :
  vmap f a = Ok r → ∃ n, hd_error (shape a) = Some n ∧ hd_error (shape r) = Some n.
Proof.
  intros H. apply batch_map_shape in H as (n & sh & r0 & Ha & _ & Hr).
  exists n. by rewrite Ha, Hr.
Qed.

(** C7, as the code has it: the stacked matrix the pullback is mapped over
    has the rows of [H] on its leading axis and the batch on its second, so
    VJP and VJPAlt take [H.shape[0]] vector-Jacobian products, each of a whole
    batch. *)
Theorem batch_H_leading_axis :
  (∀ (self : VJP.t) (dy dx B : nat) (sig : list nat),
     shape (VJP.H self) = [dy; dx] → VJP.shape self = B :: sig →
     ∃ bH, VJP.batch_H self = Ok bH ∧ shape bH = [dy; B; dx])
  ∧ (∀ (self : VJPAlt.t) (dy dx B : nat) (sig : list nat),
     shape (VJPAlt.H self) = [dy; dx] → VJPAlt.shape self = B :: sig → size_of sig = dx →
     ∃ bH, VJPAlt.batch_H self = Ok bH ∧ shape bH = dy :: B :: sig)
  ∧ (∀ (vjp_x_0 : ndarray → res ndarray) (bH r : ndarray),
     vmap vjp_x_0 bH = Ok r →
     ∃ n, hd_error (shape bH) = Some n ∧ hd_error (shape r) = Some n).
Proof.
  split; [| split].
  - apply VJP_batch_H_shape.
  - apply VJPAlt_batch_H_shape.
  - apply vmap_leading_axis.
Qed.

Lemma batch_H_leading_axis_witness :
  (∃ bH, VJP.batch_H (VJP.Build (stub_sde 1 1) (matrix [[1; 0]]) scenario_y 1 [4; 2]%nat)
         = Ok bH ∧ shape bH = [1; 4; 2]%nat)
  ∧ (∃ bH, VJPAlt.batch_H
             (VJPAlt.Build (stub_sde 1 1) (matrix [[1; 0]]) scenario_y 1 [4; 2]%nat)
           = Ok bH ∧ shape bH = [1; 4; 2]%nat).
Proof.
  destruct batch_H_leading_axis as (HVJP & HVJPAlt & _).
  split.
  - exact (HVJP (VJP.Build (stub_sde 1 1) (matrix [[1; 0]]) scenario_y 1 [4; 2]%nat)
             1%nat 2%nat 4%nat [2%nat] eq_refl eq_refl).
  - exact (HVJPAlt (VJPAlt.Build (stub_sde 1 1) (matrix [[1; 0]]) scenario_y 1 [4; 2]%nat)
             1%nat 2%nat 4%nat [2%nat] eq_refl eq_refl eq_refl).
Defined.

(** C7 as stated fails: with one observation row and a batch of four the
    leading axis of the stacked matrix has size one, not the batch size. *)
Lemma batch_H_leading_axis_counterexample :
  ¬ (∀ (self : VJP.t) (bH : ndarray),
       VJP.batch_H self = Ok bH → hd_error (shape bH) = hd_error (VJP.shape self))
  ∧ ¬ (∀ (self : VJPAlt.t) (bH : ndarray),
         VJPAlt.batch_H self = Ok bH → hd_error (shape bH) = hd_error (VJPAlt.shape self)).
Proof.
  split.
  - intros H.
    specialize (H (VJP.Build (stub_sde 1 1) (matrix [[1; 0]]) scenario_y 1 [4; 2]%nat)
                  _ eq_refl).
    vm_compute in H. discriminate H.
  - intros H.
    specialize (H (VJPAlt.Build (stub_sde 1 1) (matrix [[1; 0]]) scenario_y 1 [4; 2]%nat)
                  _ eq_refl).
    vm_compute in H. discriminate H.
Qed.

(** ** Sums *)

Lemma qsum_ext {A} (f g : A → Qc) (l : list A) :
  (∀ a, a ∈ l → f a = g a) → qsum (f <$> l) = qsum (g <$> l).
Proof.
  induction l as [| a l IH]; intros H; [done |].
  cbn [fmap list_fmap qsum foldr]. change (list_fmap A Qc ?h l) with (h <$> l).
  change (foldr Qcplus 0 ?l') with (qsum l').
  rewrite H by (by left). rewrite IH; [done |]. intros a' Ha'. apply H. by right.
Qed.

Lemma sum_n_ext (n : nat) (f g : nat → Qc) :
  (∀ k, (k < n)%nat → f k = g k) → sum_n n f = sum_n n g.
Proof.
  intros H. unfold sum_n. apply qsum_ext. intros k Hk. apply H.
  apply elem_of_seq in Hk. lia.
Qed.

Lemma qsum_zero {A} (f : A → Qc) (l : list A) :
  (∀ a, a ∈ l → f a = 0) → qsum (f <$> l) = 0.
Proof.
  induction l as [| a l IH]; intros H; [done |].
  cbn [fmap list_fmap qsum foldr]. change (list_fmap A Qc ?h l) with (h <$> l).
  change (foldr Qcplus 0 ?l') with (qsum l').
  rewrite H by (by left). rewrite IH; [ring |]. intros a' Ha'. apply H. by right.
Qed.

Lemma qsum_app (l1 l2 : list Qc) : qsum (l1 ++ l2) = qsum l1 + qsum l2.
Proof.
  induction l1 as [| q l1 IH]; [by rewrite Qcplus_0_l |].
  cbn [app qsum foldr]. change (foldr Qcplus 0 ?l') with (qsum l'). rewrite IH. ring.
Qed.

(** A sum against the Kronecker delta picks one term. *)
Lemma qsum_delta (f : nat → Qc) (i a n : nat) :
  (a ≤ i < a + n)%nat →
  qsum ((λ k, (if decide (i = k) then 1 else 0) * f k) <$> seq a n) = f i.
Proof.
  revert a. induction n as [| n IH]; intros a Hi; [lia |].
  cbn [seq fmap list_fmap qsum foldr].
  change (list_fmap nat Qc ?h ?l) with (h <$> l).
  change (foldr Qcplus 0 ?l') with (qsum l').
  destruct (decide (i = a)) as [-> | Hne].
  - rewrite qsum_zero; [ring |]. intros k Hk. apply elem_of_seq in Hk.
    rewrite decide_False by lia. ring.
  - rewrite IH by lia. ring.
Qed.

Lemma sum_n_delta_l (n i : nat) (f : nat → Qc) :
  (i < n)%nat → sum_n n (λ k, (if decide (i = k) then 1 else 0) * f k) = f i.
Proof. intros Hi. unfold sum_n. apply qsum_delta. lia. Qed.

Lemma sum_n_delta_r (n i : nat) (f : nat → Qc) :
  (i < n)%nat → sum_n n (λ k, f k * (if decide (k = i) then 1 else 0)) = f i.
Proof.
  intros Hi. rewrite <- (sum_n_delta_l n i f Hi). apply sum_n_ext. intros k _.
  destruct (decide (k = i)), (decide (i = k)); try congruence; ring.
Qed.

Lemma indices_one_axis (d : nat) : indices [d] = (λ k, [k]) <$> seq 0 d.
Proof.
  cbn [indices]. generalize (seq 0 d). intros l.
  induction l as [| k l IH]; [done |]. cbn. by f_equal.
Qed.

Lemma sum_over_one_axis (d : nat) (f : list nat → Qc) :
  sum_over [d] f = sum_n d (λ k, f [k]).
Proof.
  unfold sum_over, sum_n. rewrite indices_one_axis. by rewrite <- list_fmap_compose.
Qed.

(** ** Determinants *)

Lemma det_ext (n : nat) (m m' : nat → nat → Qc) :
  (∀ i j, (i < n)%nat → (j < n)%nat → m i j = m' i j) → det n m = det n m'.
Proof.
  revert m m'. induction n as [| n IH]; intros m m' H; [done |].
  cbn [det]. apply sum_n_ext. intros j Hj.
  rewrite (H 0%nat j) by lia. f_equal.
  apply IH. intros i k Hi Hk. apply H; [lia |]. case_decide; lia.
Qed.

(** ** Row-major positions *)

Lemma ravel_lt (sh idx : list nat) :
  valid_index sh idx → (ravel sh idx < size_of sh)%nat.
Proof.
  intros Hv. induction Hv as [| i n idx sh Hi Hv IH]; [cbn; lia |].
  cbn [ravel size_of foldr]. change (foldr Nat.mul 1%nat sh) with (size_of sh).
  nia.
Qed.

Lemma unravel_ravel (sh idx : list nat) :
  valid_index sh idx → unravel sh (ravel sh idx) = idx.
Proof.
  intros Hv. induction Hv as [| i n idx sh Hi Hv IH]; [done |].
  cbn [ravel unravel]. pose proof (ravel_lt sh idx Hv) as Hlt.
  f_equal.
  - rewrite Nat.div_add_l by lia. rewrite Nat.div_small by lia. lia.
  - rewrite Nat.add_comm, Nat.Div0.mod_add. by rewrite Nat.mod_small.
Qed.

(** ** Evaluating a map over the batch *)

Lemma mapM_eval {A B} (f : A → res B) (g : A → B) (l : list A) :
  (∀ a, a ∈ l → f a = Ok (g a)) → mapM f l = Ok (g <$> l).
Proof.
  induction l as [| a l IH]; intros H; [done |].
  cbn [mapM]. rewrite H by (by left). cbn [mbind res_bind].
  rewrite IH; [done |]. intros a' Ha'. apply H. by right.
Qed.

Lemma batch_map_eval (f : nat → ndarray → res ndarray) (g : nat → ndarray)
    (a : ndarray) (n : nat) (sh : list nat) :
  shape a = n :: sh →
  (∀ b, (b < n)%nat ∨ b = 0%nat → f b (slice0 a b) = Ok (g b)) →
  batch_map f a = Ok (stack_rows n (shape (g 0%nat)) (g <$> seq 0 n)).
Proof.
  intros Hs Hf. unfold batch_map. rewrite Hs, Hf by (by right). cbn [mbind res_bind].
  rewrite (mapM_eval _ g); [done |]. intros b Hb. apply Hf. left.
  apply elem_of_seq in Hb. lia.
Qed.

Lemma stack_rows_item (g : nat → ndarray) (n : nat) (sh idx : list nat) (b : nat) :
  (b < n)%nat → item (stack_rows n sh (g <$> seq 0 n)) (b :: idx) = item (g b) idx.
Proof.
  intros Hb. cbn [item stack_rows]. rewrite list_lookup_fmap, lookup_seq_lt by done.
  done.
Qed.

(** The form the evaluation of a batched operation takes in the proofs
    below: the result exists, has the shape [n :: sh'] and holds at
    [b :: idx] what the operation returns for sample [b]. *)
Lemma batch_map_spec (f : nat → ndarray → res ndarray) (g : nat → ndarray)
    (a : ndarray) (n : nat) (sh sh' : list nat) :
  shape a = n :: sh →
  (∀ b, (b < n)%nat ∨ b = 0%nat → f b (slice0 a b) = Ok (g b)) →
  shape (g 0%nat) = sh' →
  ∃ r, batch_map f a = Ok r
       ∧ shape r = n :: sh'
       ∧ ∀ b idx, (b < n)%nat → item r (b :: idx) = item (g b) idx.
Proof.
  intros Hs Hf Hg. rewrite (batch_map_eval f g a n sh Hs Hf).
  eexists. split; [reflexivity |]. split; [by rewrite Hg |].
  intros b idx Hb. by apply stack_rows_item.
Qed.

Lemma unwrap_Ok (r : res ndarray) (a : ndarray) : r = Ok a → unwrap r = a.
Proof. by intros ->. Qed.

(** The per-sample results are only known to exist; [Q b idx v] says what
    entry [idx] of the result for sample [b] is. *)
Lemma batch_map_exists (f : nat → ndarray → res ndarray) (a : ndarray) (n : nat)
    (sh sh' : list nat) (Q : nat → list nat → Qc → Prop) :
  shape a = n :: sh →
  (∀ b, (b < n)%nat ∨ b = 0%nat →
     ∃ r, f b (slice0 a b) = Ok r ∧ shape r = sh' ∧ ∀ idx, Q b idx (item r idx)) →
  ∃ R, batch_map f a = Ok R
       ∧ shape R = n :: sh'
       ∧ ∀ b idx, (b < n)%nat → Q b idx (item R (b :: idx)).
Proof.
  intros Hs Hf.
  destruct (batch_map_spec f (λ b, unwrap (f b (slice0 a b))) a n sh sh' Hs)
    as (R & HR & HsR & HiR).
  - intros b Hb. destruct (Hf b Hb) as (r & Hr & _). by rewrite Hr.
  - destruct (Hf 0%nat (or_intror eq_refl)) as (r & Hr & Hsr & _). rewrite Hr. exact Hsr.
  - exists R. split; [done |]. split; [done |].
    intros b idx Hb. rewrite HiR by done.
    destruct (Hf b (or_introl Hb)) as (r & Hr & _ & HQ). rewrite Hr. apply HQ.
Qed.

(** ** Times *)

Lemma sample_time_column (tt : ndarray) (B b : nat) :
  shape tt = [B; 1%nat] → (b < B)%nat → sample_time tt b = item tt [b; 0%nat].
Proof.
  intros Ht Hb. unfold sample_time, first_item, ndim. rewrite Ht.
  cbn [shape slice0]. rewrite Ht. cbn [tail length replicate item].
  case_decide; [| done]. by replace b with 0%nat by lia.
Qed.

Lemma first_item_row (tt : ndarray) (B b : nat) :
  shape tt = [B; 1%nat] → first_item (slice0 tt b) = item tt [b; 0%nat].
Proof. intros Ht. unfold first_item, ndim. cbn [shape slice0]. by rewrite Ht. Qed.

(** ** The estimate of a flat sample under the identity map *)

Lemma resolve_shape_flatten (d : nat) : resolve_shape (size_of [d]) [(-1)%Z] = Ok [d].
Proof.
  unfold resolve_shape. cbn [filter list_filter]. rewrite decide_False by lia.
  cbn [length Nat.sub fmap list_fmap size_of foldr].
  rewrite bool_decide_true by constructor.
  rewrite bool_decide_true by (split; [lia | apply Nat.mod_1_r]).
  rewrite decide_True by done. by rewrite Nat.mul_1_r, Nat.div_1_r.
Qed.


Lemma sample_mean_reshaped_flat sde sh tb (xb : ndarray) (d : nat) :
  shape xb = [d] → flat_request sh →
  ∃ x0 J, sample_mean_reshaped sde sh tb xb = Ok (x0, J)
          ∧ shape x0 = [d] ∧ shape J = [d; d]
          ∧ (∀ j, item x0 [j] = sde_mean sde xb tb [j])
          ∧ (∀ o i, item J [o; i] = sde_mean_jac sde xb tb [o; i]).
Proof.
  intros Hx [-> | ->]; unfold sample_mean_reshaped.
  - eexists _, _. split; [reflexivity |]. cbn [shape sample_mean item]. rewrite Hx.
    repeat split.
  - unfold reshape. cbn [shape sample_mean]. rewrite Hx, resolve_shape_flatten.
    cbn [mbind res_bind]. eexists _, _. split; [reflexivity |].
    cbn [shape item]. split; [done |]. split; [done |]. split.
    + intros j. cbn [ravel unravel size_of foldr]. f_equal. f_equal.
      rewrite Nat.mul_1_r, Nat.add_0_r. apply Nat.div_1_r.
    + intros o i. cbn [ndim shape length take drop ravel unravel size_of foldr app].
      f_equal. f_equal. rewrite Nat.mul_1_r, Nat.add_0_r. apply Nat.div_1_r.
Qed.

Lemma sample_estimate_flat sde sh tb (xb : ndarray) (d : nat) :
  shape xb = [d] → flat_request sh →
  ∃ r, sample_estimate sde identity_map sh tb xb = Ok r
       ∧ shape r = [d]
       ∧ ∀ idx, (∀ j, idx = [j] → item r idx = sde_mean sde xb tb [j]).
Proof.
  intros Hx Hsh. unfold sample_estimate.
  destruct (sample_mean_reshaped_flat sde sh tb xb d Hx Hsh)
    as (x0 & J & -> & Hs0 & _ & Hi0 & _).
  cbn [mbind res_bind identity_map df_apply]. exists x0. split; [done |]. split; [done |].
  intros idx j ->. apply Hi0.
Qed.

Lemma sample_estimate_jac_flat sde sh tb (xb : ndarray) (d : nat) :
  shape xb = [d] → flat_request sh →
  ∃ r, sample_estimate_jac sde identity_map sh tb xb = Ok r
       ∧ shape r = [d; d]
       ∧ ∀ idx, (∀ o i, idx = [o; i] → (o < d)%nat →
                   item r idx = sde_mean_jac sde xb tb [o; i]).
Proof.
  intros Hx Hsh. unfold sample_estimate_jac.
  destruct (sample_mean_reshaped_flat sde sh tb xb d Hx Hsh)
    as (x0 & J & -> & Hs0 & HsJ & _ & HiJ).
  cbn [mbind res_bind identity_map df_apply df_jac]. eexists. split; [reflexivity |].
  cbn [shape item]. rewrite Hs0, Hx. split; [done |].
  intros idx o i -> Ho. unfold ndim. rewrite Hs0. cbn [length take drop app].
  rewrite sum_over_one_axis. cbn [app take drop length].
  rewrite (sum_n_ext d _ (λ k, (if decide (o = k) then 1 else 0) * item J [k; i])).
  - rewrite sum_n_delta_l by done. apply HiJ.
  - intros k _. destruct (decide (o = k)) as [-> | Hne].
    + by rewrite decide_True.
    + rewrite decide_False; [done |]. by intros [= ->].
Qed.

(** ** The batched estimate of flat samples under the identity map *)


Lemma sample_shape_flat (sh : option (list Z)) (B : nat) :
  batch_request sh B → ∃ sh', sample_shape sh B = Ok sh' ∧ flat_request sh'.
Proof.
  intros [-> | ->]; cbn [sample_shape].
  - exists None. split; [done | by left].
  - rewrite decide_True by done. exists (Some [(-1)%Z]). split; [done | by right].
Qed.

Section Flat.
Context (sde : SDE) (sh : option (list Z)) (x tt : ndarray) (B d : nat).
Hypothesis Hx : shape x = [B; d].
Hypothesis Ht : shape tt = [B; 1%nat].
Hypothesis HB : B ≠ 0%nat.
Hypothesis Hsh : batch_request sh B.

Lemma batch_index_ok (b : nat) : (b < B)%nat ∨ b = 0%nat → (b < B)%nat.
Proof. intros [? | ->]; [done | lia]. Qed.

Lemma slice0_flat (b : nat) : shape (slice0 x b) = [d].
Proof. cbn [shape slice0]. by rewrite Hx. Qed.

Lemma estimate_x_0_flat :
  ∃ hx s aux, estimate_x_0 sde identity_map sh x tt = Ok (hx, (s, aux))
    ∧ shape hx = [B; d] ∧ shape s = [B; d]
    ∧ (∀ b j, (b < B)%nat →
         item hx [b; j] = sde_mean sde (slice0 x b) (item tt [b; 0%nat]) [j])
    ∧ (∀ b j, (b < B)%nat →
         item s [b; j] = sde_score sde (slice0 x b) (item tt [b; 0%nat]) [j]).
Proof.
  unfold estimate_x_0. rewrite Hx. cbn [hd].
  destruct (sample_shape_flat sh B Hsh) as (sh' & -> & Hsh').
  cbn [mbind res_bind].
  destruct (batch_map_exists (λ b, sample_estimate sde identity_map sh' (sample_time tt b))
              x B [d] [d]
              (λ b idx v, ∀ j, idx = [j] →
                 v = sde_mean sde (slice0 x b) (item tt [b; 0%nat]) [j]) Hx)
    as (hx & -> & Hshx & Hihx).
  { intros b Hb%batch_index_ok. rewrite (sample_time_column tt B b Ht Hb).
    apply sample_estimate_flat; [apply slice0_flat | done]. }
  cbn [mbind res_bind].
  destruct (batch_map_spec (λ b xb, Ok (sample_score sde (sample_time tt b) xb))
              (λ b, sample_score sde (sample_time tt b) (slice0 x b)) x B [d] [d] Hx)
    as (s & -> & Hss & His); [done | apply slice0_flat |].
  cbn [mbind res_bind].
  destruct (batch_map_spec (λ b xb, Ok (sample_mean sde (sample_time tt b) xb))
              (λ b, sample_mean sde (sample_time tt b) (slice0 x b)) x B [d] [d] Hx)
    as (aux & -> & _ & _); [done | apply slice0_flat |].
  cbn [mbind res_bind].
  exists hx, s, aux. split; [done |]. split; [done |]. split; [done |]. split.
  - intros b j Hb. by apply Hihx.
  - intros b j Hb. rewrite His by done. cbn [item sample_score].
    by rewrite (sample_time_column tt B b Ht Hb).
Qed.

Lemma jax_vjp_flat :
  ∃ hx vjp_fun s aux,
    jax_vjp sde identity_map sh x tt = Ok (hx, vjp_fun, (s, aux))
    ∧ shape hx = [B; d] ∧ shape s = [B; d]
    ∧ (∀ b j, (b < B)%nat →
         item hx [b; j] = sde_mean sde (slice0 x b) (item tt [b; 0%nat]) [j])
    ∧ (∀ b j, (b < B)%nat →
         item s [b; j] = sde_score sde (slice0 x b) (item tt [b; 0%nat]) [j])
    ∧ ∀ ct, shape ct = [B; d] →
        ∃ r, vjp_fun ct = Ok r
             ∧ shape r = [B; d]
             ∧ ∀ b i, (b < B)%nat →
                 item r [b; i]
                 = sum_n d (λ o, item ct [b; o]
                                 * sde_mean_jac sde (slice0 x b) (item tt [b; 0%nat]) [o; i]).
Proof.
  unfold jax_vjp.
  destruct estimate_x_0_flat as (hx & s & aux & -> & Hshx & Hss & Hihx & His).
  cbn [mbind res_bind]. rewrite Hx. cbn [hd].
  destruct (sample_shape_flat sh B Hsh) as (sh' & -> & Hsh').
  cbn [mbind res_bind].
  destruct (batch_map_exists
              (λ b, sample_estimate_jac sde identity_map sh' (sample_time tt b))
              x B [d] [d; d]
              (λ b idx v, ∀ o i, idx = [o; i] → (o < d)%nat →
                 v = sde_mean_jac sde (slice0 x b) (item tt [b; 0%nat]) [o; i]) Hx)
    as (jac & -> & Hsjac & Hijac).
  { intros b Hb%batch_index_ok. rewrite (sample_time_column tt B b Ht Hb).
    apply sample_estimate_jac_flat; [apply slice0_flat | done]. }
  cbn [mbind res_bind].
  eexists hx, _, s, aux. split; [reflexivity |].
  split; [done |]. split; [done |]. split; [done |]. split; [done |].
  intros ct Hct. rewrite Hshx, decide_True by done.
  eexists. split; [reflexivity |]. cbn [shape item]. split; [done |].
  intros b i Hb. cbn [tail hd]. rewrite sum_over_one_axis.
  apply sum_n_ext. intros o Ho. cbn [app]. f_equal. by apply Hijac.
Qed.
End Flat.

(** ** Evaluating the array operations on arrays of known shape *)

Lemma reshape_same (a : ndarray) (sh : list nat) :
  shape a = sh →
  ∃ r, reshape a (shape_Z sh) = Ok r
       ∧ shape r = sh
       ∧ ∀ idx, valid_index sh idx → item r idx = item a idx.
Proof.
  intros Ha. unfold reshape. rewrite Ha, resolve_shape_exact_ok. cbn [mbind res_bind].
  eexists. split; [reflexivity |]. split; [done |].
  intros idx Hv. cbn [item]. by rewrite unravel_ravel.
Qed.

Lemma transpose_120 (a : ndarray) (p q r : nat) :
  shape a = [p; q; r] →
  ∃ a', transpose a [1; 2; 0]%nat = Ok a'
        ∧ shape a' = [q; r; p]
        ∧ ∀ i j k, item a' [i; j; k] = item a [k; i; j].
Proof.
  intros Ha. unfold transpose, ndim. rewrite Ha. cbn.
  eexists. split; [reflexivity |]. split; done.
Qed.

Lemma transpose_021 (a : ndarray) (p q r : nat) :
  shape a = [p; q; r] →
  ∃ a', transpose a [0; 2; 1]%nat = Ok a'
        ∧ shape a' = [p; r; q]
        ∧ ∀ i j k, item a' [i; j; k] = item a [i; k; j].
Proof.
  intros Ha. unfold transpose, ndim. rewrite Ha. cbn.
  eexists. split; [reflexivity |]. split; done.
Qed.

Lemma matmul_matrix (a b : ndarray) (n k m : nat) :
  shape a = [n; k] → shape b = [k; m] →
  ∃ r, matmul a b = Ok r
       ∧ shape r = [n; m]
       ∧ ∀ i j, item r [i; j] = sum_n k (λ l, item a [i; l] * item b [l; j]).
Proof.
  intros Ha Hb. unfold matmul. rewrite Hb, Ha, decide_True by done.
  eexists. split; [reflexivity |]. split; done.
Qed.

Lemma matmul_vector (a b : ndarray) (n k : nat) :
  shape a = [n; k] → shape b = [k] →
  ∃ r, matmul a b = Ok r
       ∧ shape r = [n]
       ∧ ∀ i, item r [i] = sum_n k (λ l, item a [i; l] * item b [l]).
Proof.
  intros Ha Hb. unfold matmul. rewrite Hb, Ha. cbn [reverse rev_append].
  change (reverse [n; k]) with [k; n]. rewrite decide_True by done.
  eexists. split; [reflexivity |]. split; done.
Qed.

(** [batch_matmul_A(A, X)] on a batch of matrices and on a batch of
    vectors, [batch_matmul(X, v)] on a batch of matrices and of vectors. *)
Lemma batch_matmul_A_matrices (A X : ndarray) (B n k m : nat) :
  shape A = [n; k] → shape X = [B; k; m] →
  ∃ r, batch_matmul_A A X = Ok r
       ∧ shape r = [B; n; m]
       ∧ ∀ b i j, (b < B)%nat →
           item r [b; i; j] = sum_n k (λ l, item A [i; l] * item X [b; l; j]).
Proof.
  intros HA HX. unfold batch_matmul_A, vmap.
  destruct (batch_map_exists (λ _, matmul A) X B [k; m] [n; m]
              (λ b idx v, ∀ i j, idx = [i; j] →
                 v = sum_n k (λ l, item A [i; l] * item X [b; l; j])) HX)
    as (r & -> & Hs & Hi).
  { intros b _.
    destruct (matmul_matrix A (slice0 X b) n k m HA) as (r & -> & Hs & Hi);
      [by cbn [shape slice0]; rewrite HX |].
    exists r. split; [done |]. split; [done |]. intros idx i j ->. apply Hi. }
  exists r. split; [done |]. split; [done |]. intros b i j Hb. by apply Hi.
Qed.

Lemma batch_matmul_A_vectors (A X : ndarray) (B n k : nat) :
  shape A = [n; k] → shape X = [B; k] →
  ∃ r, batch_matmul_A A X = Ok r
       ∧ shape r = [B; n]
       ∧ ∀ b i, (b < B)%nat →
           item r [b; i] = sum_n k (λ l, item A [i; l] * item X [b; l]).
Proof.
  intros HA HX. unfold batch_matmul_A, vmap.
  destruct (batch_map_exists (λ _, matmul A) X B [k] [n]
              (λ b idx v, ∀ i, idx = [i] →
                 v = sum_n k (λ l, item A [i; l] * item X [b; l])) HX)
    as (r & -> & Hs & Hi).
  { intros b _.
    destruct (matmul_vector A (slice0 X b) n k HA) as (r & -> & Hs & Hi);
      [by cbn [shape slice0]; rewrite HX |].
    exists r. split; [done |]. split; [done |]. intros idx i ->. apply Hi. }
  exists r. split; [done |]. split; [done |]. intros b i Hb. by apply Hi.
Qed.

Lemma batch_matmul_vectors (X v : ndarray) (B n k : nat) :
  shape X = [B; n; k] → shape v = [B; k] →
  ∃ r, batch_matmul X v = Ok r
       ∧ shape r = [B; n]
       ∧ ∀ b i, (b < B)%nat →
           item r [b; i] = sum_n k (λ l, item X [b; i; l] * item v [b; l]).
Proof.
  intros HX Hv. unfold batch_matmul, vmap2. rewrite Hv, HX. cbn [hd_error].
  rewrite decide_True by done.
  destruct (batch_map_exists (λ i Xi, matmul Xi (slice0 v i)) X B [n; k] [n]
              (λ b idx w, ∀ i, idx = [i] →
                 w = sum_n k (λ l, item X [b; i; l] * item v [b; l])) HX)
    as (r & -> & Hs & Hi).
  { intros b _.
    destruct (matmul_vector (slice0 X b) (slice0 v b) n k) as (r & -> & Hs & Hi);
      [by cbn [shape slice0]; rewrite HX | by cbn [shape slice0]; rewrite Hv |].
    exists r. split; [done |]. split; [done |]. intros idx i ->. apply Hi. }
  exists r. split; [done |]. split; [done |]. intros b i Hb. by apply Hi.
Qed.

(** Products with the identity matrix. *)
Lemma eye_item (d i j : nat) : item (eye d) [i; j] = if decide (i = j) then 1 else 0.
Proof. done. Qed.

Lemma sum_eye_l (d i : nat) (f : nat → Qc) :
  (i < d)%nat → sum_n d (λ l, item (eye d) [i; l] * f l) = f i.
Proof. intros Hi. exact (sum_n_delta_l d i f Hi). Qed.

(** ** The covariance of the full-matrix methods *)

Lemma broadcast_shapes_batch (B d : nat) :
  broadcast_shapes [B; d; d] [d; d] = Ok [B; d; d].
Proof.
  unfold broadcast_shapes. change (reverse [B; d; d]) with [d; d; B].
  change (reverse [d; d]) with [d; d]. cbn [broadcast_rev mbind res_bind].
  repeat (rewrite decide_True by done; cbn [mbind res_bind]). done.
Qed.

Lemma bc_index_batch (d b i j : nat) :
  (i < d)%nat → (j < d)%nat → bc_index [d; d] [b; i; j] = [i; j].
Proof.
  intros Hi Hj. unfold bc_index. cbn [length Nat.sub drop].
  change (zip_with ?f [d; d] [i; j]) with (bc_index [d; d] [i; j]).
  apply bc_index_valid. repeat constructor; done.
Qed.

Lemma full_covariance_flat sde (noise_std : Qc) (y tt M : ndarray) (B d : nat) :
  shape y = [B; d] → shape tt = [B; 1%nat] → B ≠ 0%nat → shape M = [B; d; d] →
  ∃ C, full_covariance sde noise_std y tt (Ok M) = Ok C
       ∧ shape C = [B; d; d]
       ∧ ∀ b i j, (b < B)%nat → (i < d)%nat → (j < d)%nat →
           item C [b; i; j]
           = sde_ratio sde (item tt [0; 0]%nat) * item M [b; i; j]
             + noise_std ^ 2 * (if decide (i = j) then 1 else 0).
Proof.
  intros Hy Ht HB HM. unfold full_covariance, mul, add.
  rewrite (getitem0_batch tt B [1%nat] Ht HB). cbn [mbind res_bind].
  rewrite (map2_bc_eval _ (ratio _ _) _ [B; d; d])
    by (cbn [shape ratio map_arr slice0]; rewrite Ht, HM; by apply broadcast_shapes_one_l).
  cbn [mbind res_bind]. unfold shape1. rewrite Hy. cbn [mbind res_bind].
  rewrite (map2_bc_eval _ (scalar _) (eye d) [d; d]) by apply broadcast_shapes_nil_l.
  cbn [mbind res_bind].
  rewrite (map2_bc_eval _ _ _ [B; d; d]) by apply broadcast_shapes_batch.
  eexists. split; [reflexivity |]. split; [done |].
  intros b i j Hb Hi Hj. cbn [item shape ratio map_arr slice0 scalar eye].
  rewrite Ht, HM. cbn [tail].
  rewrite (bc_index_valid [B; d; d] [b; i; j]) by (repeat constructor; done).
  rewrite bc_index_one by done. rewrite !bc_index_batch by done.
  rewrite (bc_index_valid [B; d; d] [b; i; j]) by (repeat constructor; done).
  rewrite (bc_index_valid [d; d] [i; j]) by (repeat constructor; done).
  done.
Qed.

(** ** The batched solve on regular covariances *)

Lemma linalg_solve_regular (A b : ndarray) (d : nat) :
  shape A = [d; d] → shape b = [d] → det d (entries2 A) ≠ 0 →
  ∃ r, linalg_solve A b = Ok r
       ∧ shape r = [d]
       ∧ ∀ i, item r [i]
              = det d (replace_col (entries2 A) i (λ k, item b [k])) / det d (entries2 A).
Proof.
  intros HA Hb Hdet. unfold linalg_solve. rewrite HA, Hb.
  rewrite bool_decide_true, decide_False by done.
  eexists. split; [reflexivity |]. split; done.
Qed.

Lemma batch_linalg_solve_regular (C v : ndarray) (B d : nat) :
  shape C = [B; d; d] → shape v = [B; d] → B ≠ 0%nat →
  (∀ b, (b < B)%nat → det d (entries2 (slice0 C b)) ≠ 0) →
  ∃ f, batch_linalg_solve C v = Ok f
       ∧ shape f = [B; d]
       ∧ ∀ b i, (b < B)%nat →
           item f [b; i]
           = det d (replace_col (entries2 (slice0 C b)) i (λ k, item v [b; k]))
             / det d (entries2 (slice0 C b)).
Proof.
  intros HC Hv HB Hreg. unfold batch_linalg_solve, vmap2. rewrite Hv, HC. cbn [hd_error].
  rewrite decide_True by done.
  destruct (batch_map_exists (λ i Ci, linalg_solve Ci (slice0 v i)) C B [d; d] [d]
              (λ b idx w, ∀ i, idx = [i] →
                 w = det d (replace_col (entries2 (slice0 C b)) i (λ k, item v [b; k]))
                     / det d (entries2 (slice0 C b))) HC)
    as (f & -> & Hs & Hi).
  { intros b Hb. assert (Hlt : (b < B)%nat) by (destruct Hb; [done | lia]).
    destruct (linalg_solve_regular (slice0 C b) (slice0 v b) d) as (r & -> & Hs & Hi);
      [by cbn [shape slice0]; rewrite HC | by cbn [shape slice0]; rewrite Hv | by apply Hreg |].
    exists r. split; [done |]. split; [done |]. intros idx i ->. apply Hi. }
  exists f. split; [done |]. split; [done |]. intros b i Hb. by apply Hi.
Qed.

Lemma singular_batch_spec (C v : ndarray) (B d : nat) :
  shape C = [B; d; d] → shape v = [B; d] →
  singular_batch C v = true ↔ ∃ b, (b < B)%nat ∧ det d (entries2 (slice0 C b)) = 0.
Proof.
  intros HC Hv. unfold singular_batch. rewrite HC, Hv.
  rewrite bool_decide_true by done. cbn [andb]. rewrite existsb_exists.
  split.
  - intros (b & Hb%in_seq & Hdet%bool_decide_eq_true). exists b. split; [lia | done].
  - intros (b & Hb & Hdet). exists b. split; [apply in_seq; lia | by apply bool_decide_eq_true].
Qed.

Lemma singular_batch_false (C v : ndarray) (B d : nat) :
  shape C = [B; d; d] → shape v = [B; d] → singular_batch C v = false →
  ∀ b, (b < B)%nat → det d (entries2 (slice0 C b)) ≠ 0.
Proof.
  intros HC Hv Hf b Hb Hdet.
  assert (singular_batch C v = true) by (apply (singular_batch_spec C v B d); eauto).
  congruence.
Qed.

(** Two batches of systems that agree entry by entry are solved alike:
    both are singular at some sample, or both have the same solution. *)
Lemma batch_linalg_solve_agree (C C' v v' : ndarray) (B d : nat) :
  shape C = [B; d; d] → shape C' = [B; d; d] → shape v = [B; d] → shape v' = [B; d] →
  B ≠ 0%nat →
  (∀ b i j, (b < B)%nat → (i < d)%nat → (j < d)%nat → item C [b; i; j] = item C' [b; i; j]) →
  (∀ b i, (b < B)%nat → (i < d)%nat → item v [b; i] = item v' [b; i]) →
  (batch_linalg_solve C v = Raise LinearAlgebraError
   ∧ batch_linalg_solve C' v' = Raise LinearAlgebraError)
  ∨ (∃ f f', batch_linalg_solve C v = Ok f ∧ batch_linalg_solve C' v' = Ok f'
             ∧ shape f = [B; d] ∧ shape f' = [B; d]
             ∧ ∀ b i, (b < B)%nat → (i < d)%nat → item f [b; i] = item f' [b; i]).
Proof.
  intros HC HC' Hv Hv' HB HCeq Hveq.
  assert (Hdet : ∀ b, (b < B)%nat →
            det d (entries2 (slice0 C b)) = det d (entries2 (slice0 C' b))).
  { intros b Hb. apply det_ext. intros i j Hi Hj. by apply HCeq. }
  destruct (singular_batch C v) eqn:Hsing.
  - left. split; [by apply batch_linalg_solve_singular |].
    apply batch_linalg_solve_singular.
    apply (singular_batch_spec C v B d HC Hv) in Hsing as (b & Hb & Hz).
    apply (singular_batch_spec C' v' B d HC' Hv'). exists b. split; [done |].
    by rewrite <- Hdet.
  - right. pose proof (singular_batch_false C v B d HC Hv Hsing) as Hreg.
    destruct (batch_linalg_solve_regular C v B d HC Hv HB Hreg) as (f & Hf & Hsf & Hif).
    destruct (batch_linalg_solve_regular C' v' B d HC' Hv' HB) as (f' & Hf' & Hsf' & Hif').
    { intros b Hb. rewrite <- Hdet by done. by apply Hreg. }
    exists f, f'. repeat (split; [done |]).
    intros b i Hb Hi. rewrite Hif, Hif' by done. rewrite <- Hdet by done. f_equal.
    apply det_ext. intros i' j' Hi' Hj'. unfold replace_col.
    case_decide; [by apply Hveq | by apply HCeq].
Qed.

(** ** The stacked observation matrix, entry by entry *)

Lemma tiled_H_item (H : ndarray) (B dy dx i b j : nat) :
  shape H = [dy; dx] → (i < dy)%nat → (j < dx)%nat →
  item (tile H [B; 1; 1]%nat) [b; i; j] = item H [i; j].
Proof.
  intros HH Hi Hj. unfold tile, ndim, pad_left. rewrite HH.
  cbn. by rewrite !Nat.mod_small by done.
Qed.

Lemma VJP_batch_H_flat (self : VJP.t) (B dy dx : nat) (sig : list nat) :
  shape (VJP.H self) = [dy; dx] → VJP.shape self = B :: sig →
  ∃ bH, VJP.batch_H self = Ok bH
        ∧ shape bH = [dy; B; dx]
        ∧ ∀ i b j, (i < dy)%nat → (j < dx)%nat → item bH [i; b; j] = item (VJP.H self) [i; j].
Proof.
  intros HH Hs. unfold VJP.batch_H. rewrite Hs. cbn [shape0 mbind res_bind].
  unfold transpose, tile, ndim. cbn [shape]. rewrite HH. cbn.
  eexists. split; [reflexivity |]. cbn. split; [f_equal; [lia | f_equal; [lia | f_equal; lia]] |].
  intros i b j Hi Hj. by rewrite !Nat.mod_small by done.
Qed.

Lemma batch_linalg_solve_shape (C v f : ndarray) (B d : nat) :
  shape C = [B; d; d] → shape v = [B; d] → batch_linalg_solve C v = Ok f → shape f = [B; d].
Proof.
  intros HC Hv H. unfold batch_linalg_solve, vmap2 in H. rewrite Hv, HC in H.
  cbn [hd_error] in H. rewrite decide_True in H by done.
  apply batch_map_shape in H as (n & sh & r0 & HC' & Hr0 & ->).
  rewrite HC in HC'. injection HC' as <- <-.
  unfold linalg_solve in Hr0. cbn [shape slice0] in Hr0. rewrite HC, Hv in Hr0.
  cbn [tail] in Hr0. rewrite bool_decide_true in Hr0 by done.
  destruct (decide _); [done |]. by injection Hr0 as <-.
Qed.

(** ** The four methods follow the closed form *)

Section FlatMethods.
Context (sqrt : Qc → Qc) (sde : SDE) (noise_std : Qc) (x y tt : ndarray) (B d : nat).
Hypothesis Hx : shape x = [B; d].
Hypothesis Hy : shape y = [B; d].
Hypothesis Ht : shape tt = [B; 1%nat].
Hypothesis HB : B ≠ 0%nat.

(** The pullback mapped over the rows of the stacked identity gives the
    Jacobians of the samples, row by row. *)
Lemma stacked_pullback (vjp_fun : ndarray → res ndarray) (bH : ndarray) :
  (∀ ct, shape ct = [B; d] →
     ∃ r, vjp_fun ct = Ok r
          ∧ shape r = [B; d]
          ∧ ∀ b i, (b < B)%nat →
              item r [b; i] = sum_n d (λ o, item ct [b; o] * jac_at sde x tt b o i)) →
  shape bH = [d; B; d] →
  (∀ i b j, (i < d)%nat → (j < d)%nat → item bH [i; b; j] = item (eye d) [i; j]) →
  ∃ Hg, vmap vjp_fun bH = Ok Hg
        ∧ shape Hg = [d; B; d]
        ∧ ∀ i b j, (i < d)%nat → (b < B)%nat → item Hg [i; b; j] = jac_at sde x tt b i j.
Proof.
  intros Hvjp HsH HiH. unfold vmap.
  destruct (batch_map_exists (λ _, vjp_fun) bH d [B; d] [B; d]
              (λ i idx v, ∀ b j, idx = [b; j] → (i < d)%nat → (b < B)%nat →
                 v = jac_at sde x tt b i j) HsH)
    as (Hg & -> & Hs & Hi).
  { intros i _.
    destruct (Hvjp (slice0 bH i)) as (r & -> & Hsr & Hir);
      [by cbn [shape slice0]; rewrite HsH |].
    exists r. split; [done |]. split; [done |].
    intros idx b j -> Hi Hb. rewrite Hir by done.
    rewrite (sum_n_ext d _ (λ o, item (eye d) [i; o] * jac_at sde x tt b o j)).
    - exact (sum_eye_l d i (λ o, jac_at sde x tt b o j) Hi).
    - intros o Ho. cbn [item slice0]. by rewrite HiH. }
  exists Hg. split; [done |]. split; [done |].
  intros i b j Hi' Hb. by eapply Hi.
Qed.

Lemma VJP_system_flat (bH : ndarray) :
  shape bH = [d; B; d] →
  (∀ i b j, (i < d)%nat → (j < d)%nat → item bH [i; b; j] = item (eye d) [i; j]) →
  ∃ sys, VJP.system (VJP.Build sde (eye d) y noise_std [B; d]) B bH x tt = Ok sys
    ∧ shape (C_yy sys) = [B; d; d] ∧ shape (innovation sys) = [B; d]
    ∧ shape (back sys) = [d; B; d] ∧ shape (score sys) = [B; d]
    ∧ (∀ b i j, (b < B)%nat → (i < d)%nat → (j < d)%nat →
         item (C_yy sys) [b; i; j]
         = sde_ratio sde (item tt [0; 0]%nat) * jac_at sde x tt b j i
           + noise_std ^ 2 * (if decide (i = j) then 1 else 0))
    ∧ (∀ b i, (b < B)%nat → (i < d)%nat →
         item (innovation sys) [b; i] = item y [b; i] - mean_at sde x tt b i)
    ∧ (∀ i b j, (i < d)%nat → (b < B)%nat → (j < d)%nat →
         item (back sys) [i; b; j] = jac_at sde x tt b i j)
    ∧ (∀ b j, (b < B)%nat → item (score sys) [b; j] = score_at sde x tt b j).
Proof.
  intros HsH HiH. unfold VJP.system.
  cbn [VJP.sde VJP.H VJP.y VJP.noise_std VJP.shape].
  destruct (jax_vjp_flat sde (Some [Z.of_nat B; (-1)%Z]) x tt B d Hx Ht HB (or_intror eq_refl))
    as (hx & vjp_fun & s & aux & -> & Hshx & Hss & Hihx & His & Hvjp).
  cbn [mbind res_bind].
  destruct (stacked_pullback vjp_fun bH Hvjp HsH HiH) as (Hg & -> & HsHg & HiHg).
  cbn [mbind res_bind shape eye shape0 shape1].
  destruct (reshape_same Hg [d; B; d] HsHg) as (Hg' & -> & HsHg' & HiHg').
  cbn [mbind res_bind].
  destruct (transpose_120 Hg' d B d HsHg') as (HgT & -> & HsT & HiT).
  cbn [mbind res_bind].
  destruct (batch_matmul_A_matrices (eye d) HgT B d d d eq_refl HsT) as (M & -> & HsM & HiM).
  destruct (full_covariance_flat sde noise_std y tt M B d Hy Ht HB HsM) as (C & -> & HsC & HiC).
  cbn [mbind res_bind].
  destruct (batch_matmul_A_vectors (eye d) hx B d d eq_refl Hshx) as (Hx0 & -> & HsHx0 & HiHx0).
  cbn [mbind res_bind]. unfold sub.
  rewrite (map2_bc_eval _ y Hx0 [B; d]) by (rewrite Hy, HsHx0; apply broadcast_shapes_same).
  cbn [mbind res_bind].
  eexists. split; [reflexivity |]. cbn [C_yy innovation back score shape item].
  repeat (split; [done |]). split; [| split; [| split]].
  - intros b i j Hb Hi Hj. rewrite HiC, HiM by done. f_equal. f_equal.
    rewrite sum_eye_l by done. rewrite HiT.
    rewrite HiHg' by (repeat constructor; done). by apply HiHg.
  - intros b i Hb Hi. rewrite Hy, HsHx0.
    rewrite !bc_index_valid by (repeat constructor; done).
    rewrite HiHx0 by done. rewrite sum_eye_l by done. by rewrite Hihx.
  - intros i b j Hi Hb Hj. rewrite HiHg' by (repeat constructor; done). by apply HiHg.
  - intros b j Hb. by apply His.
Qed.

Lemma add_flat (s ls : ndarray) :
  shape s = [B; d] → shape ls = [B; d] →
  ∃ out, add s ls = Ok out
         ∧ shape out = [B; d]
         ∧ ∀ b j, (b < B)%nat → (j < d)%nat → item out [b; j] = item s [b; j] + item ls [b; j].
Proof.
  intros Hs Hls. unfold add.
  rewrite (map2_bc_eval _ s ls [B; d]) by (rewrite Hs, Hls; apply broadcast_shapes_same).
  eexists. split; [reflexivity |]. split; [done |].
  intros b j Hb Hj. cbn [item]. rewrite Hs, Hls.
  by rewrite !bc_index_valid by (repeat constructor; done).
Qed.

Lemma VJP_follows :
  follows_closed_form sde noise_std x y tt B d true
    (guidance_score sqrt (flat_VJP sde noise_std y B d) x tt).
Proof.
  unfold guidance_score, flat_VJP. cbn [get_guidance_score_func].
  unfold VJP.get_guidance_score_func. cbn [VJP.shape shape0 mbind res_bind].
  destruct (VJP_batch_H_flat (VJP.Build sde (eye d) y noise_std [B; d]) B d d [d]
              eq_refl eq_refl) as (bH & -> & HsH & HiH).
  cbn [mbind res_bind VJP.H] in *.
  destruct (VJP_system_flat bH HsH HiH)
    as (sys & Hsys & HsC & Hsi & Hsb & Hss & HiC & Hii & Hib & His).
  exists (C_yy sys), (innovation sys).
  split; [done |]. split; [done |]. split; [done |]. split; [done |].
  unfold VJP.guidance_score, VJP.likelihood_score. rewrite Hsys. cbn [mbind res_bind].
  split.
  - intros e ->. done.
  - intros f Hf. rewrite Hf. cbn [mbind res_bind].
    pose proof (batch_linalg_solve_shape _ _ f B d HsC Hsi Hf) as Hsf.
    destruct (transpose_120 (back sys) d B d Hsb) as (HgT & -> & HsT & HiT).
    cbn [mbind res_bind].
    destruct (batch_matmul_vectors HgT f B d d HsT Hsf) as (p & -> & Hsp & Hip).
    cbn [mbind res_bind]. rewrite Hss.
    destruct (reshape_same p [B; d] Hsp) as (ls & -> & Hsls & Hils).
    cbn [mbind res_bind].
    destruct (add_flat (score sys) ls Hss Hsls) as (out & -> & Hsout & Hiout).
    exists out. split; [done |]. split; [done |].
    intros b j Hb Hj. rewrite Hiout, His by done. f_equal.
    rewrite Hils by (repeat constructor; done). rewrite Hip by done.
    apply sum_n_ext. intros k Hk. rewrite HiT. by rewrite Hib.
Qed.

Lemma VJPAlt_batch_H_flat :
  ∃ bH, VJPAlt.batch_H (VJPAlt.Build sde (eye d) y noise_std [B; d]) = Ok bH
        ∧ shape bH = [d; B; d]
        ∧ ∀ i b j, (i < d)%nat → (j < d)%nat → item bH [i; b; j] = item (eye d) [i; j].
Proof.
  unfold VJPAlt.batch_H. cbn [VJPAlt.H VJPAlt.shape shape eye shape0 mbind res_bind tail length].
  destruct (reshape_same (eye d) [d; d] eq_refl) as (Hr & -> & HsHr & HiHr).
  cbn [mbind res_bind].
  unfold transpose, tile, ndim. cbn [shape]. rewrite HsHr. cbn.
  eexists. split; [reflexivity |]. cbn.
  split; [f_equal; [lia | f_equal; [lia | f_equal; lia]] |].
  intros i b j Hi Hj. rewrite !Nat.mod_small by done.
  rewrite HiHr by (repeat constructor; done). done.
Qed.

Lemma T_eye : ∃ HT, T (eye d) = Ok HT ∧ shape HT = [d; d]
                    ∧ ∀ i j, item HT [i; j] = item (eye d) [j; i].
Proof.
  unfold T, transpose, ndim. cbn. eexists. split; [reflexivity |]. split; done.
Qed.

Lemma resolve_shape_batch_flatten :
  resolve_shape (size_of [B; d]) [Z.of_nat B; (-1)%Z] = Ok [B; d].
Proof.
  unfold resolve_shape. cbn [filter list_filter].
  rewrite decide_True by lia. rewrite decide_False by lia.
  cbn [length Nat.sub fmap list_fmap size_of foldr].
  rewrite bool_decide_true by (repeat constructor; lia).
  rewrite !Nat2Z.id, !Nat.mul_1_r.
  rewrite bool_decide_true
    by (split; [lia | rewrite Nat.mul_comm; apply Nat.Div0.mod_mul]).
  rewrite decide_False by lia. rewrite decide_True by done.
  do 3 f_equal. rewrite Nat.mul_comm. by apply Nat.div_mul.
Qed.

Lemma reshape_batch_flatten (a : ndarray) :
  shape a = [B; d] →
  ∃ r, reshape a [Z.of_nat B; (-1)%Z] = Ok r
       ∧ shape r = [B; d]
       ∧ ∀ idx, valid_index [B; d] idx → item r idx = item a idx.
Proof.
  intros Ha. unfold reshape. rewrite Ha, resolve_shape_batch_flatten. cbn [mbind res_bind].
  eexists. split; [reflexivity |]. split; [done |].
  intros idx Hv. cbn [item]. by rewrite unravel_ravel.
Qed.

Lemma VJPAlt_follows :
  follows_closed_form sde noise_std x y tt B d true
    (guidance_score sqrt (flat_VJPAlt sde noise_std y B d) x tt).
Proof.
  unfold guidance_score, flat_VJPAlt. cbn [get_guidance_score_func].
  unfold VJPAlt.get_guidance_score_func.
  destruct VJPAlt_batch_H_flat as (bH & -> & HsH & HiH).
  cbn [mbind res_bind].
  unfold VJPAlt.guidance_score, VJPAlt.likelihood_score, VJPAlt.system.
  cbn [VJPAlt.sde VJPAlt.H VJPAlt.y VJPAlt.noise_std VJPAlt.shape].
  destruct (jax_vjp_flat sde None x tt B d Hx Ht HB (or_introl eq_refl))
    as (hx & vjp_fun & s & aux & -> & Hshx & Hss & Hihx & His & Hvjp).
  cbn [mbind res_bind].
  destruct (stacked_pullback vjp_fun bH Hvjp HsH HiH) as (Hg & -> & HsHg & HiHg).
  cbn [mbind res_bind shape eye shape0 shape1].
  destruct (reshape_same Hg [d; B; d] HsHg) as (Hg' & -> & HsHg' & HiHg').
  cbn [mbind res_bind].
  destruct (transpose_120 Hg' d B d HsHg') as (HgT & -> & HsT & HiT).
  cbn [mbind res_bind].
  destruct (batch_matmul_A_matrices (eye d) HgT B d d d eq_refl HsT) as (M & -> & HsM & HiM).
  destruct (full_covariance_flat sde noise_std y tt M B d Hy Ht HB HsM) as (C & -> & HsC & HiC).
  cbn [mbind res_bind].
  destruct (reshape_batch_flatten hx Hshx) as (xf & -> & Hsxf & Hixf).
  cbn [mbind res_bind].
  destruct (batch_matmul_A_vectors (eye d) xf B d d eq_refl Hsxf) as (Hx0 & -> & HsHx0 & HiHx0).
  cbn [mbind res_bind]. unfold sub.
  rewrite (map2_bc_eval _ y Hx0 [B; d]) by (rewrite Hy, HsHx0; apply broadcast_shapes_same).
  cbn [mbind res_bind].
  match goal with |- context [LinearSystem _ ?i _ _] => exists C, i end.
  cbn [mbind res_bind C_yy innovation score].
  split; [done |]. split; [reflexivity |]. split; [| split; [| split]].
  - intros b i j Hb Hi Hj. rewrite HiC, HiM by done. f_equal. f_equal.
    rewrite sum_eye_l by done. rewrite HiT.
    rewrite HiHg' by (repeat constructor; done). by apply HiHg.
  - intros b i Hb Hi. cbn [item]. rewrite Hy, HsHx0.
    rewrite !bc_index_valid by (repeat constructor; done).
    rewrite HiHx0 by done. rewrite sum_eye_l by done.
    rewrite Hixf by (repeat constructor; done). by rewrite Hihx.
  - intros e ->. done.
  - intros f Hf. rewrite Hf. cbn [mbind res_bind].
    assert (Hsf : shape f = [B; d]).
    { eapply (batch_linalg_solve_shape C _ f B d HsC); [| exact Hf]. done. }
    destruct T_eye as (HT & -> & HsHT & HiHT). cbn [mbind res_bind].
    destruct (batch_matmul_A_vectors HT f B d d HsHT Hsf) as (v & -> & Hsv & Hiv).
    cbn [mbind res_bind].
    destruct (reshape_same v [B; d] Hsv) as (ct & -> & Hsct & Hict).
    cbn [mbind res_bind].
    destruct (Hvjp ct Hsct) as (ls & -> & Hsls & Hils).
    cbn [mbind res_bind].
    destruct (add_flat s ls Hss Hsls) as (out & -> & Hsout & Hiout).
    exists out. split; [done |]. split; [done |].
    intros b j Hb Hj. rewrite Hiout, His by done. f_equal.
    rewrite Hils by done. apply sum_n_ext. intros k Hk.
    rewrite Hict by (repeat constructor; done). rewrite Hiv by done.
    rewrite (sum_n_ext d _ (λ l, item (eye d) [k; l] * item f [b; l])).
    + rewrite (sum_eye_l d k (λ l, item f [b; l]) Hk). unfold jac_at. ring.
    + intros l Hl. rewrite HiHT. rewrite !eye_item.
      destruct (decide (l = k)), (decide (k = l)); congruence.
Qed.

Lemma vmap_identity (a : ndarray) (n : nat) (sh : list nat) :
  shape a = n :: sh →
  ∃ r, vmap (df_apply identity_map) a = Ok r
       ∧ shape r = n :: sh
       ∧ ∀ i idx, (i < n)%nat → item r (i :: idx) = item a (i :: idx).
Proof.
  intros Ha. unfold vmap.
  destruct (batch_map_spec (λ _, df_apply identity_map) (slice0 a) a n sh sh Ha)
    as (r & -> & Hs & Hi); [done | by cbn [shape slice0]; rewrite Ha |].
  exists r. split; [done |]. split; [done |].
  intros i idx Hi'. by rewrite Hi.
Qed.

Lemma vmap_vmap_identity (a : ndarray) (n m : nat) (sh : list nat) :
  shape a = n :: m :: sh →
  ∃ r, vmap (vmap (df_apply identity_map)) a = Ok r
       ∧ shape r = n :: m :: sh
       ∧ ∀ b i idx, (b < n)%nat → (i < m)%nat →
           item r (b :: i :: idx) = item a (b :: i :: idx).
Proof.
  intros Ha. unfold vmap at 1.
  destruct (batch_map_exists (λ _, vmap (df_apply identity_map)) a n (m :: sh) (m :: sh)
              (λ b idx v, ∀ i idx', idx = i :: idx' → (i < m)%nat →
                 v = item a (b :: i :: idx')) Ha)
    as (r & -> & Hs & Hi).
  { intros b _.
    destruct (vmap_identity (slice0 a b) m sh) as (r & -> & Hs & Hi);
      [by cbn [shape slice0]; rewrite Ha |].
    exists r. split; [done |]. split; [done |].
    intros idx i idx' -> Hi'. by rewrite Hi. }
  exists r. split; [done |]. split; [done |].
  intros b i idx Hb Hi'. by eapply Hi.
Qed.

Lemma jacobian_vmap_flat :
  ∃ grad, vmap2 (λ xb tb, jacrev (estimate_vmap_fst sde identity_map tb) xb) x tt = Ok grad
          ∧ shape grad = [B; d; d]
          ∧ ∀ b o i, (b < B)%nat → (o < d)%nat → item grad [b; o; i] = jac_at sde x tt b o i.
Proof.
  unfold vmap2. rewrite Ht, Hx. cbn [hd_error]. rewrite decide_True by done.
  destruct (batch_map_exists
              (λ i xi, jacrev (estimate_vmap_fst sde identity_map (slice0 tt i)) xi)
              x B [d] [d; d]
              (λ b idx v, ∀ o i, idx = [o; i] → (o < d)%nat → v = jac_at sde x tt b o i) Hx)
    as (grad & -> & Hs & Hi).
  { intros b _. unfold jacrev, estimate_vmap_fst. cbn [tr_jac].
    rewrite (first_item_row tt B b Ht).
    apply sample_estimate_jac_flat; [by cbn [shape slice0]; rewrite Hx | by left]. }
  exists grad. split; [done |]. split; [done |].
  intros b o i Hb Ho. by eapply Hi.
Qed.

Lemma JacRev_follows :
  follows_closed_form sde noise_std x y tt B d false
    (guidance_score sqrt (flat_JacRev sde noise_std y B d) x tt).
Proof.
  unfold guidance_score, flat_JacRev. cbn [get_guidance_score_func].
  unfold JacRev.get_guidance_score_func. cbn [mbind res_bind].
  unfold JacRev.guidance_score, JacRev.likelihood_score, JacRev.system.
  cbn [JacRev.sde JacRev.observation_map JacRev.y JacRev.noise_std JacRev.shape].
  destruct (estimate_x_0_flat sde None x tt B d Hx Ht HB (or_introl eq_refl))
    as (hx & s & aux & -> & Hshx & Hss & Hihx & His).
  cbn [mbind res_bind].
  destruct jacobian_vmap_flat as (grad & -> & Hsg & Hig).
  cbn [mbind res_bind].
  destruct (vmap_vmap_identity grad B d [d] Hsg) as (M & -> & HsM & HiM).
  cbn [mbind res_bind].
  destruct (full_covariance_flat sde noise_std y tt M B d Hy Ht HB HsM) as (C & -> & HsC & HiC).
  cbn [mbind res_bind]. unfold sub.
  rewrite (map2_bc_eval _ y hx [B; d]) by (rewrite Hy, Hshx; apply broadcast_shapes_same).
  cbn [mbind res_bind].
  match goal with |- context [LinearSystem _ ?i _ _] => exists C, i end.
  cbn [mbind res_bind C_yy innovation back score].
  split; [done |]. split; [reflexivity |]. split; [| split; [| split]].
  - intros b i j Hb Hi Hj. rewrite HiC, HiM by done. by rewrite Hig.
  - intros b i Hb Hi. cbn [item]. rewrite Hy, Hshx.
    rewrite !bc_index_valid by (repeat constructor; done). by rewrite Hihx.
  - intros e ->. done.
  - intros f Hf. rewrite Hf. cbn [mbind res_bind].
    assert (Hsf : shape f = [B; d]).
    { eapply (batch_linalg_solve_shape C _ f B d HsC); [| exact Hf]. done. }
    unfold contract_jacobian. change (jacobian_axes [B; d]) with [0; 2; 1]%nat.
    destruct (transpose_021 grad B d d Hsg) as (gT & -> & HsT & HiT).
    cbn [mbind res_bind].
    destruct (batch_matmul_vectors gT f B d d HsT Hsf) as (p & -> & Hsp & Hip).
    cbn [mbind res_bind]. rewrite Hss.
    destruct (reshape_same p [B; d] Hsp) as (ls & -> & Hsls & Hils).
    cbn [mbind res_bind].
    destruct (add_flat s ls Hss Hsls) as (out & -> & Hsout & Hiout).
    exists out. split; [done |]. split; [done |].
    intros b j Hb Hj. rewrite Hiout, His by done. f_equal.
    rewrite Hils by (repeat constructor; done). rewrite Hip by done.
    apply sum_n_ext. intros k Hk. rewrite HiT. by rewrite Hig.
Qed.

Lemma JacFwd_follows :
  follows_closed_form sde noise_std x y tt B d false
    (guidance_score sqrt (flat_JacFwd sde noise_std y B d) x tt).
Proof. exact JacRev_follows. Qed.
End FlatMethods.

(** ** Agreement of the four full-matrix methods *)

Lemma valid_index_flat (B d : nat) (idx : list nat) :
  valid_index [B; d] idx → ∃ b j, idx = [b; j] ∧ (b < B)%nat ∧ (j < d)%nat.
Proof.
  intros Hv. inversion Hv as [| b B' idx' sh' Hb Hv']; subst.
  inversion Hv' as [| j d' idx'' sh'' Hj Hv'']; subst.
  inversion Hv''; subst. eauto.
Qed.

Lemma closed_forms_agree sde noise_std (x y tt : ndarray) (B d : nat)
    (tr tr' : bool) (g g' : res ndarray) :
  B ≠ 0%nat →
  follows_closed_form sde noise_std x y tt B d tr g →
  follows_closed_form sde noise_std x y tt B d tr' g' →
  tr = tr' ∨ symmetric_jacobian sde x tt B d →
  res_eq g g'.
Proof.
  intros HB (C & v & HsC & Hsv & HiC & Hiv & Hraise & Hok)
            (C' & v' & HsC' & Hsv' & HiC' & Hiv' & Hraise' & Hok') Hsym.
  destruct (batch_linalg_solve_agree C C' v v' B d HsC HsC' Hsv Hsv' HB)
    as [[He He'] | (f & f' & Hf & Hf' & Hsf & Hsf' & Hff)].
  - intros b i j Hb Hi Hj. rewrite HiC, HiC' by done. f_equal. f_equal.
    destruct Hsym as [<- | Hsym]; [done |].
    destruct tr, tr'; try done; by apply Hsym.
  - intros b i Hb Hi. by rewrite Hiv, Hiv'.
  - rewrite (Hraise _ He), (Hraise' _ He'). done.
  - destruct (Hok f Hf) as (out & -> & Hso & Hio).
    destruct (Hok' f' Hf') as (out' & -> & Hso' & Hio').
    split; [by rewrite Hso, Hso' |].
    intros idx Hv. rewrite Hso in Hv.
    apply valid_index_flat in Hv as (b & j & -> & Hb & Hj).
    rewrite Hio, Hio' by done. f_equal.
    apply sum_n_ext. intros k Hk. by rewrite Hff.
Qed.

(** C3, as the code has it: for flat samples, identity observation and
    [H = I], VJP agrees with VJPAlt and JacRev with JacFwd, on results and on
    errors; all four agree when the Jacobian of the posterior-mean estimate
    is symmetric at every sample. *)
Theorem full_covariance_methods_agree (sqrt : Qc → Qc) (sde : SDE) (noise_std : Qc)
    (x y tt : ndarray) (B d : nat) :
  shape x = [B; d] → shape y = [B; d] → shape tt = [B; 1%nat] → B ≠ 0%nat →
  res_eq (guidance_score sqrt (flat_VJP sde noise_std y B d) x tt)
         (guidance_score sqrt (flat_VJPAlt sde noise_std y B d) x tt)
  ∧ res_eq (guidance_score sqrt (flat_JacRev sde noise_std y B d) x tt)
           (guidance_score sqrt (flat_JacFwd sde noise_std y B d) x tt)
  ∧ (symmetric_jacobian sde x tt B d →
     res_eq (guidance_score sqrt (flat_VJP sde noise_std y B d) x tt)
            (guidance_score sqrt (flat_JacRev sde noise_std y B d) x tt)
     ∧ res_eq (guidance_score sqrt (flat_VJP sde noise_std y B d) x tt)
              (guidance_score sqrt (flat_JacFwd sde noise_std y B d) x tt)).
Proof.
  intros Hx Hy Ht HB.
  pose proof (VJP_follows sqrt sde noise_std x y tt B d Hx Hy Ht HB) as HVJP.
  pose proof (VJPAlt_follows sqrt sde noise_std x y tt B d Hx Hy Ht HB) as HVJPAlt.
  pose proof (JacRev_follows sqrt sde noise_std x y tt B d Hx Hy Ht HB) as HJacRev.
  pose proof (JacFwd_follows sqrt sde noise_std x y tt B d Hx Hy Ht HB) as HJacFwd.
  split; [| split].
  - eapply closed_forms_agree; [done | exact HVJP | exact HVJPAlt | by left].
  - eapply closed_forms_agree; [done | exact HJacRev | exact HJacFwd | by left].
  - intros Hsym. split.
    + eapply closed_forms_agree; [done | exact HVJP | exact HJacRev | by right].
    + eapply closed_forms_agree; [done | exact HVJP | exact HJacFwd | by right].
Qed.

Lemma stub_jacobian_symmetric (r r2' : Qc) (x tt : ndarray) (B d : nat) :
  symmetric_jacobian (stub_sde r r2') x tt B d.
Proof.
  intros b i j _ _ _. unfold jac_at. cbn [sde_mean_jac stub_sde].
  generalize (ndim (slice0 x b)). intros [| [| n]]; cbn [take drop];
    rewrite ?take_nil, ?drop_nil; repeat case_decide; try done; congruence.
Qed.

Lemma full_covariance_methods_agree_witness :
  res_eq (guidance_score id (flat_VJP (stub_sde 1 1) (Q2Qc 0.1) scenario_y 4 2)
            scenario_x scenario_t)
         (guidance_score id (flat_JacRev (stub_sde 1 1) (Q2Qc 0.1) scenario_y 4 2)
            scenario_x scenario_t).
Proof.
  assert (HB : 4%nat ≠ 0%nat) by discriminate.
  destruct (full_covariance_methods_agree id (stub_sde 1 1) (Q2Qc 0.1)
              scenario_x scenario_y scenario_t 4 2 eq_refl eq_refl eq_refl HB)
    as (_ & _ & Hsym).
  exact (proj1 (Hsym (stub_jacobian_symmetric 1 1 scenario_x scenario_t 4 2))).
Defined.

(** C3 as stated fails: on the handle whose posterior mean is the shear
    [(x_0 + x_1, x_1)], with one sample at the origin and measurement
    [(1, 0)], VJP returns [(1/2, 1/4)] and JacRev [(1/2, 1/2)]. *)
Lemma full_covariance_methods_agree_counterexample :
  item (unwrap (guidance_score id (flat_VJP shear_sde 1 (matrix [[1; 0]]) 1 2)
                  (matrix [[0; 0]]) (times [Q2Qc 0.5]))) [0; 1]%nat = Q2Qc (1 # 4)
  ∧ item (unwrap (guidance_score id (flat_JacRev shear_sde 1 (matrix [[1; 0]]) 1 2)
                    (matrix [[0; 0]]) (times [Q2Qc 0.5]))) [0; 1]%nat = Q2Qc (1 # 2)
  ∧ ¬ res_eq (guidance_score id (flat_VJP shear_sde 1 (matrix [[1; 0]]) 1 2)
                (matrix [[0; 0]]) (times [Q2Qc 0.5]))
             (guidance_score id (flat_JacRev shear_sde 1 (matrix [[1; 0]]) 1 2)
                (matrix [[0; 0]]) (times [Q2Qc 0.5])).
Proof.
  assert (S1 : shape (unwrap
                 (guidance_score id (flat_VJP shear_sde 1 (matrix [[1; 0]]) 1 2)
                    (matrix [[0; 0]]) (times [Q2Qc 0.5]))) = [1; 2]%nat)
    by (vm_compute; reflexivity).
  assert (F1 : item (unwrap
                 (guidance_score id (flat_VJP shear_sde 1 (matrix [[1; 0]]) 1 2)
                    (matrix [[0; 0]]) (times [Q2Qc 0.5]))) [0; 1]%nat = Q2Qc (1 # 4))
    by (apply Qc_is_canon; vm_compute; reflexivity).
  assert (F2 : item (unwrap
                 (guidance_score id (flat_JacRev shear_sde 1 (matrix [[1; 0]]) 1 2)
                    (matrix [[0; 0]]) (times [Q2Qc 0.5]))) [0; 1]%nat = Q2Qc (1 # 2))
    by (apply Qc_is_canon; vm_compute; reflexivity).
  split; [exact F1 |]. split; [exact F2 |].
  destruct (guidance_score id (flat_VJP _ _ _ _ _) _ _) as [a | e];
    [| discriminate S1].
  destruct (guidance_score id (flat_JacRev _ _ _ _ _) _ _) as [a' | e'];
    cbn [res_eq unwrap] in *; [| tauto].
  intros [_ Hi]. rewrite S1 in Hi.
  assert (Hv : valid_index [1; 2]%nat [0; 1]%nat) by (repeat constructor).
  specialize (Hi [0; 1]%nat Hv). rewrite Hi, F2 in F1.
  apply (f_equal this) in F1. vm_compute in F1. discriminate F1.
Qed.



(** ** The end-to-end scenario *)

Lemma det2 (m : nat → nat → Qc) :
  det 2 m = m 0%nat 0%nat * m 1%nat 1%nat - m 0%nat 1%nat * m 1%nat 0%nat.
Proof.
  cbn [det sum_n seq fmap list_fmap qsum foldr Qcpower].
  repeat (case_decide; try lia). ring.
Qed.

Lemma sum_n_2 (f : nat → Qc) : sum_n 2 f = f 0%nat + f 1%nat.
Proof. cbn [sum_n seq fmap list_fmap qsum foldr]. ring. Qed.

Ltac two_cases i := destruct i as [| [| i]]; [| | lia].

Lemma scalar_times_matrix (c : Qc) (a : ndarray) (n : nat) :
  shape a = [n; n] →
  ∃ r, mul (scalar c) a = Ok r
       ∧ shape r = [n; n]
       ∧ ∀ i j, (i < n)%nat → (j < n)%nat → item r [i; j] = c * item a [i; j].
Proof.
  intros Ha. unfold mul. rewrite (map2_bc_eval _ (scalar c) a [n; n]) by (by rewrite Ha).
  eexists. split; [reflexivity |]. split; [done |].
  intros i j Hi Hj. cbn [item scalar]. rewrite Ha.
  by rewrite bc_index_valid by (repeat constructor; done).
Qed.

Lemma sub_flat (B d : nat) (a b : ndarray) :
  shape a = [B; d] → shape b = [B; d] →
  ∃ r, sub a b = Ok r
       ∧ shape r = [B; d]
       ∧ ∀ i j, (i < B)%nat → (j < d)%nat → item r [i; j] = item a [i; j] - item b [i; j].
Proof.
  intros Ha Hb. unfold sub.
  rewrite (map2_bc_eval _ a b [B; d]) by (rewrite Ha, Hb; apply broadcast_shapes_same).
  eexists. split; [reflexivity |]. split; [done |].
  intros i j Hi Hj. cbn [item]. rewrite Ha, Hb.
  by rewrite !bc_index_valid by (repeat constructor; done).
Qed.

Lemma add_square (n : nat) (a b : ndarray) :
  shape a = [n; n] → shape b = [n; n] →
  ∃ r, add a b = Ok r
       ∧ shape r = [n; n]
       ∧ ∀ i j, (i < n)%nat → (j < n)%nat → item r [i; j] = item a [i; j] + item b [i; j].
Proof. apply add_flat. Qed.

(** The inverse of [c·I₂]. *)
Lemma linalg_inv_scaled_identity (S : ndarray) (c : Qc) :
  shape S = [2; 2]%nat → c ≠ 0 →
  (∀ i j, (i < 2)%nat → (j < 2)%nat → item S [i; j] = if decide (i = j) then c else 0) →
  ∃ S_inv, linalg_inv S = Ok S_inv
           ∧ shape S_inv = [2; 2]%nat
           ∧ ∀ i j, (i < 2)%nat → (j < 2)%nat →
               item S_inv [i; j] = if decide (i = j) then / c else 0.
Proof.
  intros HS Hc HiS. unfold linalg_inv. rewrite HS. rewrite decide_True by done.
  assert (Hdet : det 2 (entries2 S) = c * c).
  { rewrite det2. unfold entries2. rewrite !HiS by lia.
    rewrite !decide_True, !decide_False by lia. ring. }
  rewrite decide_False.
  2: { rewrite Hdet. intros [H | H]%Qcmult_integral; done. }
  eexists. split; [reflexivity |]. split; [done |].
  intros i j Hi Hj. cbn [item nth]. rewrite Hdet, det2. unfold replace_col, entries2.
  rewrite !HiS by lia.
  two_cases i; two_cases j;
    repeat (first [rewrite decide_True by lia | rewrite decide_False by lia]);
    field; done.
Qed.

(** The batched solve of systems with matrix [c·I₂]. *)
Lemma batch_linalg_solve_scaled_identity (C v : ndarray) (B : nat) (c : Qc) :
  shape C = [B; 2; 2]%nat → shape v = [B; 2]%nat → B ≠ 0%nat → c ≠ 0 →
  (∀ b i j, (b < B)%nat → (i < 2)%nat → (j < 2)%nat →
     item C [b; i; j] = if decide (i = j) then c else 0) →
  ∃ f, batch_linalg_solve C v = Ok f
       ∧ shape f = [B; 2]%nat
       ∧ ∀ b i, (b < B)%nat → (i < 2)%nat → item f [b; i] = item v [b; i] / c.
Proof.
  intros HC Hv HB Hc HiC.
  assert (Hdet : ∀ b, (b < B)%nat → det 2 (entries2 (slice0 C b)) = c * c).
  { intros b Hb. rewrite det2. unfold entries2. cbn [item slice0]. rewrite !HiC by lia.
    rewrite !decide_True, !decide_False by lia. ring. }
  destruct (batch_linalg_solve_regular C v B 2 HC Hv HB) as (f & Hf & Hsf & Hif).
  { intros b Hb. rewrite Hdet by done. intros [H | H]%Qcmult_integral; done. }
  exists f. split; [done |]. split; [done |].
  intros b i Hb Hi. rewrite Hif, Hdet, det2 by done. unfold replace_col, entries2.
  cbn [item slice0]. rewrite !HiC by lia.
  two_cases i;
    repeat (first [rewrite decide_True by lia | rewrite decide_False by lia]);
    field; done.
Qed.

Lemma stub_jac_at (r r2' : Qc) (x tt : ndarray) (B d b o i : nat) :
  shape x = [B; d] →
  jac_at (stub_sde r r2') x tt b o i = if decide (o = i) then 1 else 0.
Proof.
  intros Hx. unfold jac_at. cbn [sde_mean_jac stub_sde]. unfold ndim.
  cbn [shape slice0]. rewrite Hx. cbn [tail length take drop].
  destruct (decide (o = i)) as [-> | Hne]; [by rewrite decide_True |].
  rewrite decide_False; [done |]. by intros [= ->].
Qed.

(** What a guidance function that follows the closed form returns on the
    stub: the innovation divided by [ratio + noise_std²]. *)
Lemma stub_closed_form (r r2' noise_std : Qc) (x y tt : ndarray) (B : nat)
    (transposed : bool) (g : res ndarray) :
  shape x = [B; 2]%nat → shape y = [B; 2]%nat → B ≠ 0%nat → r + noise_std ^ 2 ≠ 0 →
  follows_closed_form (stub_sde r r2') noise_std x y tt B 2 transposed g →
  ∃ out, g = Ok out
         ∧ shape out = [B; 2]%nat
         ∧ ∀ b j, (b < B)%nat → (j < 2)%nat →
             item out [b; j] = (item y [b; j] - item x [b; j]) / (r + noise_std ^ 2).
Proof.
  intros Hx Hy HB Hreg (C & v & HsC & Hsv & HiC & Hiv & _ & Hok).
  destruct (batch_linalg_solve_scaled_identity C v B (r + noise_std ^ 2) HsC Hsv HB Hreg)
    as (f & Hf & Hsf & Hif).
  { intros b i j Hb Hi Hj. rewrite HiC by done. cbn [sde_ratio stub_sde].
    rewrite !(stub_jac_at r r2' x tt B 2) by done.
    destruct transposed; destruct (decide (i = j)) as [-> | Hne];
      repeat (first [rewrite decide_True by done | rewrite decide_False by done]); ring. }
  destruct (Hok f Hf) as (out & -> & Hso & Hio).
  exists out. split; [done |]. split; [done |].
  intros b j Hb Hj. rewrite Hio, sum_n_2 by done. unfold score_at.
  cbn [sde_score stub_sde]. rewrite !(stub_jac_at r r2' x tt B 2) by done.
  rewrite !Hif, !Hiv by lia. unfold mean_at. cbn [sde_mean stub_sde item slice0].
  two_cases j;
    repeat (first [rewrite decide_True by lia | rewrite decide_False by lia]);
    field; done.
Qed.

(** The closed form itself, for [H = I₂]. *)
Lemma kalman_correction_identity (c noise_var : Qc) (x y : ndarray) (B : nat) :
  shape x = [B; 2]%nat → shape y = [B; 2]%nat → c + noise_var ≠ 0 →
  ∃ out, kalman_correction (eye 2) c noise_var y x = Ok out
         ∧ shape out = [B; 2]%nat
         ∧ ∀ b j, (b < B)%nat → (j < 2)%nat →
             item out [b; j] = (item y [b; j] - item x [b; j]) / (c + noise_var).
Proof.
  intros Hx Hy Hreg. unfold kalman_correction.
  destruct (T_eye 2) as (HT & -> & HsHT & HiHT). cbn [mbind res_bind].
  destruct (matmul_matrix (eye 2) HT 2 2 2 eq_refl HsHT) as (HHT & -> & HsHHT & HiHHT).
  cbn [mbind res_bind shape eye shape0].
  destruct (scalar_times_matrix c HHT 2 HsHHT) as (scaled & -> & Hss & His).
  cbn [mbind res_bind].
  destruct (scalar_times_matrix noise_var (eye 2) 2 eq_refl) as (noise & -> & Hsn & Hin).
  cbn [mbind res_bind].
  destruct (add_square 2 scaled noise Hss Hsn) as (S & -> & HsS & HiS).
  cbn [mbind res_bind].
  destruct (linalg_inv_scaled_identity S (c + noise_var) HsS Hreg) as (S_inv & -> & Hsi & Hii).
  { intros i j Hi Hj. rewrite HiS, His, Hin, HiHHT, sum_n_2, !HiHT, !eye_item by done.
    two_cases i; two_cases j;
      repeat (first [rewrite decide_True by lia | rewrite decide_False by lia]); ring. }
  cbn [mbind res_bind].
  destruct (matmul_matrix HT S_inv 2 2 2 HsHT Hsi) as (gain & -> & Hsg & Hig).
  cbn [mbind res_bind].
  destruct (batch_matmul_A_vectors (eye 2) x B 2 2 eq_refl Hx) as (H_x & -> & Hsx & Hix).
  cbn [mbind res_bind].
  destruct (sub_flat B 2 y H_x Hy Hsx) as (innovation & -> & Hsv & Hiv).
  cbn [mbind res_bind].
  destruct (batch_matmul_A_vectors gain innovation B 2 2 Hsg Hsv) as (out & -> & Hso & Hio).
  exists out. split; [done |]. split; [done |].
  intros b j Hb Hj. rewrite Hio, sum_n_2, !Hig, !sum_n_2, !HiHT, !eye_item by done.
  rewrite !Hiv, !Hix, !sum_n_2, !eye_item by lia.
  two_cases j; rewrite !Hii by lia;
    repeat (first [rewrite decide_True by lia | rewrite decide_False by lia]);
    field; done.
Qed.

Lemma noise_var_scenario : Q2Qc 0.1 ^ 2 = Q2Qc 0.01.
Proof. apply Qc_is_canon. reflexivity. Qed.

(** C1, as the code has it: in the end-to-end scenario, on the stub whose
    estimate is [x] and whose score is zero, the guidance functions of VJP
    and JacRev both return the closed form with [H·Hᵗ] scaled by the ratio
    of the handle at the first time, [(y − x) / (ratio + 0.01)] entry by
    entry; this is the closed form of the specification when that ratio
    is one. *)
Theorem scenario_closed_form (sqrt : Qc → Qc) (r r2' : Qc) (x y tt : ndarray) :
  shape x = [4; 2]%nat → shape y = [4; 2]%nat → shape tt = [4; 1]%nat →
  r + Q2Qc 0.01 ≠ 0 →
  ∃ out,
    kalman_correction (eye 2) r (Q2Qc 0.01) y x = Ok out
    ∧ (∀ b j, (b < 4)%nat → (j < 2)%nat →
         item out [b; j] = (item y [b; j] - item x [b; j]) / (r + Q2Qc 0.01))
    ∧ res_eq (guidance_score sqrt (flat_VJP (stub_sde r r2') (Q2Qc 0.1) y 4 2) x tt) (Ok out)
    ∧ res_eq (guidance_score sqrt (flat_JacRev (stub_sde r r2') (Q2Qc 0.1) y 4 2) x tt)
             (Ok out).
Proof.
  intros Hx Hy Ht Hreg.
  assert (HB : 4%nat ≠ 0%nat) by discriminate.
  destruct (kalman_correction_identity r (Q2Qc 0.01) x y 4 Hx Hy Hreg)
    as (out & Hk & Hso & Hio).
  exists out. split; [done |]. split; [done |].
  assert (Hstub : ∀ transposed g,
            follows_closed_form (stub_sde r r2') (Q2Qc 0.1) x y tt 4 2 transposed g →
            res_eq g (Ok out)).
  { intros transposed g Hg.
    destruct (stub_closed_form r r2' (Q2Qc 0.1) x y tt 4 transposed g Hx Hy HB)
      as (out' & -> & Hso' & Hio'); [by rewrite noise_var_scenario | done |].
    split; [by rewrite Hso, Hso' |].
    intros idx Hv. rewrite Hso' in Hv.
    apply valid_index_flat in Hv as (b & j & -> & Hb & Hj).
    by rewrite Hio', Hio, noise_var_scenario. }
  split.
  - apply (Hstub true). by apply VJP_follows.
  - apply (Hstub false). by apply JacRev_follows.
Qed.

Lemma scenario_closed_form_witness :
  ∃ out,
    kalman_correction (eye 2) 1 (Q2Qc 0.01) scenario_y scenario_x = Ok out
    ∧ (∀ b j, (b < 4)%nat → (j < 2)%nat →
         item out [b; j]
         = (item scenario_y [b; j] - item scenario_x [b; j]) / (1 + Q2Qc 0.01))
    ∧ res_eq (guidance_score id (flat_VJP (stub_sde 1 1) (Q2Qc 0.1) scenario_y 4 2)
                scenario_x scenario_t) (Ok out)
    ∧ res_eq (guidance_score id (flat_JacRev (stub_sde 1 1) (Q2Qc 0.1) scenario_y 4 2)
                scenario_x scenario_t) (Ok out).
Proof.
  apply (scenario_closed_form id 1 1 scenario_x scenario_y scenario_t
           eq_refl eq_refl eq_refl).
  intros H. apply (f_equal this) in H. vm_compute in H. discriminate H.
Defined.

(** C1 as stated fails when the ratio of the handle is not one: with ratio
    2 the stub still has estimate [x] and score zero, the closed form of
    the specification has [300/101] at the first entry, and VJP and JacRev
    return [100/67]. *)
Lemma scenario_closed_form_counterexample :
  item (unwrap (guidance_score id (flat_VJP (stub_sde 2 1) (Q2Qc 0.1) scenario_y 4 2)
                  scenario_x scenario_t)) [0; 0]%nat = Q2Qc (100 # 67)
  ∧ item (unwrap (guidance_score id (flat_JacRev (stub_sde 2 1) (Q2Qc 0.1) scenario_y 4 2)
                    scenario_x scenario_t)) [0; 0]%nat = Q2Qc (100 # 67)
  ∧ item (unwrap (kalman_correction (eye 2) 1 (Q2Qc 0.01) scenario_y scenario_x))
         [0; 0]%nat = Q2Qc (300 # 101)
  ∧ ¬ res_eq (guidance_score id (flat_VJP (stub_sde 2 1) (Q2Qc 0.1) scenario_y 4 2)
                scenario_x scenario_t)
             (kalman_correction (eye 2) 1 (Q2Qc 0.01) scenario_y scenario_x).
Proof.
  assert (S1 : shape (unwrap
                 (guidance_score id (flat_VJP (stub_sde 2 1) (Q2Qc 0.1) scenario_y 4 2)
                    scenario_x scenario_t)) = [4; 2]%nat)
    by (vm_compute; reflexivity).
  assert (F1 : item (unwrap
                 (guidance_score id (flat_VJP (stub_sde 2 1) (Q2Qc 0.1) scenario_y 4 2)
                    scenario_x scenario_t)) [0; 0]%nat = Q2Qc (100 # 67))
    by (apply Qc_is_canon; vm_compute; reflexivity).
  assert (F2 : item (unwrap
                 (kalman_correction (eye 2) 1 (Q2Qc 0.01) scenario_y scenario_x))
                 [0; 0]%nat = Q2Qc (300 # 101))
    by (apply Qc_is_canon; vm_compute; reflexivity).
  split; [exact F1 |].
  split; [apply Qc_is_canon; vm_compute; reflexivity |].
  split; [exact F2 |].
  destruct (guidance_score id (flat_VJP _ _ _ _ _) _ _) as [a | e];
    [| discriminate S1].
  destruct (kalman_correction _ _ _ _ _) as [a' | e'];
    cbn [res_eq unwrap] in *; [| tauto].
  intros [_ Hi]. rewrite S1 in Hi.
  assert (Hv : valid_index [4; 2]%nat [0; 0]%nat) by (repeat constructor).
  specialize (Hi [0; 0]%nat Hv). rewrite Hi, F2 in F1.
  apply (f_equal this) in F1. vm_compute in F1. discriminate F1.
Qed.

(** ** Estimates through a linear observation map *)

Lemma identity_map_linear (d : nat) :
  linear_observation identity_map (λ o k, if decide (o = k) then 1 else 0) d d.
Proof.
  intros v Hv. exists v. split; [done |]. split; [done |]. split.
  - intros o Ho. by rewrite sum_n_delta_l.
  - intros o k Ho Hk. cbn [df_jac identity_map item]. unfold ndim. rewrite Hv.
    cbn [length take drop].
    destruct (decide (o = k)) as [-> | Hne]; [by rewrite decide_True |].
    rewrite decide_False; [done |]. by intros [= ->].
Qed.

Lemma linear_map_linear (H : ndarray) (dy d : nat) :
  shape H = [dy; d] → linear_observation (linear_map H) (entries2 H) dy d.
Proof.
  intros HH v Hv. cbn [df_apply df_jac linear_map].
  destruct (matmul_vector H v dy d HH Hv) as (r & -> & Hs & Hi).
  exists r. split; [done |]. split; [done |]. split; [| done].
  intros o Ho. by rewrite Hi.
Qed.

Section FlatObserved.
Context (sde : SDE) (h : dfun) (A : nat → nat → Qc) (x tt : ndarray) (B dy d : nat).
Hypothesis Hh : linear_observation h A dy d.
Hypothesis Hx : shape x = [B; d].
Hypothesis Ht : shape tt = [B; 1%nat].
Hypothesis HB : B ≠ 0%nat.

Lemma sample_estimate_obs (tb : Qc) (xb : ndarray) :
  shape xb = [d] →
  ∃ r, sample_estimate sde h None tb xb = Ok r
       ∧ shape r = [dy]
       ∧ ∀ idx, (∀ o, idx = [o] → (o < dy)%nat →
                   item r idx = sum_n d (λ k, A o k * sde_mean sde xb tb [k])).
Proof.
  intros Hxb. unfold sample_estimate. cbn [sample_mean_reshaped mbind res_bind].
  destruct (Hh (sample_mean sde tb xb)) as (r & -> & Hs & Hi & _); [done |].
  exists r. split; [done |]. split; [done |].
  intros idx o -> Ho. by rewrite Hi.
Qed.

Lemma sample_estimate_jac_obs (tb : Qc) (xb : ndarray) :
  shape xb = [d] →
  ∃ r, sample_estimate_jac sde h None tb xb = Ok r
       ∧ shape r = [dy; d]
       ∧ ∀ idx, (∀ o i, idx = [o; i] → (o < dy)%nat →
                   item r idx = sum_n d (λ k, A o k * sde_mean_jac sde xb tb [k; i])).
Proof.
  intros Hxb. unfold sample_estimate_jac. cbn [sample_mean_reshaped mbind res_bind].
  destruct (Hh (sample_mean sde tb xb)) as (r & -> & Hs & _ & Hj); [done |].
  cbn [mbind res_bind]. eexists. split; [reflexivity |].
  cbn [shape item sample_mean]. rewrite Hs, Hxb. split; [done |].
  intros idx o i -> Ho. unfold ndim. rewrite Hs. cbn [length take drop app].
  rewrite sum_over_one_axis. apply sum_n_ext. intros k Hk. cbn [app].
  by rewrite Hj.
Qed.

Lemma estimate_x_0_obs :
  ∃ hx s aux, estimate_x_0 sde h None x tt = Ok (hx, (s, aux))
    ∧ shape hx = [B; dy] ∧ shape s = [B; d]
    ∧ (∀ b o, (b < B)%nat → (o < dy)%nat → item hx [b; o] = observed_mean sde A d x tt b o)
    ∧ (∀ b j, (b < B)%nat → item s [b; j] = score_at sde x tt b j).
Proof.
  unfold estimate_x_0. rewrite Hx. cbn [hd sample_shape mbind res_bind].
  destruct (batch_map_exists (λ b, sample_estimate sde h None (sample_time tt b))
              x B [d] [dy]
              (λ b idx v, ∀ o, idx = [o] → (o < dy)%nat →
                 v = observed_mean sde A d x tt b o) Hx)
    as (hx & -> & Hshx & Hihx).
  { intros b Hb%(batch_index_ok B HB). rewrite (sample_time_column tt B b Ht Hb).
    apply sample_estimate_obs. by cbn [shape slice0]; rewrite Hx. }
  cbn [mbind res_bind].
  destruct (batch_map_spec (λ b xb, Ok (sample_score sde (sample_time tt b) xb))
              (λ b, sample_score sde (sample_time tt b) (slice0 x b)) x B [d] [d] Hx)
    as (s & -> & Hss & His); [done | by cbn [shape slice0 sample_score]; rewrite Hx |].
  cbn [mbind res_bind].
  destruct (batch_map_spec (λ b xb, Ok (sample_mean sde (sample_time tt b) xb))
              (λ b, sample_mean sde (sample_time tt b) (slice0 x b)) x B [d] [d] Hx)
    as (aux & -> & _ & _); [done | by cbn [shape slice0 sample_mean]; rewrite Hx |].
  cbn [mbind res_bind].
  exists hx, s, aux. split; [done |]. split; [done |]. split; [done |]. split.
  - intros b o Hb Ho. by eapply Hihx.
  - intros b j Hb. rewrite His by done. cbn [item sample_score].
    by rewrite (sample_time_column tt B b Ht Hb).
Qed.

Lemma jax_vjp_obs :
  ∃ hx vjp_fun s aux,
    jax_vjp sde h None x tt = Ok (hx, vjp_fun, (s, aux))
    ∧ shape hx = [B; dy] ∧ shape s = [B; d]
    ∧ (∀ b o, (b < B)%nat → (o < dy)%nat → item hx [b; o] = observed_mean sde A d x tt b o)
    ∧ (∀ b j, (b < B)%nat → item s [b; j] = score_at sde x tt b j)
    ∧ ∀ ct, shape ct = [B; dy] →
        ∃ r, vjp_fun ct = Ok r
             ∧ shape r = [B; d]
             ∧ ∀ b i, (b < B)%nat →
                 item r [b; i]
                 = sum_n dy (λ o, item ct [b; o] * observed_jac sde A d x tt b o i).
Proof.
  unfold jax_vjp.
  destruct estimate_x_0_obs as (hx & s & aux & -> & Hshx & Hss & Hihx & His).
  cbn [mbind res_bind]. rewrite Hx. cbn [hd sample_shape mbind res_bind].
  destruct (batch_map_exists
              (λ b, sample_estimate_jac sde h None (sample_time tt b))
              x B [d] [dy; d]
              (λ b idx v, ∀ o i, idx = [o; i] → (o < dy)%nat →
                 v = observed_jac sde A d x tt b o i) Hx)
    as (jac & -> & Hsjac & Hijac).
  { intros b Hb%(batch_index_ok B HB). rewrite (sample_time_column tt B b Ht Hb).
    apply sample_estimate_jac_obs. by cbn [shape slice0]; rewrite Hx. }
  cbn [mbind res_bind].
  eexists hx, _, s, aux. split; [reflexivity |].
  split; [done |]. split; [done |]. split; [done |]. split; [done |].
  intros ct Hct. rewrite Hshx, decide_True by done.
  eexists. split; [reflexivity |]. cbn [shape item]. split; [done |].
  intros b i Hb. cbn [tail hd]. rewrite sum_over_one_axis.
  apply sum_n_ext. intros o Ho. cbn [app]. f_equal. by eapply Hijac.
Qed.

(** The observation map applied to every row of a matrix. *)
Lemma vmap_obs (a : ndarray) :
  shape a = [B; d] →
  ∃ r, vmap (df_apply h) a = Ok r
       ∧ shape r = [B; dy]
       ∧ ∀ b o, (b < B)%nat → (o < dy)%nat →
           item r [b; o] = sum_n d (λ k, A o k * item a [b; k]).
Proof.
  intros Ha. unfold vmap.
  destruct (batch_map_exists (λ _, df_apply h) a B [d] [dy]
              (λ b idx v, ∀ o, idx = [o] → (o < dy)%nat →
                 v = sum_n d (λ k, A o k * item a [b; k])) Ha)
    as (r & -> & Hs & Hi).
  { intros b _. destruct (Hh (slice0 a b)) as (r & -> & Hs & Hi & _);
      [by cbn [shape slice0]; rewrite Ha |].
    exists r. split; [done |]. split; [done |]. intros idx o -> Ho. by rewrite Hi. }
  exists r. split; [done |]. split; [done |]. intros b o Hb Ho. by eapply Hi.
Qed.
End FlatObserved.

(** ** Entry-wise operations on matrices *)

Lemma map2_flat op (a b : ndarray) (B n : nat) :
  shape a = [B; n] → shape b = [B; n] →
  ∃ r, map2_bc op a b = Ok r
       ∧ shape r = [B; n]
       ∧ ∀ i j, (i < B)%nat → (j < n)%nat → item r [i; j] = op (item a [i; j]) (item b [i; j]).
Proof.
  intros Ha Hb.
  rewrite (map2_bc_eval _ a b [B; n]) by (rewrite Ha, Hb; apply broadcast_shapes_same).
  eexists. split; [reflexivity |]. split; [done |].
  intros i j Hi Hj. cbn [item]. rewrite Ha, Hb.
  by rewrite !bc_index_valid by (repeat constructor; done).
Qed.

Lemma map2_flat_scalar op (a : ndarray) (c : Qc) (B n : nat) :
  shape a = [B; n] →
  ∃ r, map2_bc op a (scalar c) = Ok r
       ∧ shape r = [B; n]
       ∧ ∀ i j, (i < B)%nat → (j < n)%nat → item r [i; j] = op (item a [i; j]) c.
Proof.
  intros Ha.
  rewrite (map2_bc_eval _ a (scalar c) [B; n]) by (rewrite Ha; apply broadcast_shapes_nil_r).
  eexists. split; [reflexivity |]. split; [done |].
  intros i j Hi Hj. cbn [item scalar]. rewrite Ha.
  by rewrite !bc_index_valid by (repeat constructor; done).
Qed.

Lemma broadcast_shapes_one_r (B n : nat) : broadcast_shapes [B; n] [1%nat] = Ok [B; n].
Proof.
  unfold broadcast_shapes. cbn. repeat case_decide; subst; done.
Qed.

Lemma map2_flat_one op (a c : ndarray) (B n : nat) :
  shape a = [B; n] → shape c = [1%nat] →
  ∃ r, map2_bc op a c = Ok r
       ∧ shape r = [B; n]
       ∧ ∀ i j, (i < B)%nat → (j < n)%nat →
           item r [i; j] = op (item a [i; j]) (item c [0%nat]).
Proof.
  intros Ha Hc.
  rewrite (map2_bc_eval _ a c [B; n]) by (rewrite Ha, Hc; apply broadcast_shapes_one_r).
  eexists. split; [reflexivity |]. split; [done |].
  intros i j Hi Hj. cbn [item]. rewrite Ha, Hc.
  rewrite bc_index_valid by (repeat constructor; done).
  by rewrite bc_index_one.
Qed.

Lemma diagonal_covariance_flat sde (noise_std : Qc) (tt diag : ndarray) (B n : nat) :
  shape tt = [B; 1%nat] → B ≠ 0%nat → shape diag = [B; n] →
  ∃ C, diagonal_covariance sde noise_std tt (Ok diag) = Ok C
       ∧ shape C = [B; n]
       ∧ ∀ b o, (b < B)%nat → (o < n)%nat →
           item C [b; o]
           = sde_ratio sde (item tt [0; 0]%nat) * item diag [b; o] + noise_std ^ 2.
Proof.
  intros Ht HB Hd. unfold diagonal_covariance, mul, add.
  rewrite (getitem0_batch tt B [1%nat] Ht HB). cbn [mbind res_bind].
  rewrite (map2_bc_eval _ (ratio _ _) diag [B; n])
    by (cbn [shape ratio map_arr slice0]; rewrite Ht, Hd; by apply broadcast_shapes_one_l).
  cbn [mbind res_bind].
  rewrite (map2_bc_eval _ _ (scalar _) [B; n]) by apply broadcast_shapes_nil_r.
  eexists. split; [reflexivity |]. split; [done |].
  intros b o Hb Ho. cbn [item shape ratio map_arr slice0 scalar].
  rewrite Ht, Hd. cbn [tail].
  rewrite !(bc_index_valid [B; n] [b; o]) by (repeat constructor; done).
  rewrite bc_index_one by done. done.
Qed.

(** ** The methods with one pullback on flat samples *)

Section OnePullback.
Context (sqrt : Qc → Qc) (sde : SDE) (h : dfun) (A : nat → nat → Qc) (noise_std : Qc).
Context (x y tt : ndarray) (B dy d : nat).
Hypothesis Hh : linear_observation h A dy d.
Hypothesis Hx : shape x = [B; d].
Hypothesis Hy : shape y = [B; dy].
Hypothesis Ht : shape tt = [B; 1%nat].
Hypothesis HB : B ≠ 0%nat.

Lemma DPSMod_entries :
  ∃ out, guidance_score sqrt (DPSMod_instance (DPSMod.Build sde h y noise_std)) x tt = Ok out
    ∧ shape out = [B; d]
    ∧ ∀ b j, (b < B)%nat → (j < d)%nat →
        item out [b; j]
        = score_at sde x tt b j
          + sum_n dy (λ o, observed_innovation sde A d x y tt b o / noise_std ^ 2
                           * observed_jac sde A d x tt b o j).
Proof.
  unfold guidance_score. cbn [get_guidance_score_func].
  unfold DPSMod.get_guidance_score_func. cbn [mbind res_bind].
  unfold DPSMod.guidance_score, DPSMod.likelihood_score.
  cbn [DPSMod.sde DPSMod.observation_map DPSMod.y DPSMod.noise_std].
  destruct (jax_vjp_obs sde h A x tt B dy d Hh Hx Ht HB)
    as (hx & vjp_fun & s & aux & -> & Hshx & Hss & Hihx & His & Hvjp).
  cbn [mbind res_bind].
  destruct (map2_flat Qcminus y hx B dy Hy Hshx) as (v & Hv & Hsv & Hiv).
  unfold sub. rewrite Hv. cbn [mbind res_bind].
  destruct (map2_flat_scalar Qcdiv v (noise_std ^ 2) B dy Hsv) as (w & Hw & Hsw & Hiw).
  unfold div. rewrite Hw. cbn [mbind res_bind].
  destruct (Hvjp w Hsw) as (ls & -> & Hsls & Hils). cbn [mbind res_bind].
  destruct (add_flat B d s ls Hss Hsls) as (out & -> & Hso & Hio).
  exists out. split; [done |]. split; [done |].
  intros b j Hb Hj. rewrite Hio, His, Hils by done. f_equal.
  apply sum_n_ext. intros o Ho. rewrite Hiw, Hiv, Hihx by done. done.
Qed.

Lemma PIG_scalar_entries (HHT : ndarray) :
  shape HHT = [1%nat] →
  ∃ out, guidance_score sqrt (PIG_instance (PIG.Build sde h y noise_std HHT)) x tt = Ok out
    ∧ shape out = [B; d]
    ∧ ∀ b j, (b < B)%nat → (j < d)%nat →
        item out [b; j]
        = score_at sde x tt b j
          + sum_n dy (λ o, observed_innovation sde A d x y tt b o
                           / (sde_r2 sde (item tt [0; 0]%nat) 1 * item HHT [0%nat]
                              + noise_std ^ 2)
                           * observed_jac sde A d x tt b o j).
Proof.
  intros HH. unfold guidance_score. cbn [get_guidance_score_func].
  unfold PIG.get_guidance_score_func. cbn [mbind res_bind].
  unfold PIG.guidance_score, PIG.likelihood_score, PIG.solve_innovation.
  cbn [PIG.sde PIG.observation_map PIG.y PIG.noise_std PIG.HHT].
  destruct (jax_vjp_obs sde h A x tt B dy d Hh Hx Ht HB)
    as (hx & vjp_fun & s & aux & -> & Hshx & Hss & Hihx & His & Hvjp).
  cbn [mbind res_bind].
  destruct (map2_flat Qcminus y hx B dy Hy Hshx) as (v & Hv & Hsv & Hiv).
  unfold sub. rewrite Hv. cbn [mbind res_bind].
  unfold shape1. rewrite Hy. cbn [mbind res_bind]. rewrite HH.
  rewrite decide_False by done. rewrite decide_True by done.
  destruct (PIG_scalar_C_yy_entries (PIG.Build sde h y noise_std HHT) tt B Ht HB HH)
    as (C & -> & HsC & HiC).
  cbn [mbind res_bind PIG.sde PIG.HHT PIG.noise_std] in *.
  destruct (map2_flat_one Qcdiv v C B dy Hsv HsC) as (f & Hf & Hsf & Hif).
  unfold div. rewrite Hf. cbn [mbind res_bind].
  destruct (Hvjp f Hsf) as (ls & -> & Hsls & Hils). cbn [mbind res_bind].
  destruct (add_flat B d s ls Hss Hsls) as (out & -> & Hso & Hio).
  exists out. split; [done |]. split; [done |].
  intros b j Hb Hj. rewrite Hio, His, Hils by done. f_equal.
  apply sum_n_ext. intros o Ho. rewrite Hif, Hiv, Hihx, HiC by done. done.
Qed.

Lemma VJPMask_entries (sh : list nat) :
  ∃ out, guidance_score sqrt (VJPMask_instance (VJPMask.Build sde h y noise_std sh)) x tt
         = Ok out
    ∧ shape out = [B; d]
    ∧ ∀ b j, (b < B)%nat → (j < d)%nat →
        item out [b; j]
        = score_at sde x tt b j
          + sum_n dy (λ o, observed_innovation sde A d x y tt b o
                           / (sde_ratio sde (item tt [0; 0]%nat)
                              * mask_diagonal sde A dy d x tt b o + noise_std ^ 2)
                           * observed_jac sde A d x tt b o j).
Proof.
  unfold guidance_score. cbn [get_guidance_score_func].
  unfold VJPMask.get_guidance_score_func. cbn [mbind res_bind].
  unfold VJPMask.guidance_score, VJPMask.likelihood_score.
  cbn [VJPMask.sde VJPMask.observation_map VJPMask.y VJPMask.noise_std].
  destruct (jax_vjp_obs sde h A x tt B dy d Hh Hx Ht HB)
    as (hx & vjp_fun & s & aux & -> & Hshx & Hss & Hihx & His & Hvjp).
  cbn [mbind res_bind].
  destruct (vmap_obs h A B dy d Hh (ones_like x) Hx) as (ones & -> & Hs1 & Hi1).
  cbn [mbind res_bind].
  destruct (Hvjp ones Hs1) as (pulled & -> & Hsp & Hip). cbn [mbind res_bind].
  destruct (vmap_obs h A B dy d Hh pulled Hsp) as (diag & -> & Hsd & Hid).
  cbn [mbind res_bind].
  destruct (diagonal_covariance_flat sde noise_std tt diag B dy Ht HB Hsd)
    as (C & -> & HsC & HiC).
  cbn [mbind res_bind].
  destruct (map2_flat Qcminus y hx B dy Hy Hshx) as (v & Hv & Hsv & Hiv).
  unfold sub. rewrite Hv. cbn [mbind res_bind].
  destruct (map2_flat Qcdiv v C B dy Hsv HsC) as (f & Hf & Hsf & Hif).
  unfold div. rewrite Hf. cbn [mbind res_bind].
  destruct (Hvjp f Hsf) as (ls & -> & Hsls & Hils). cbn [mbind res_bind].
  destruct (add_flat B d s ls Hss Hsls) as (out & -> & Hso & Hio).
  exists out. split; [done |]. split; [done |].
  intros b j Hb Hj. rewrite Hio, His, Hils by done. f_equal.
  apply sum_n_ext. intros o Ho. rewrite Hif, Hiv, Hihx, HiC, Hid by done.
  f_equal. f_equal. f_equal. f_equal. unfold mask_diagonal.
  apply sum_n_ext. intros i Hi. f_equal. rewrite Hip by done.
  apply sum_n_ext. intros o' Ho'. by rewrite Hi1.
Qed.
End OnePullback.

Ltac qc_neq :=
  let H := fresh in intros H; apply (f_equal this) in H; vm_compute in H; discriminate H.

Ltac each_sample b Hb tac :=
  repeat (destruct b as [| b]; [tac |]); exfalso; cbn in Hb; lia.

(** X1: on flat samples, with an observation map that acts as a matrix,
    DPSMod returns the score plus the pullback of the innovation divided by
    [noise_std**2]; neither [ratio] nor [r2] of the handle enters. *)
Theorem DPSMod_closed_form (sqrt : Qc → Qc) (sde : SDE) (h : dfun) (A : nat → nat → Qc)
    (noise_std : Qc) (x y tt : ndarray) (B dy d : nat) :
  linear_observation h A dy d →
  shape x = [B; d] → shape y = [B; dy] → shape tt = [B; 1%nat] → B ≠ 0%nat →
  noise_std ≠ 0 →
  ∃ out, guidance_score sqrt (DPSMod_instance (DPSMod.Build sde h y noise_std)) x tt = Ok out
    ∧ shape out = [B; d]
    ∧ ∀ b j, (b < B)%nat → (j < d)%nat →
        item out [b; j]
        = score_at sde x tt b j
          + sum_n dy (λ o, observed_innovation sde A d x y tt b o / noise_std ^ 2
                           * observed_jac sde A d x tt b o j).
Proof. intros Hh Hx Hy Ht HB _. by apply DPSMod_entries. Qed.

Lemma DPSMod_closed_form_witness :
  ∃ out, guidance_score id
           (DPSMod_instance (DPSMod.Build shear_sde (linear_map sum_of_entries)
                               scenario_sums (Q2Qc 0.1))) scenario_x scenario_t = Ok out
    ∧ shape out = [4; 2]%nat
    ∧ ∀ b j, (b < 4)%nat → (j < 2)%nat →
        item out [b; j]
        = score_at shear_sde scenario_x scenario_t b j
          + sum_n 1 (λ o, observed_innovation shear_sde (entries2 sum_of_entries) 2
                            scenario_x scenario_sums scenario_t b o / Q2Qc 0.1 ^ 2
                          * observed_jac shear_sde (entries2 sum_of_entries) 2
                              scenario_x scenario_t b o j).
Proof.
  apply (DPSMod_closed_form id shear_sde (linear_map sum_of_entries)
           (entries2 sum_of_entries) (Q2Qc 0.1) scenario_x scenario_sums scenario_t 4 1 2
           (linear_map_linear sum_of_entries 1 2 eq_refl) eq_refl eq_refl eq_refl).
  - discriminate.
  - qc_neq.
Defined.

(** X2: with an [HHT] of shape [(1,)], PIG binds [f] in the second branch
    and returns the score plus the pullback of the innovation divided by
    [r2(t[0], 1.0) * HHT[0] + noise_std**2]. *)
Theorem PIG_scalar_closed_form (sqrt : Qc → Qc) (sde : SDE) (h : dfun) (A : nat → nat → Qc)
    (noise_std : Qc) (HHT x y tt : ndarray) (B dy d : nat) :
  linear_observation h A dy d →
  shape x = [B; d] → shape y = [B; dy] → shape tt = [B; 1%nat] → B ≠ 0%nat →
  shape HHT = [1%nat] →
  sde_r2 sde (item tt [0; 0]%nat) 1 * item HHT [0%nat] + noise_std ^ 2 ≠ 0 →
  ∃ out, guidance_score sqrt (PIG_instance (PIG.Build sde h y noise_std HHT)) x tt = Ok out
    ∧ shape out = [B; d]
    ∧ ∀ b j, (b < B)%nat → (j < d)%nat →
        item out [b; j]
        = score_at sde x tt b j
          + sum_n dy (λ o, observed_innovation sde A d x y tt b o
                           / (sde_r2 sde (item tt [0; 0]%nat) 1 * item HHT [0%nat]
                              + noise_std ^ 2)
                           * observed_jac sde A d x tt b o j).
Proof. intros Hh Hx Hy Ht HB HH _. by apply PIG_scalar_entries. Qed.

Lemma PIG_scalar_closed_form_witness :
  ∃ out, guidance_score id
           (PIG_instance (PIG.Build (stub_sde 1 (Qc_of_Z 3)) identity_map scenario_y (Q2Qc 0.1)
                            (vector [Qc_of_Z 2]))) scenario_x scenario_t = Ok out
    ∧ shape out = [4; 2]%nat
    ∧ ∀ b j, (b < 4)%nat → (j < 2)%nat →
        item out [b; j]
        = score_at (stub_sde 1 (Qc_of_Z 3)) scenario_x scenario_t b j
          + sum_n 2 (λ o, observed_innovation (stub_sde 1 (Qc_of_Z 3))
                            (λ o k, if decide (o = k) then 1 else 0) 2
                            scenario_x scenario_y scenario_t b o
                          / (sde_r2 (stub_sde 1 (Qc_of_Z 3)) (item scenario_t [0; 0]%nat) 1
                             * item (vector [Qc_of_Z 2]) [0%nat] + Q2Qc 0.1 ^ 2)
                          * observed_jac (stub_sde 1 (Qc_of_Z 3))
                              (λ o k, if decide (o = k) then 1 else 0) 2
                              scenario_x scenario_t b o j).
Proof.
  apply (PIG_scalar_closed_form id (stub_sde 1 (Qc_of_Z 3)) identity_map _ (Q2Qc 0.1)
           (vector [Qc_of_Z 2]) scenario_x scenario_y scenario_t 4 2 2
           (identity_map_linear 2) eq_refl eq_refl eq_refl).
  - discriminate.
  - reflexivity.
  - qc_neq.
Defined.

(** X3: a PIG instance built through the registry without [HHT] gets the
    default [jnp.array([1.0])], so its guidance function never leaves [f]
    unbound: it divides the innovation by [r2(t[0], 1.0) + noise_std**2]. *)
Theorem PIG_default_HHT (sqrt : Qc → Qc) (sde : SDE) (h : dfun) (A : nat → nat → Qc)
    (noise_std : Qc) (x y tt : ndarray) (B dy d : nat) :
  linear_observation h A dy d →
  shape x = [B; d] → shape y = [B; dy] → shape tt = [B; 1%nat] → B ≠ 0%nat →
  sde_r2 sde (item tt [0; 0]%nat) 1 + noise_std ^ 2 ≠ 0 →
  ∃ m out,
    (get_conditioning_method construct (value PSEUDO_INVERSE_GUIDANCE)
       (Kwargs (Some sde) (Some h) None (Some y) (Some noise_std) None None None)
       __CONDITIONING_METHOD__).1 = Ok m
    ∧ guidance_score sqrt m x tt = Ok out
    ∧ shape out = [B; d]
    ∧ ∀ b j, (b < B)%nat → (j < d)%nat →
        item out [b; j]
        = score_at sde x tt b j
          + sum_n dy (λ o, observed_innovation sde A d x y tt b o
                           / (sde_r2 sde (item tt [0; 0]%nat) 1 + noise_std ^ 2)
                           * observed_jac sde A d x tt b o j).
Proof.
  intros Hh Hx Hy Ht HB _.
  rewrite (get_bound construct _ Class.PIG);
    [| apply registry_lookup_decorated; apply (bool_decide_unpack _); vm_compute; reflexivity].
  cbn [fst construct required unexpected mbind res_bind kw_sde kw_observation_map kw_y
       kw_noise_std kw_H kw_shape kw_scale kw_HHT default].
  eexists. 
  destruct (PIG_scalar_entries sqrt sde h A noise_std x y tt B dy d Hh Hx Hy Ht HB
              (NdArray [1%nat] (λ _, 1)) eq_refl) as (out & Hout & Hso & Hio).
  exists out. split; [reflexivity |]. split; [exact Hout |]. split; [done |].
  intros b j Hb Hj. rewrite Hio by done. cbn [item]. f_equal.
  apply sum_n_ext. intros o Ho. by rewrite Qcmult_1_r.
Qed.

Lemma PIG_default_HHT_witness :
  ∃ m out,
    (get_conditioning_method construct "pseduo_inverse_guidance"
       (Kwargs (Some (stub_sde 1 (Qc_of_Z 3))) (Some identity_map) None (Some scenario_y)
          (Some (Q2Qc 0.1)) None None None)
       __CONDITIONING_METHOD__).1 = Ok m
    ∧ guidance_score id m scenario_x scenario_t = Ok out
    ∧ shape out = [4; 2]%nat
    ∧ ∀ b j, (b < 4)%nat → (j < 2)%nat →
        item out [b; j]
        = score_at (stub_sde 1 (Qc_of_Z 3)) scenario_x scenario_t b j
          + sum_n 2 (λ o, observed_innovation (stub_sde 1 (Qc_of_Z 3))
                            (λ o k, if decide (o = k) then 1 else 0) 2
                            scenario_x scenario_y scenario_t b o
                          / (sde_r2 (stub_sde 1 (Qc_of_Z 3)) (item scenario_t [0; 0]%nat) 1
                             + Q2Qc 0.1 ^ 2)
                          * observed_jac (stub_sde 1 (Qc_of_Z 3))
                              (λ o k, if decide (o = k) then 1 else 0) 2
                              scenario_x scenario_t b o j).
Proof.
  apply (PIG_default_HHT id (stub_sde 1 (Qc_of_Z 3)) identity_map _ (Q2Qc 0.1)
           scenario_x scenario_y scenario_t 4 2 2
           (identity_map_linear 2) eq_refl eq_refl eq_refl).
  - discriminate.
  - qc_neq.
Defined.

(** X4: when [r2(t[0], 1.0) * HHT[0]] is zero, PIG with an [HHT] of shape
    [(1,)] and DPSMod return the same array. *)
Theorem PIG_without_covariance_is_DPSMod (sqrt : Qc → Qc) (sde : SDE) (h : dfun)
    (A : nat → nat → Qc) (noise_std : Qc) (HHT x y tt : ndarray) (B dy d : nat) :
  linear_observation h A dy d →
  shape x = [B; d] → shape y = [B; dy] → shape tt = [B; 1%nat] → B ≠ 0%nat →
  shape HHT = [1%nat] →
  sde_r2 sde (item tt [0; 0]%nat) 1 * item HHT [0%nat] = 0 →
  res_eq (guidance_score sqrt (PIG_instance (PIG.Build sde h y noise_std HHT)) x tt)
         (guidance_score sqrt (DPSMod_instance (DPSMod.Build sde h y noise_std)) x tt).
Proof.
  intros Hh Hx Hy Ht HB HH Hzero.
  destruct (PIG_scalar_entries sqrt sde h A noise_std x y tt B dy d Hh Hx Hy Ht HB HHT HH)
    as (out & -> & Hso & Hio).
  destruct (DPSMod_entries sqrt sde h A noise_std x y tt B dy d Hh Hx Hy Ht HB)
    as (out' & -> & Hso' & Hio').
  split; [by rewrite Hso, Hso' |].
  intros idx Hv. rewrite Hso in Hv.
  apply valid_index_flat in Hv as (b & j & -> & Hb & Hj).
  rewrite Hio, Hio', Hzero by done. by rewrite Qcplus_0_l.
Qed.

Lemma PIG_without_covariance_is_DPSMod_witness :
  res_eq (guidance_score id
            (PIG_instance (PIG.Build (stub_sde 1 (Qc_of_Z 3)) identity_map scenario_y (Q2Qc 0.1)
                             (vector [0]))) scenario_x scenario_t)
         (guidance_score id
            (DPSMod_instance (DPSMod.Build (stub_sde 1 (Qc_of_Z 3)) identity_map scenario_y (Q2Qc 0.1)))
            scenario_x scenario_t).
Proof.
  apply (PIG_without_covariance_is_DPSMod id (stub_sde 1 (Qc_of_Z 3)) identity_map _ (Q2Qc 0.1)
           (vector [0]) scenario_x scenario_y scenario_t 4 2 2
           (identity_map_linear 2) eq_refl eq_refl eq_refl).
  - discriminate.
  - reflexivity.
  - apply Qc_is_canon. reflexivity.
Defined.

(** X5: on flat samples VJPMask divides the innovation entry by entry by
    [ratio(t[0]) * diag + noise_std**2], where [diag] is the observation of
    the pullback of the observed all-ones sample, pulls the quotient back
    and adds the score. *)
Theorem VJPMask_closed_form (sqrt : Qc → Qc) (sde : SDE) (h : dfun) (A : nat → nat → Qc)
    (noise_std : Qc) (sh : list nat) (x y tt : ndarray) (B dy d : nat) :
  linear_observation h A dy d →
  shape x = [B; d] → shape y = [B; dy] → shape tt = [B; 1%nat] → B ≠ 0%nat →
  (∀ b o, (b < B)%nat → (o < dy)%nat →
     sde_ratio sde (item tt [0; 0]%nat) * mask_diagonal sde A dy d x tt b o
     + noise_std ^ 2 ≠ 0) →
  ∃ out, guidance_score sqrt (VJPMask_instance (VJPMask.Build sde h y noise_std sh)) x tt
         = Ok out
    ∧ shape out = [B; d]
    ∧ ∀ b j, (b < B)%nat → (j < d)%nat →
        item out [b; j]
        = score_at sde x tt b j
          + sum_n dy (λ o, observed_innovation sde A d x y tt b o
                           / (sde_ratio sde (item tt [0; 0]%nat)
                              * mask_diagonal sde A dy d x tt b o + noise_std ^ 2)
                           * observed_jac sde A d x tt b o j).
Proof. intros Hh Hx Hy Ht HB _. by apply VJPMask_entries. Qed.

Lemma VJPMask_closed_form_witness :
  ∃ out, guidance_score id
           (VJPMask_instance (VJPMask.Build shear_sde identity_map scenario_y (Q2Qc 0.1)
                                [4; 2]%nat)) scenario_x scenario_t = Ok out
    ∧ shape out = [4; 2]%nat
    ∧ ∀ b j, (b < 4)%nat → (j < 2)%nat →
        item out [b; j]
        = score_at shear_sde scenario_x scenario_t b j
          + sum_n 2 (λ o, observed_innovation shear_sde
                            (λ o k, if decide (o = k) then 1 else 0) 2
                            scenario_x scenario_y scenario_t b o
                          / (sde_ratio shear_sde (item scenario_t [0; 0]%nat)
                             * mask_diagonal shear_sde
                                 (λ o k, if decide (o = k) then 1 else 0) 2 2
                                 scenario_x scenario_t b o + Q2Qc 0.1 ^ 2)
                          * observed_jac shear_sde
                              (λ o k, if decide (o = k) then 1 else 0) 2
                              scenario_x scenario_t b o j).
Proof.
  apply (VJPMask_closed_form id shear_sde identity_map _ (Q2Qc 0.1) [4; 2]%nat
           scenario_x scenario_y scenario_t 4 2 2
           (identity_map_linear 2) eq_refl eq_refl eq_refl).
  - discriminate.
  - intros b o Hb Ho.
    do 4 (destruct b as [| b]; [do 2 (destruct o as [| o]; [qc_neq |]); lia |]). lia.
Defined.

(** ** Systems with a diagonal matrix *)

Lemma sum_n_zero (n : nat) (f : nat → Qc) :
  (∀ k, (k < n)%nat → f k = 0) → sum_n n f = 0.
Proof.
  intros H. unfold sum_n. apply qsum_zero. intros k Hk%elem_of_seq. apply H. lia.
Qed.

Lemma sum_n_head (n : nat) (f : nat → Qc) :
  (∀ j, (0 < j < S n)%nat → f j = 0) → sum_n (S n) f = f 0%nat.
Proof.
  intros H. unfold sum_n. cbn [seq fmap list_fmap qsum foldr].
  change (list_fmap nat Qc ?g ?l) with (g <$> l).
  change (foldr Qcplus 0 ?l') with (qsum l').
  rewrite qsum_zero; [ring |]. intros k Hk%elem_of_seq. apply H. lia.
Qed.

Lemma det_first_column_zero (n : nat) (m : nat → nat → Qc) :
  (∀ r, m r 0%nat = 0) → det (S n) m = 0.
Proof.
  revert m. induction n as [| n IH]; intros m Hm.
  - cbn [det]. rewrite sum_n_head by lia. rewrite Hm. ring.
  - cbn [det]. apply sum_n_zero. intros j Hj.
    destruct j as [| j]; [rewrite Hm; ring |].
    change (sum_n (S n) ?f) with (det (S n) (λ i k, m (S i) (if decide (k < S j)%nat then k else S k))).
    rewrite IH; [ring |]. intros r. rewrite decide_True by lia. apply Hm.
Qed.

Lemma det_diag_S (n : nat) (c : nat → Qc) :
  det (S n) (diag_matrix c) = c 0%nat * det n (diag_matrix (λ i, c (S i))).
Proof.
  cbn [det]. rewrite sum_n_head.
  - cbn [Qcpower]. unfold diag_matrix at 1. rewrite decide_True by done.
    rewrite Qcmult_1_l. f_equal. apply det_ext. intros i k Hi Hk.
    rewrite decide_False by lia. unfold diag_matrix.
    destruct (decide (i = k)) as [-> | Hne]; [by rewrite decide_True |].
    by rewrite decide_False by lia.
  - intros j Hj. unfold diag_matrix at 1. rewrite decide_False by lia. ring.
Qed.

Lemma det_diag_nonzero (n : nat) (c : nat → Qc) :
  (∀ i, (i < n)%nat → c i ≠ 0) → det n (diag_matrix c) ≠ 0.
Proof.
  revert c. induction n as [| n IH]; intros c Hc.
  - cbn [det]. intros H. apply (f_equal this) in H. discriminate H.
  - rewrite det_diag_S. intros [H | H]%Qcmult_integral.
    + by apply (Hc 0%nat); [lia |].
    + apply (IH (λ i, c (S i))); [| done]. intros i Hi. apply Hc. lia.
Qed.

Lemma det_replace_diag_0 (n : nat) (c v : nat → Qc) :
  det (S n) (replace_col (diag_matrix c) 0 v)
  = v 0%nat * det n (diag_matrix (λ i, c (S i))).
Proof.
  cbn [det]. rewrite sum_n_head.
  - cbn [Qcpower]. unfold replace_col at 1. rewrite decide_True by done.
    rewrite Qcmult_1_l. f_equal. apply det_ext. intros i k Hi Hk.
    rewrite decide_False by lia. unfold replace_col. rewrite decide_False by lia.
    unfold diag_matrix.
    destruct (decide (i = k)) as [-> | Hne]; [by rewrite decide_True |].
    by rewrite decide_False by lia.
  - intros j Hj. unfold replace_col at 1. rewrite decide_False by lia.
    unfold diag_matrix. rewrite decide_False by lia. ring.
Qed.

Lemma det_replace_diag_S (n i : nat) (c v : nat → Qc) :
  (i < n)%nat →
  det (S n) (replace_col (diag_matrix c) (S i) v)
  = c 0%nat * det n (replace_col (diag_matrix (λ k, c (S k))) i (λ k, v (S k))).
Proof.
  intros Hi. cbn [det]. rewrite sum_n_head.
  - cbn [Qcpower]. unfold replace_col at 1. rewrite decide_False by lia.
    unfold diag_matrix at 1. rewrite decide_True by done.
    rewrite Qcmult_1_l. f_equal. apply det_ext. intros r k Hr Hk.
    rewrite decide_False by lia. unfold replace_col, diag_matrix.
    destruct (decide (k = i)) as [-> | Hne].
    + by rewrite decide_True.
    + rewrite decide_False by lia.
      destruct (decide (r = k)) as [-> | Hne']; [by rewrite decide_True |].
      by rewrite decide_False by lia.
  - intros j Hj. destruct (decide (j = S i)) as [-> | Hne].
    + destruct n as [| n]; [lia |].
      rewrite det_first_column_zero; [ring |].
      intros r. rewrite decide_True by lia. unfold replace_col, diag_matrix.
      rewrite decide_False by lia. by rewrite decide_False by lia.
    + unfold replace_col at 1. rewrite decide_False by done.
      unfold diag_matrix at 1. rewrite decide_False by lia. ring.
Qed.

(** Cramer's rule on a regular diagonal system divides entry by entry. *)
Lemma cramer_diag (n i : nat) (c v : nat → Qc) :
  (i < n)%nat → (∀ k, (k < n)%nat → c k ≠ 0) →
  det n (replace_col (diag_matrix c) i v) / det n (diag_matrix c) = v i / c i.
Proof.
  revert i c v. induction n as [| n IH]; intros i c v Hi Hc; [lia |].
  assert (Hc0 : c 0%nat ≠ 0) by (apply Hc; lia).
  assert (Hc' : ∀ k, (k < n)%nat → c (S k) ≠ 0) by (intros k Hk; apply Hc; lia).
  pose proof (det_diag_nonzero n (λ k, c (S k)) Hc') as Hd.
  rewrite det_diag_S. destruct i as [| i].
  - rewrite det_replace_diag_0. field. done.
  - rewrite det_replace_diag_S by lia.
    rewrite <- (IH i (λ k, c (S k)) (λ k, v (S k))) by (done || lia).
    field. done.
Qed.

(** The batched solve of systems whose matrices are diagonal on the entries
    in range. *)
Lemma batch_linalg_solve_diagonal (C v : ndarray) (B d : nat) (c : nat → nat → Qc) :
  shape C = [B; d; d] → shape v = [B; d] → B ≠ 0%nat →
  (∀ b i j, (b < B)%nat → (i < d)%nat → (j < d)%nat →
     item C [b; i; j] = if decide (i = j) then c b i else 0) →
  (∀ b i, (b < B)%nat → (i < d)%nat → c b i ≠ 0) →
  ∃ f, batch_linalg_solve C v = Ok f
       ∧ shape f = [B; d]
       ∧ ∀ b i, (b < B)%nat → (i < d)%nat → item f [b; i] = item v [b; i] / c b i.
Proof.
  intros HC Hv HB HiC Hc.
  assert (Hdet : ∀ b, (b < B)%nat →
            det d (entries2 (slice0 C b)) = det d (diag_matrix (c b))).
  { intros b Hb. apply det_ext. intros i j Hi Hj. unfold entries2. cbn [item slice0].
    by rewrite HiC. }
  destruct (batch_linalg_solve_regular C v B d HC Hv HB) as (f & Hf & Hsf & Hif).
  { intros b Hb. rewrite Hdet by done. apply det_diag_nonzero. intros i Hi. by apply Hc. }
  exists f. split; [done |]. split; [done |].
  intros b i Hb Hi. rewrite Hif, Hdet by done.
  rewrite <- (cramer_diag d i (c b) (λ k, item v [b; k])) by (done || (intros; by apply Hc)).
  f_equal. apply det_ext. intros r k Hr Hk. unfold replace_col, entries2.
  cbn [item slice0]. case_decide; [done |]. by rewrite HiC.
Qed.

(** ** More on sums *)

Lemma sum_n_S (n : nat) (f : nat → Qc) : sum_n (S n) f = sum_n n f + f n.
Proof.
  unfold sum_n. rewrite seq_S, fmap_app, qsum_app. cbn [fmap list_fmap qsum foldr Nat.add].
  by rewrite Qcplus_0_r.
Qed.

Lemma sum_n_plus (n : nat) (f g : nat → Qc) :
  sum_n n (λ k, f k + g k) = sum_n n f + sum_n n g.
Proof.
  induction n as [| n IH]; [unfold sum_n; cbn; ring |].
  rewrite !sum_n_S, IH. ring.
Qed.

Lemma sum_n_scale (n : nat) (c : Qc) (f : nat → Qc) :
  sum_n n (λ k, c * f k) = c * sum_n n f.
Proof.
  induction n as [| n IH]; [unfold sum_n; cbn; ring |].
  rewrite !sum_n_S, IH. ring.
Qed.

Lemma sum_n_swap (n m : nat) (f : nat → nat → Qc) :
  sum_n n (λ i, sum_n m (λ j, f i j)) = sum_n m (λ j, sum_n n (λ i, f i j)).
Proof.
  induction n as [| n IH].
  - symmetry. apply sum_n_zero. intros j _. done.
  - rewrite sum_n_S, IH, <- sum_n_plus. apply sum_n_ext. intros j _.
    by rewrite sum_n_S.
Qed.

(** ** More array operations on arrays of known shape *)

Lemma transpose_102 (a : ndarray) (p q r : nat) :
  shape a = [p; q; r] →
  ∃ a', transpose a [1; 0; 2]%nat = Ok a'
        ∧ shape a' = [q; p; r]
        ∧ ∀ i j k, item a' [i; j; k] = item a [j; i; k].
Proof.
  intros Ha. unfold transpose, ndim. rewrite Ha. cbn.
  eexists. split; [reflexivity |]. split; done.
Qed.

Lemma T_matrix (a : ndarray) (n m : nat) :
  shape a = [n; m] →
  ∃ r, T a = Ok r ∧ shape r = [m; n] ∧ ∀ i j, item r [i; j] = item a [j; i].
Proof.
  intros Ha. unfold T, transpose, ndim. rewrite Ha. cbn.
  eexists. split; [reflexivity |]. split; done.
Qed.

Lemma map2_scalar_flat op (c : Qc) (a : ndarray) (B n : nat) :
  shape a = [B; n] →
  ∃ r, map2_bc op (scalar c) a = Ok r
       ∧ shape r = [B; n]
       ∧ ∀ i j, (i < B)%nat → (j < n)%nat → item r [i; j] = op c (item a [i; j]).
Proof.
  intros Ha.
  rewrite (map2_bc_eval _ (scalar c) a [B; n]) by (rewrite Ha; apply broadcast_shapes_nil_l).
  eexists. split; [reflexivity |]. split; [done |].
  intros i j Hi Hj. cbn [item scalar]. rewrite Ha.
  by rewrite !bc_index_valid by (repeat constructor; done).
Qed.

Lemma batch_mul_flat (a b : ndarray) (B n : nat) :
  shape a = [B; n] → shape b = [B; n] →
  ∃ r, batch_mul a b = Ok r
       ∧ shape r = [B; n]
       ∧ ∀ i j, (i < B)%nat → (j < n)%nat → item r [i; j] = item a [i; j] * item b [i; j].
Proof.
  intros Ha Hb. unfold batch_mul, vmap2. rewrite Hb, Ha. cbn [hd_error].
  rewrite decide_True by done.
  destruct (batch_map_exists (λ i ai, mul ai (slice0 b i)) a B [n] [n]
              (λ i idx v, ∀ j, idx = [j] → (j < n)%nat → v = item a [i; j] * item b [i; j]) Ha)
    as (r & -> & Hs & Hi).
  { intros i _. unfold mul.
    rewrite (map2_bc_eval _ _ _ [n])
      by (cbn [shape slice0]; rewrite Ha, Hb; apply broadcast_shapes_same).
    eexists. split; [reflexivity |]. split; [done |].
    intros idx j -> Hj. cbn [item shape slice0]. rewrite Ha, Hb. cbn [tail].
    by rewrite !bc_index_valid by (repeat constructor; done). }
  exists r. split; [done |]. split; [done |]. intros i j Hi' Hj. by eapply Hi.
Qed.

Lemma batch_mul_A_matrices (H X : ndarray) (B n m : nat) :
  shape H = [n; m] → shape X = [B; n; m] →
  ∃ r, batch_mul_A H X = Ok r
       ∧ shape r = [B; n; m]
       ∧ ∀ b i k, (b < B)%nat → (i < n)%nat → (k < m)%nat →
           item r [b; i; k] = item H [i; k] * item X [b; i; k].
Proof.
  intros HH HX. unfold batch_mul_A, vmap.
  destruct (batch_map_exists (λ _, mul H) X B [n; m] [n; m]
              (λ b idx v, ∀ i k, idx = [i; k] → (i < n)%nat → (k < m)%nat →
                 v = item H [i; k] * item X [b; i; k]) HX)
    as (r & -> & Hs & Hi).
  { intros b _. unfold mul.
    rewrite (map2_bc_eval _ _ _ [n; m])
      by (cbn [shape slice0]; rewrite HH, HX; apply broadcast_shapes_same).
    eexists. split; [reflexivity |]. split; [done |].
    intros idx i k -> Hi Hk. cbn [item shape slice0]. rewrite HH, HX. cbn [tail].
    by rewrite !bc_index_valid by (repeat constructor; done). }
  exists r. split; [done |]. split; [done |]. intros b i k Hb Hi' Hk. by eapply Hi.
Qed.

Lemma sum_last_3 (a : ndarray) (p q r : nat) :
  shape a = [p; q; r] →
  ∃ s, sum_last a = Ok s
       ∧ shape s = [p; q]
       ∧ ∀ i j, item s [i; j] = sum_n r (λ k, item a [i; j; k]).
Proof.
  intros Ha. unfold sum_last. rewrite Ha. cbn.
  eexists. split; [reflexivity |]. split; done.
Qed.

Lemma diagonal12_square (a : ndarray) (n p : nat) :
  shape a = [n; p; p] →
  ∃ r, diagonal12 a = Ok r
       ∧ shape r = [n; p]
       ∧ ∀ i j, item r [i; j] = item a [i; j; j].
Proof.
  intros Ha. unfold diagonal12. rewrite Ha.
  eexists. split; [reflexivity |]. cbn [shape item nth]. by rewrite Nat.min_id.
Qed.

Lemma squeeze1_4 (a : ndarray) (n p q : nat) :
  shape a = [n; 1; p; q]%nat →
  ∃ r, squeeze1 a = Ok r
       ∧ shape r = [n; p; q]
       ∧ ∀ i j k, item r [i; j; k] = item a [i; 0; j; k]%nat.
Proof.
  intros Ha. unfold squeeze1. rewrite Ha.
  eexists. split; [reflexivity |]. split; done.
Qed.

(** The time the two diagonal Jacobian methods hand to the estimate of
    every sample: [t[0].reshape(1, 1)]. *)
Lemma expanded_time (tt : ndarray) (B : nat) :
  shape tt = [B; 1%nat] →
  ∃ t11, reshape (slice0 tt 0) [1; 1]%Z = Ok t11
         ∧ sample_time t11 0 = item tt [0; 0]%nat.
Proof.
  intros Ht. unfold reshape. cbn [shape slice0]. rewrite Ht. cbn [tail].
  eexists. split; [reflexivity |].
  unfold sample_time, first_item, ndim. cbn. done.
Qed.

Section Obs2.
Context (h : dfun) (A : nat → nat → Qc) (dy d : nat).
Hypothesis Hh : linear_observation h A dy d.

(** The observation map applied to every row of every matrix of a batch. *)
Lemma vmap_vmap_obs (a : ndarray) (B n : nat) :
  shape a = [B; n; d] →
  ∃ r, vmap (vmap (df_apply h)) a = Ok r
       ∧ shape r = [B; n; dy]
       ∧ ∀ b o p, (b < B)%nat → (o < n)%nat → (p < dy)%nat →
           item r [b; o; p] = sum_n d (λ k, A p k * item a [b; o; k]).
Proof.
  intros Ha. unfold vmap at 1.
  destruct (batch_map_exists (λ _, vmap (df_apply h)) a B [n; d] [n; dy]
              (λ b idx v, ∀ o p, idx = [o; p] → (o < n)%nat → (p < dy)%nat →
                 v = sum_n d (λ k, A p k * item a [b; o; k])) Ha)
    as (r & -> & Hs & Hi).
  { intros b _.
    destruct (vmap_obs h A n dy d Hh (slice0 a b)) as (r & -> & Hs & Hi);
      [by cbn [shape slice0]; rewrite Ha |].
    exists r. split; [done |]. split; [done |].
    intros idx o p -> Ho Hp. by rewrite Hi. }
  exists r. split; [done |]. split; [done |]. intros b o p Hb Ho Hp. by eapply Hi.
Qed.
End Obs2.

(** ** The diagonal methods on flat samples *)

Section DiagonalJacobian.
Context (sqrt : Qc → Qc) (sde : SDE) (h : dfun) (A : nat → nat → Qc) (noise_std : Qc).
Context (x y tt : ndarray) (B dy d : nat) (sh : list nat).
Hypothesis Hh : linear_observation h A dy d.
Hypothesis Hx : shape x = [B; d].
Hypothesis Hy : shape y = [B; dy].
Hypothesis Ht : shape tt = [B; 1%nat].
Hypothesis HB : B ≠ 0%nat.
Hypothesis Hsh : length sh = 2%nat.

(** [jnp.squeeze(vec_jacrev(x, t[0]), axis=1)] *)
Lemma first_time_jacobian :
  ∃ grad,
    (jac ← vmap (tr_jac (estimate_expanded_fst sde h (slice0 tt 0))) x; squeeze1 jac) = Ok grad
    ∧ shape grad = [B; dy; d]
    ∧ ∀ b o i, (b < B)%nat → (o < dy)%nat →
        item grad [b; o; i] = observed_jac_first sde A d x tt b o i.
Proof.
  unfold vmap.
  destruct (expanded_time tt B Ht) as (t11 & Ht11 & Htime).
  destruct (batch_map_exists (λ _, tr_jac (estimate_expanded_fst sde h (slice0 tt 0)))
              x B [d] [1; dy; d]%nat
              (λ b idx v, ∀ z o i, idx = [z; o; i] → (o < dy)%nat →
                 v = observed_jac_first sde A d x tt b o i) Hx)
    as (jac & -> & Hsj & Hij).
  { intros b _. cbn [tr_jac estimate_expanded_fst]. rewrite Ht11. cbn [mbind res_bind].
    rewrite Htime.
    destruct (sample_estimate_jac_obs sde h A dy d Hh (item tt [0; 0]%nat) (slice0 x b))
      as (r & -> & Hsr & Hir); [by cbn [shape slice0]; rewrite Hx |].
    cbn [fmap res_fmap]. exists (expand_dims0 r).
    split; [done |]. split; [by cbn [shape expand_dims0]; rewrite Hsr |].
    intros idx z o i -> Ho. cbn [item expand_dims0 tail]. by eapply Hir. }
  cbn [mbind res_bind].
  destruct (squeeze1_4 jac B dy d Hsj) as (grad & -> & Hsg & Hig).
  exists grad. split; [done |]. split; [done |].
  intros b o i Hb Ho. rewrite Hig. by eapply Hij.
Qed.

(** The body the two Jacobian methods share. *)
Lemma diagonal_jacobian_body :
  ∃ out,
    ('(ls, s) ←
       ('(h_x_0, (s, _)) ← estimate_x_0 sde h None x tt;
        t0 ← getitem0 tt;
        jac ← vmap (tr_jac (estimate_expanded_fst sde h t0)) x;
        grad_H_x_0 ← squeeze1 jac;
        H_grad_H_x_0 ← vmap (vmap (df_apply h)) grad_H_x_0;
        C_yy ← diagonal_covariance sde noise_std tt (diagonal12 H_grad_H_x_0);
        innovation ← sub y h_x_0;
        inverse ← div (scalar 1) C_yy;
        f ← batch_mul innovation inverse;
        ls ← contract_jacobian grad_H_x_0 (jacobian_axes sh) f s;
        Ok (ls, s));
     add s ls) = Ok out
    ∧ shape out = [B; d]
    ∧ ∀ b j, (b < B)%nat → (j < d)%nat →
        item out [b; j]
        = diagonal_guidance sde A noise_std x y tt dy d (observed_jac_first sde A d x tt) b j.
Proof.
  destruct (estimate_x_0_obs sde h A x tt B dy d Hh Hx Ht HB)
    as (hx' & s' & aux' & -> & Hshx & Hss & Hihx & His).
  cbn [mbind res_bind].
  rewrite (getitem0_batch tt B [1%nat] Ht HB). cbn [mbind res_bind].
  destruct first_time_jacobian as (grad & Hgrad & Hsg & Hig).
  destruct (vmap (tr_jac _) x) as [jac | e]; [| done].
  cbn [mbind res_bind] in *. rewrite Hgrad. cbn [mbind res_bind].
  destruct (vmap_vmap_obs h A dy d Hh grad B dy Hsg) as (M & -> & HsM & HiM).
  cbn [mbind res_bind].
  destruct (diagonal12_square M B dy HsM) as (dg & -> & Hsd & Hid).
  destruct (diagonal_covariance_flat sde noise_std tt dg B dy Ht HB Hsd)
    as (C & -> & HsC & HiC).
  cbn [mbind res_bind].
  destruct (map2_flat Qcminus y hx' B dy Hy Hshx) as (v & Hv & Hsv & Hiv).
  unfold sub. rewrite Hv. cbn [mbind res_bind].
  destruct (map2_scalar_flat Qcdiv 1 C B dy HsC) as (inv & Hinv & Hsinv & Hiinv).
  unfold div. rewrite Hinv. cbn [mbind res_bind].
  destruct (batch_mul_flat v inv B dy Hsv Hsinv) as (f & -> & Hsf & Hif).
  cbn [mbind res_bind].
  unfold contract_jacobian.
  replace (jacobian_axes sh) with [0; 2; 1]%nat
    by (unfold jacobian_axes; rewrite Hsh; reflexivity).
  destruct (transpose_021 grad B dy d Hsg) as (gT & -> & HsT & HiT).
  cbn [mbind res_bind].
  destruct (batch_matmul_vectors gT f B d dy HsT Hsf) as (p & -> & Hsp & Hip).
  cbn [mbind res_bind]. rewrite Hss.
  destruct (reshape_same p [B; d] Hsp) as (ls & -> & Hsls & Hils).
  cbn [mbind res_bind].
  destruct (add_flat B d s' ls Hss Hsls) as (out & -> & Hso & Hio).
  exists out. split; [done |]. split; [done |].
  intros b j Hb Hj. rewrite Hio, His by done. unfold diagonal_guidance. f_equal.
  rewrite Hils by (repeat constructor; done). rewrite Hip by done.
  apply sum_n_ext. intros o Ho. rewrite HiT, Hig by done. f_equal.
  rewrite Hif, Hiv, Hihx, Hiinv, HiC, Hid by done.
  unfold observed_innovation, diagonal_C_yy. f_equal. f_equal. f_equal. f_equal.
  rewrite HiM by done. unfold second_moment_diagonal.
  apply sum_n_ext. intros k Hk. by rewrite Hig.
Qed.

Lemma JacRevDiagonal_entries :
  ∃ out,
    guidance_score sqrt
      (JacRevDiagonal_instance (JacRevDiagonal.Build sde h y noise_std sh)) x tt = Ok out
    ∧ shape out = [B; d]
    ∧ ∀ b j, (b < B)%nat → (j < d)%nat →
        item out [b; j]
        = diagonal_guidance sde A noise_std x y tt dy d (observed_jac_first sde A d x tt) b j.
Proof. exact diagonal_jacobian_body. Qed.

Lemma JacFwdDiagonal_entries :
  ∃ out,
    guidance_score sqrt
      (JacFwdDiagonal_instance (JacFwdDiagonal.Build sde h y noise_std sh)) x tt = Ok out
    ∧ shape out = [B; d]
    ∧ ∀ b j, (b < B)%nat → (j < d)%nat →
        item out [b; j]
        = diagonal_guidance sde A noise_std x y tt dy d (observed_jac_first sde A d x tt) b j.
Proof. exact diagonal_jacobian_body. Qed.
End DiagonalJacobian.

Lemma VJPDiagonal_batch_H_flat (self : VJPDiagonal.t) (B dy dx : nat) (sig : list nat) :
  shape (VJPDiagonal.H self) = [dy; dx] → VJPDiagonal.shape self = B :: sig →
  ∃ bH, VJPDiagonal.batch_H self = Ok bH
        ∧ shape bH = [dy; B; dx]
        ∧ ∀ i b j, (i < dy)%nat → (j < dx)%nat →
            item bH [i; b; j] = item (VJPDiagonal.H self) [i; j].
Proof.
  intros HH Hs. unfold VJPDiagonal.batch_H. rewrite Hs. cbn [shape0 mbind res_bind].
  unfold transpose, tile, ndim. cbn [shape]. rewrite HH. cbn.
  eexists. split; [reflexivity |]. cbn. split; [f_equal; [lia | f_equal; [lia | f_equal; lia]] |].
  intros i b j Hi Hj. by rewrite !Nat.mod_small by done.
Qed.

Section MatrixDiagonal.
Context (sqrt : Qc → Qc) (sde : SDE) (H : ndarray) (noise_std : Qc).
Context (x y tt : ndarray) (B dy d : nat).
Hypothesis HH : shape H = [dy; d].
Hypothesis Hx : shape x = [B; d].
Hypothesis Hy : shape y = [B; dy].
Hypothesis Ht : shape tt = [B; 1%nat].
Hypothesis HB : B ≠ 0%nat.

(** The pullback mapped over the stacked rows of [H] gives the rows of
    [H·J] for every sample. *)
Lemma stacked_pullback_H (vjp_fun : ndarray → res ndarray) (bH : ndarray) :
  (∀ ct, shape ct = [B; d] →
     ∃ r, vjp_fun ct = Ok r
          ∧ shape r = [B; d]
          ∧ ∀ b i, (b < B)%nat →
              item r [b; i] = sum_n d (λ o, item ct [b; o] * jac_at sde x tt b o i)) →
  shape bH = [dy; B; d] →
  (∀ i b j, (i < dy)%nat → (j < d)%nat → item bH [i; b; j] = item H [i; j]) →
  ∃ Hg, vmap vjp_fun bH = Ok Hg
        ∧ shape Hg = [dy; B; d]
        ∧ ∀ i b j, (i < dy)%nat → (b < B)%nat →
            item Hg [i; b; j] = observed_jac sde (entries2 H) d x tt b i j.
Proof.
  intros Hvjp HsH HiH. unfold vmap.
  destruct (batch_map_exists (λ _, vjp_fun) bH dy [B; d] [B; d]
              (λ i idx v, ∀ b j, idx = [b; j] → (i < dy)%nat → (b < B)%nat →
                 v = observed_jac sde (entries2 H) d x tt b i j) HsH)
    as (Hg & -> & Hs & Hi).
  { intros i _.
    destruct (Hvjp (slice0 bH i)) as (r & -> & Hsr & Hir);
      [by cbn [shape slice0]; rewrite HsH |].
    exists r. split; [done |]. split; [done |].
    intros idx b j -> Hi Hb. rewrite Hir by done. unfold observed_jac, entries2.
    apply sum_n_ext. intros o Ho. cbn [item slice0]. by rewrite HiH. }
  exists Hg. split; [done |]. split; [done |].
  intros i b j Hi' Hb. by eapply Hi.
Qed.

Lemma VJPDiagonal_entries :
  ∃ out,
    guidance_score sqrt
      (VJPDiagonal_instance (VJPDiagonal.Build sde H y noise_std [B; d])) x tt = Ok out
    ∧ shape out = [B; d]
    ∧ ∀ b j, (b < B)%nat → (j < d)%nat →
        item out [b; j]
        = diagonal_guidance sde (entries2 H) noise_std x y tt dy d
            (observed_jac sde (entries2 H) d x tt) b j.
Proof.
  unfold guidance_score. cbn [get_guidance_score_func].
  unfold VJPDiagonal.get_guidance_score_func. cbn [VJPDiagonal.shape shape0 mbind res_bind].
  destruct (VJPDiagonal_batch_H_flat (VJPDiagonal.Build sde H y noise_std [B; d]) B dy d [d]
              HH eq_refl) as (bH & -> & HsH & HiH).
  cbn [mbind res_bind VJPDiagonal.H] in *.
  unfold VJPDiagonal.guidance_score, VJPDiagonal.likelihood_score.
  cbn [VJPDiagonal.sde VJPDiagonal.H VJPDiagonal.y VJPDiagonal.noise_std VJPDiagonal.shape].
  destruct (jax_vjp_flat sde (Some [Z.of_nat B; (-1)%Z]) x tt B d Hx Ht HB (or_intror eq_refl))
    as (hx & vjp_fun & s & aux & -> & Hshx & Hss & Hihx & His & Hvjp).
  cbn [mbind res_bind].
  destruct (stacked_pullback_H vjp_fun bH Hvjp HsH HiH) as (Hg & -> & HsHg & HiHg).
  cbn [mbind res_bind]. rewrite HH. cbn [shape0 shape1 mbind res_bind].
  unfold shape1. rewrite HH. cbn [mbind res_bind].
  destruct (reshape_same Hg [dy; B; d] HsHg) as (Hg' & -> & HsHg' & HiHg').
  cbn [mbind res_bind].
  destruct (transpose_102 Hg' dy B d HsHg') as (HgT & -> & HsT & HiT).
  cbn [mbind res_bind].
  destruct (batch_mul_A_matrices H HgT B dy d HH HsT) as (P & -> & HsP & HiP).
  cbn [mbind res_bind].
  destruct (sum_last_3 P B dy d HsP) as (dg & -> & Hsd & Hid).
  cbn [mbind res_bind].
  destruct (diagonal_covariance_flat sde noise_std tt dg B dy Ht HB Hsd)
    as (C & -> & HsC & HiC).
  cbn [mbind res_bind].
  destruct (batch_matmul_A_vectors H hx B dy d HH Hshx) as (Hx0 & -> & HsHx0 & HiHx0).
  cbn [mbind res_bind].
  destruct (map2_flat Qcminus y Hx0 B dy Hy HsHx0) as (v & Hv & Hsv & Hiv).
  unfold sub. rewrite Hv. cbn [mbind res_bind].
  destruct (map2_scalar_flat Qcdiv 1 C B dy HsC) as (inv & Hinv & Hsinv & Hiinv).
  unfold div. rewrite Hinv. cbn [mbind res_bind].
  destruct (batch_mul_flat v inv B dy Hsv Hsinv) as (f & -> & Hsf & Hif).
  cbn [mbind res_bind].
  destruct (T_matrix H dy d HH) as (HT & -> & HsHT & HiHT). cbn [mbind res_bind].
  destruct (batch_matmul_A_vectors HT f B d dy HsHT Hsf) as (w & -> & Hsw & Hiw).
  cbn [mbind res_bind].
  destruct (Hvjp w Hsw) as (ls & -> & Hsls & Hils). cbn [mbind res_bind].
  destruct (add_flat B d s ls Hss Hsls) as (out & -> & Hso & Hio).
  exists out. split; [done |]. split; [done |].
  intros b j Hb Hj. rewrite Hio, His by done. unfold diagonal_guidance. f_equal.
  rewrite Hils by done.
  assert (Hf : ∀ o, (o < dy)%nat →
            item f [b; o]
            = observed_innovation sde (entries2 H) d x y tt b o
              * (1 / diagonal_C_yy sde (entries2 H) noise_std tt d
                       (observed_jac sde (entries2 H) d x tt) b o)).
  { intros o Ho. rewrite Hif, Hiv, HiHx0, Hiinv, HiC, Hid by done.
    unfold observed_innovation, observed_mean, diagonal_C_yy, second_moment_diagonal.
    f_equal.
    - f_equal. apply sum_n_ext. intros k Hk. by rewrite Hihx.
    - f_equal. f_equal. f_equal. apply sum_n_ext. intros k Hk.
      rewrite HiP, HiT by done. rewrite HiHg' by (repeat constructor; done).
      by rewrite HiHg. }
  transitivity (sum_n d (λ k, sum_n dy (λ o,
                  item H [o; k] * item f [b; o] * jac_at sde x tt b k j))).
  { apply sum_n_ext. intros k Hk. rewrite Hiw by done.
    change (sde_mean_jac sde (slice0 x b) (item tt [b; 0%nat]) [k; j])
      with (jac_at sde x tt b k j).
    rewrite Qcmult_comm, <- sum_n_scale. apply sum_n_ext. intros o Ho.
    rewrite HiHT. ring. }
  rewrite sum_n_swap. apply sum_n_ext. intros o Ho. rewrite <- Hf by done.
  unfold observed_jac. rewrite Qcmult_comm, <- sum_n_scale.
  apply sum_n_ext. intros k Hk. unfold entries2. ring.
Qed.
End MatrixDiagonal.

(** X6: on flat samples JacRevDiagonal and JacFwdDiagonal return the same
    array.  They take the Jacobian of the estimate of every sample at the
    time of the first sample, [t[0]], divide the innovation by
    [ratio(t[0]) * diag(A·J·Aᵗ) + noise_std**2] entry by entry and map the
    quotient back with the transposed observed Jacobian; the estimate and
    the score are taken at each sample's own time. *)
Theorem diagonal_jacobian_closed_form (sqrt : Qc → Qc) (sde : SDE) (h : dfun)
    (A : nat → nat → Qc) (noise_std : Qc) (sh : list nat) (x y tt : ndarray) (B dy d : nat) :
  linear_observation h A dy d →
  shape x = [B; d] → shape y = [B; dy] → shape tt = [B; 1%nat] → B ≠ 0%nat →
  length sh = 2%nat →
  (∀ b o, (b < B)%nat → (o < dy)%nat →
     diagonal_C_yy sde A noise_std tt d (observed_jac_first sde A d x tt) b o ≠ 0) →
  ∃ out,
    guidance_score sqrt
      (JacRevDiagonal_instance (JacRevDiagonal.Build sde h y noise_std sh)) x tt = Ok out
    ∧ guidance_score sqrt
        (JacFwdDiagonal_instance (JacFwdDiagonal.Build sde h y noise_std sh)) x tt = Ok out
    ∧ shape out = [B; d]
    ∧ ∀ b j, (b < B)%nat → (j < d)%nat →
        item out [b; j]
        = diagonal_guidance sde A noise_std x y tt dy d (observed_jac_first sde A d x tt) b j.
Proof.
  intros Hh Hx Hy Ht HB Hsh _.
  destruct (JacRevDiagonal_entries sqrt sde h A noise_std x y tt B dy d sh Hh Hx Hy Ht HB Hsh)
    as (out & Hout & Hso & Hio).
  exists out. split; [exact Hout |]. split; [exact Hout |]. split; done.
Qed.

Lemma diagonal_jacobian_closed_form_witness :
  ∃ out,
    guidance_score id
      (JacRevDiagonal_instance
         (JacRevDiagonal.Build shear_sde identity_map scenario_y (Q2Qc 0.1) [4; 2]%nat))
      scenario_x scenario_t = Ok out
    ∧ guidance_score id
        (JacFwdDiagonal_instance
           (JacFwdDiagonal.Build shear_sde identity_map scenario_y (Q2Qc 0.1) [4; 2]%nat))
        scenario_x scenario_t = Ok out
    ∧ shape out = [4; 2]%nat
    ∧ ∀ b j, (b < 4)%nat → (j < 2)%nat →
        item out [b; j]
        = diagonal_guidance shear_sde (λ o k, if decide (o = k) then 1 else 0) (Q2Qc 0.1)
            scenario_x scenario_y scenario_t 2 2
            (observed_jac_first shear_sde (λ o k, if decide (o = k) then 1 else 0) 2
               scenario_x scenario_t) b j.
Proof.
  apply (diagonal_jacobian_closed_form id shear_sde identity_map _ (Q2Qc 0.1) [4; 2]%nat
           scenario_x scenario_y scenario_t 4 2 2
           (identity_map_linear 2) eq_refl eq_refl eq_refl).
  - discriminate.
  - reflexivity.
  - intros b o Hb Ho.
    do 4 (destruct b as [| b]; [do 2 (destruct o as [| o]; [qc_neq |]); lia |]). lia.
Defined.

(** X7: on flat samples VJPDiagonal, built with the matrix [H], divides the
    innovation [y − H·x0] by [ratio(t[0]) * diag(H·J·Hᵗ) + noise_std**2]
    entry by entry and pulls [Hᵗ] times the quotient back; the Jacobian [J]
    of every sample is taken at the sample's own time. *)
Theorem VJPDiagonal_closed_form (sqrt : Qc → Qc) (sde : SDE) (H : ndarray)
    (noise_std : Qc) (x y tt : ndarray) (B dy d : nat) :
  shape H = [dy; d] →
  shape x = [B; d] → shape y = [B; dy] → shape tt = [B; 1%nat] → B ≠ 0%nat →
  (∀ b o, (b < B)%nat → (o < dy)%nat →
     diagonal_C_yy sde (entries2 H) noise_std tt d (observed_jac sde (entries2 H) d x tt) b o
     ≠ 0) →
  ∃ out,
    guidance_score sqrt
      (VJPDiagonal_instance (VJPDiagonal.Build sde H y noise_std [B; d])) x tt = Ok out
    ∧ shape out = [B; d]
    ∧ ∀ b j, (b < B)%nat → (j < d)%nat →
        item out [b; j]
        = diagonal_guidance sde (entries2 H) noise_std x y tt dy d
            (observed_jac sde (entries2 H) d x tt) b j.
Proof. intros HH Hx Hy Ht HB _. by apply VJPDiagonal_entries. Qed.

Lemma VJPDiagonal_closed_form_witness :
  ∃ out,
    guidance_score id
      (VJPDiagonal_instance
         (VJPDiagonal.Build shear_sde sum_of_entries scenario_sums (Q2Qc 0.1) [4; 2]%nat))
      scenario_x scenario_t = Ok out
    ∧ shape out = [4; 2]%nat
    ∧ ∀ b j, (b < 4)%nat → (j < 2)%nat →
        item out [b; j]
        = diagonal_guidance shear_sde (entries2 sum_of_entries) (Q2Qc 0.1)
            scenario_x scenario_sums scenario_t 1 2
            (observed_jac shear_sde (entries2 sum_of_entries) 2 scenario_x scenario_t) b j.
Proof.
  apply (VJPDiagonal_closed_form id shear_sde sum_of_entries (Q2Qc 0.1)
           scenario_x scenario_sums scenario_t 4 1 2 eq_refl eq_refl eq_refl eq_refl).
  - discriminate.
  - intros b o Hb Ho.
    do 4 (destruct b as [| b]; [destruct o as [| o]; [qc_neq | lia] |]). lia.
Defined.

Lemma observed_jac_same_time sde (A : nat → nat → Qc) (d : nat) (x tt : ndarray)
    (b o i : nat) :
  item tt [b; 0%nat] = item tt [0; 0]%nat →
  observed_jac sde A d x tt b o i = observed_jac_first sde A d x tt b o i.
Proof.
  intros Hb. unfold observed_jac, observed_jac_first, jac_at, jac_first. by rewrite Hb.
Qed.




(** With two samples at different times and a Jacobian that depends on the
    time, the second sample gets [2/3] from VJPDiagonal and [1/2] from
    JacRevDiagonal. *)
Example diagonal_methods_first_time :
  this <$> to_list (unwrap (guidance_score id
             (VJPDiagonal_instance
                (VJPDiagonal.Build scaling_sde (eye 1) (matrix [[Qc_of_Z 2]; [Qc_of_Z 3]]) 1
                   [2; 1]%nat))
             (matrix [[1]; [1]]) (times [1; Qc_of_Z 2])))
  = [(1 # 2)%Q; (2 # 3)%Q]
  ∧ this <$> to_list (unwrap (guidance_score id
               (JacRevDiagonal_instance
                  (JacRevDiagonal.Build scaling_sde identity_map
                     (matrix [[Qc_of_Z 2]; [Qc_of_Z 3]]) 1 [2; 1]%nat))
               (matrix [[1]; [1]]) (times [1; Qc_of_Z 2])))
    = [(1 # 2)%Q; (1 # 2)%Q].
Proof. split; vm_compute; reflexivity. Qed.

(** ** PIG with a full [HHT] *)

Lemma batch_linalg_solve_A_diagonal (C v : ndarray) (B d : nat) (c : nat → Qc) :
  shape C = [d; d] → shape v = [B; d] →
  (∀ i j, (i < d)%nat → (j < d)%nat → item C [i; j] = if decide (i = j) then c i else 0) →
  (∀ i, (i < d)%nat → c i ≠ 0) →
  ∃ f, batch_linalg_solve_A C v = Ok f
       ∧ shape f = [B; d]
       ∧ ∀ b i, (b < B)%nat → (i < d)%nat → item f [b; i] = item v [b; i] / c i.
Proof.
  intros HC Hv HiC Hc.
  assert (Hdet : det d (entries2 C) = det d (diag_matrix c)).
  { apply det_ext. intros i j Hi Hj. unfold entries2. by rewrite HiC. }
  unfold batch_linalg_solve_A, vmap.
  destruct (batch_map_exists (λ _, linalg_solve C) v B [d] [d]
              (λ b idx w, ∀ i, idx = [i] → (i < d)%nat → w = item v [b; i] / c i) Hv)
    as (f & -> & Hs & Hi).
  { intros b _.
    destruct (linalg_solve_regular C (slice0 v b) d HC) as (r & -> & Hsr & Hir);
      [by cbn [shape slice0]; rewrite Hv
      | rewrite Hdet; by apply det_diag_nonzero |].
    exists r. split; [done |]. split; [done |].
    intros idx i -> Hi. rewrite Hir, Hdet.
    rewrite <- (cramer_diag d i c (λ k, item v [b; k])) by done.
    f_equal. apply det_ext. intros r' k Hr Hk. unfold replace_col, entries2.
    cbn [item slice0]. case_decide; [done |]. by rewrite HiC. }
  exists f. split; [done |]. split; [done |]. intros b i Hb Hi'. by eapply Hi.
Qed.

Section FullPIG.
Context (sqrt : Qc → Qc) (sde : SDE) (h : dfun) (A : nat → nat → Qc) (noise_std : Qc).
Context (x y tt : ndarray) (B dy d : nat).
Hypothesis Hh : linear_observation h A dy d.
Hypothesis Hx : shape x = [B; d].
Hypothesis Hy : shape y = [B; dy].
Hypothesis Ht : shape tt = [B; 1%nat].
Hypothesis HB : B ≠ 0%nat.

Lemma PIG_full_diagonal_entries (HHT : ndarray) (c : Qc) :
  shape HHT = [dy; dy] →
  (∀ i j, (i < dy)%nat → (j < dy)%nat → item HHT [i; j] = if decide (i = j) then c else 0) →
  sde_r2 sde (item tt [0; 0]%nat) 1 * c + noise_std ^ 2 ≠ 0 →
  ∃ out, guidance_score sqrt (PIG_instance (PIG.Build sde h y noise_std HHT)) x tt = Ok out
    ∧ shape out = [B; d]
    ∧ ∀ b j, (b < B)%nat → (j < d)%nat →
        item out [b; j]
        = score_at sde x tt b j
          + sum_n dy (λ o, observed_innovation sde A d x y tt b o
                           / (sde_r2 sde (item tt [0; 0]%nat) 1 * c + noise_std ^ 2)
                           * observed_jac sde A d x tt b o j).
Proof.
  intros HH HiH Hreg. unfold guidance_score. cbn [get_guidance_score_func].
  unfold PIG.get_guidance_score_func. cbn [mbind res_bind].
  unfold PIG.guidance_score, PIG.likelihood_score, PIG.solve_innovation.
  cbn [PIG.sde PIG.observation_map PIG.y PIG.noise_std PIG.HHT].
  destruct (jax_vjp_obs sde h A x tt B dy d Hh Hx Ht HB)
    as (hx & vjp_fun & s & aux & -> & Hshx & Hss & Hihx & His & Hvjp).
  cbn [mbind res_bind].
  destruct (map2_flat Qcminus y hx B dy Hy Hshx) as (v & Hv & Hsv & Hiv).
  unfold sub. rewrite Hv. cbn [mbind res_bind].
  unfold shape1. rewrite Hy. cbn [mbind res_bind].
  rewrite decide_True by done.
  destruct (PIG_full_C_yy_entries (PIG.Build sde h y noise_std HHT) tt B dy Ht HB HH)
    as (C & -> & HsC & HiC).
  cbn [mbind res_bind PIG.sde PIG.HHT PIG.noise_std] in *.
  destruct (batch_linalg_solve_A_diagonal C v B dy
              (λ _, sde_r2 sde (item tt [0; 0]%nat) 1 * c + noise_std ^ 2) HsC Hsv)
    as (f & -> & Hsf & Hif).
  { intros i j Hi Hj. rewrite HiC, HiH by done.
    destruct (decide (i = j)); ring. }
  { intros i _. exact Hreg. }
  cbn [mbind res_bind].
  destruct (Hvjp f Hsf) as (ls & -> & Hsls & Hils). cbn [mbind res_bind].
  destruct (add_flat B d s ls Hss Hsls) as (out & -> & Hso & Hio).
  exists out. split; [done |]. split; [done |].
  intros b j Hb Hj. rewrite Hio, His, Hils by done. f_equal.
  apply sum_n_ext. intros o Ho. rewrite Hif, Hiv, Hihx by done. done.
Qed.
End FullPIG.

(** X9: the two branches of PIG are consistent.  With a full [HHT] that
    is [c] times the identity the batched solve returns what the division
    by the scalar does for an [HHT] of shape [(1,)] holding [c]: the two
    instances return the same array. *)
Theorem PIG_branches_consistent (sqrt : Qc → Qc) (sde : SDE) (h : dfun) (A : nat → nat → Qc)
    (noise_std c : Qc) (HHT HHT1 x y tt : ndarray) (B dy d : nat) :
  linear_observation h A dy d →
  shape x = [B; d] → shape y = [B; dy] → shape tt = [B; 1%nat] → B ≠ 0%nat →
  shape HHT = [dy; dy] →
  (∀ i j, (i < dy)%nat → (j < dy)%nat → item HHT [i; j] = if decide (i = j) then c else 0) →
  shape HHT1 = [1%nat] → item HHT1 [0%nat] = c →
  sde_r2 sde (item tt [0; 0]%nat) 1 * c + noise_std ^ 2 ≠ 0 →
  res_eq (guidance_score sqrt (PIG_instance (PIG.Build sde h y noise_std HHT)) x tt)
         (guidance_score sqrt (PIG_instance (PIG.Build sde h y noise_std HHT1)) x tt).
Proof.
  intros Hh Hx Hy Ht HB HH HiH HH1 Hc Hreg.
  destruct (PIG_full_diagonal_entries sqrt sde h A noise_std x y tt B dy d Hh Hx Hy Ht HB
              HHT c HH HiH Hreg) as (out & -> & Hso & Hio).
  destruct (PIG_scalar_entries sqrt sde h A noise_std x y tt B dy d Hh Hx Hy Ht HB HHT1 HH1)
    as (out' & -> & Hso' & Hio').
  split; [by rewrite Hso, Hso' |].
  intros idx Hv. rewrite Hso in Hv.
  apply valid_index_flat in Hv as (b & j & -> & Hb & Hj).
  rewrite Hio, Hio', Hc by done. done.
Qed.

Lemma PIG_branches_consistent_witness :
  res_eq (guidance_score id
            (PIG_instance (PIG.Build shear_sde identity_map scenario_y (Q2Qc 0.1) (eye 2)))
            scenario_x scenario_t)
         (guidance_score id
            (PIG_instance (PIG.Build shear_sde identity_map scenario_y (Q2Qc 0.1)
                             (vector [1])))
            scenario_x scenario_t).
Proof.
  apply (PIG_branches_consistent id shear_sde identity_map _ (Q2Qc 0.1) 1
           (eye 2) (vector [1]) scenario_x scenario_y scenario_t 4 2 2
           (identity_map_linear 2) eq_refl eq_refl eq_refl).
  - discriminate.
  - reflexivity.
  - intros i j _ _. apply eye_item.
  - reflexivity.
  - reflexivity.
  - qc_neq.
Defined.

(** ** A diagonal Jacobian *)

Lemma sum_n_single (n j : nat) (f : nat → Qc) :
  (j < n)%nat → (∀ k, (k < n)%nat → k ≠ j → f k = 0) → sum_n n f = f j.
Proof.
  intros Hj H.
  rewrite (sum_n_ext n f (λ k, (if decide (j = k) then 1 else 0) * f k)).
  - by apply sum_n_delta_l.
  - intros k Hk. destruct (decide (j = k)) as [-> | Hne]; [ring |].
    rewrite H by (done || congruence). ring.
Qed.

Lemma entries_res_eq (g : res ndarray) (B d : nat) (F : nat → nat → Qc) :
  (∃ out, g = Ok out ∧ shape out = [B; d]
          ∧ ∀ b j, (b < B)%nat → (j < d)%nat → item out [b; j] = F b j) →
  res_eq g (Ok (of_entries B d F)).
Proof.
  intros (out & -> & Hs & Hi). split; [done |].
  intros idx Hv. rewrite Hs in Hv.
  apply valid_index_flat in Hv as (b & j & -> & Hb & Hj). by rewrite Hi.
Qed.

Section DiagonalJacobianFacts.
Context (sqrt : Qc → Qc) (sde : SDE) (noise_std : Qc) (x y tt : ndarray) (B d : nat).
Hypothesis Hx : shape x = [B; d].
Hypothesis Hy : shape y = [B; d].
Hypothesis Ht : shape tt = [B; 1%nat].
Hypothesis HB : B ≠ 0%nat.
Hypothesis Hdiag : diagonal_jacobian sde x tt B d.
Hypothesis Hreg : ∀ b j, (b < B)%nat → (j < d)%nat → entry_variance sde noise_std x tt b j ≠ 0.

Lemma full_method_diagonal (transposed : bool) (g : res ndarray) :
  follows_closed_form sde noise_std x y tt B d transposed g →
  ∃ out, g = Ok out ∧ shape out = [B; d]
         ∧ ∀ b j, (b < B)%nat → (j < d)%nat →
             item out [b; j] = entrywise_guidance sde noise_std x y tt b j.
Proof.
  intros (C & v & HsC & Hsv & HiC & Hiv & _ & Hok).
  destruct (batch_linalg_solve_diagonal C v B d (entry_variance sde noise_std x tt)
              HsC Hsv HB) as (f & Hf & Hsf & Hif).
  { intros b i j Hb Hi Hj. rewrite HiC by done. unfold entry_variance.
    destruct (decide (i = j)) as [-> | Hne].
    - destruct transposed; ring.
    - rewrite !Hdiag by (done || congruence). destruct transposed; ring. }
  { exact Hreg. }
  destruct (Hok f Hf) as (out & -> & Hso & Hio).
  exists out. split; [done |]. split; [done |].
  intros b j Hb Hj. rewrite Hio by done. unfold entrywise_guidance. f_equal.
  rewrite (sum_n_single d j) by (done || (intros k Hk Hne; rewrite Hdiag by done; ring)).
  by rewrite Hif, Hiv.
Qed.

Lemma observed_mean_identity (b o : nat) :
  (o < d)%nat → observed_mean sde (λ o k, if decide (o = k) then 1 else 0) d x tt b o = mean_at sde x tt b o.
Proof. intros Ho. unfold observed_mean. by rewrite sum_n_delta_l. Qed.

Lemma observed_jac_identity (b o i : nat) :
  (o < d)%nat → observed_jac sde (λ o k, if decide (o = k) then 1 else 0) d x tt b o i = jac_at sde x tt b o i.
Proof. intros Ho. unfold observed_jac. by rewrite sum_n_delta_l. Qed.

Lemma mask_diagonal_identity (b p : nat) :
  (b < B)%nat → (p < d)%nat →
  mask_diagonal sde (λ o k, if decide (o = k) then 1 else 0) d d x tt b p = jac_at sde x tt b p p.
Proof.
  intros Hb Hp. unfold mask_diagonal. rewrite sum_n_delta_l by done.
  rewrite (sum_n_single d p).
  - rewrite sum_n_delta_l by done. rewrite observed_jac_identity by done. ring.
  - done.
  - intros o Ho Hne. rewrite observed_jac_identity by done.
    rewrite Hdiag by done. ring.
Qed.

Lemma VJPMask_diagonal :
  ∃ out, guidance_score sqrt
           (VJPMask_instance (VJPMask.Build sde identity_map y noise_std [B; d])) x tt = Ok out
         ∧ shape out = [B; d]
         ∧ ∀ b j, (b < B)%nat → (j < d)%nat →
             item out [b; j] = entrywise_guidance sde noise_std x y tt b j.
Proof.
  destruct (VJPMask_entries sqrt sde identity_map (λ o k, if decide (o = k) then 1 else 0) noise_std x y tt B d d
              (identity_map_linear d) Hx Hy Ht HB [B; d]) as (out & -> & Hso & Hio).
  exists out. split; [done |]. split; [done |].
  intros b j Hb Hj. rewrite Hio by done. unfold entrywise_guidance. f_equal.
  rewrite (sum_n_single d j).
  - unfold observed_innovation.
    rewrite observed_mean_identity, observed_jac_identity, mask_diagonal_identity by done.
    unfold entry_variance. ring.
  - done.
  - intros o Ho Hne. rewrite observed_jac_identity by done.
    rewrite Hdiag by done. ring.
Qed.

Lemma diagonal_guidance_identity (A : nat → nat → Qc) (OJ : nat → nat → nat → Qc) (b j : nat) :
  (b < B)%nat → (j < d)%nat →
  (∀ o k, (o < d)%nat → (k < d)%nat → A o k = if decide (o = k) then 1 else 0) →
  (∀ o i, (o < d)%nat → OJ b o i = jac_at sde x tt b o i) →
  diagonal_guidance sde A noise_std x y tt d d OJ b j
  = entrywise_guidance sde noise_std x y tt b j.
Proof.
  intros Hb Hj HA HOJ. unfold diagonal_guidance, entrywise_guidance. f_equal.
  rewrite (sum_n_single d j).
  - rewrite HOJ by done. f_equal. unfold Qcdiv. rewrite Qcmult_1_l. f_equal.
    + unfold observed_innovation, observed_mean. f_equal.
      rewrite (sum_n_ext d _ (λ k, (if decide (j = k) then 1 else 0) * mean_at sde x tt b k))
        by (intros k Hk; by rewrite HA).
      by rewrite sum_n_delta_l.
    + f_equal. unfold diagonal_C_yy, entry_variance, second_moment_diagonal.
      f_equal. f_equal.
      rewrite (sum_n_ext d _ (λ k, (if decide (j = k) then 1 else 0) * jac_at sde x tt b j k))
        by (intros k Hk; by rewrite HA, HOJ).
      by rewrite sum_n_delta_l.
  - done.
  - intros o Ho Hne. rewrite HOJ by done. rewrite Hdiag by done. ring.
Qed.

Hypothesis Htime : same_times tt B.

Lemma diagonal_methods_diagonal (m : method) :
  m = JacRevDiagonal_instance (JacRevDiagonal.Build sde identity_map y noise_std [B; d])
  ∨ m = JacFwdDiagonal_instance (JacFwdDiagonal.Build sde identity_map y noise_std [B; d])
  ∨ m = VJPDiagonal_instance (VJPDiagonal.Build sde (eye d) y noise_std [B; d]) →
  ∃ out, guidance_score sqrt m x tt = Ok out
         ∧ shape out = [B; d]
         ∧ ∀ b j, (b < B)%nat → (j < d)%nat →
             item out [b; j] = entrywise_guidance sde noise_std x y tt b j.
Proof.
  intros [-> | [-> | ->]].
  - destruct (JacRevDiagonal_entries sqrt sde identity_map (λ o k, if decide (o = k) then 1 else 0) noise_std x y tt B d d
                [B; d] (identity_map_linear d) Hx Hy Ht HB eq_refl)
      as (out & -> & Hso & Hio).
    exists out. split; [done |]. split; [done |].
    intros b j Hb Hj. rewrite Hio by done.
    apply diagonal_guidance_identity; [done | done | done |].
    intros o i Ho. rewrite <- observed_jac_same_time by (by apply Htime).
    by apply observed_jac_identity.
  - destruct (JacFwdDiagonal_entries sqrt sde identity_map (λ o k, if decide (o = k) then 1 else 0) noise_std x y tt B d d
                [B; d] (identity_map_linear d) Hx Hy Ht HB eq_refl)
      as (out & -> & Hso & Hio).
    exists out. split; [done |]. split; [done |].
    intros b j Hb Hj. rewrite Hio by done.
    apply diagonal_guidance_identity; [done | done | done |].
    intros o i Ho. rewrite <- observed_jac_same_time by (by apply Htime).
    by apply observed_jac_identity.
  - destruct (VJPDiagonal_entries sqrt sde (eye d) noise_std x y tt B d d eq_refl
                Hx Hy Ht HB) as (out & -> & Hso & Hio).
    exists out. split; [done |]. split; [done |].
    intros b j Hb Hj. rewrite Hio by done.
    apply diagonal_guidance_identity; [done | done | |].
    + intros o k _ _. apply eye_item.
    + intros o i Ho. unfold observed_jac.
      exact (sum_eye_l d o (λ k, jac_at sde x tt b k i) Ho).
Qed.
End DiagonalJacobianFacts.

(** X10: for flat samples observed entirely ([H = I], identity map), when
    the Jacobian of the estimate of every sample is diagonal and all samples
    have the time of the first one, the eight methods that build a
    covariance from the Jacobian — VJP, VJPAlt, JacRev, JacFwd, VJPMask and
    the three diagonal ones — return the same array: entry by entry the
    score plus [J_jj * (y − x0)_j / (ratio(t[0]) * J_jj + noise_std**2)]. *)
Theorem covariance_methods_agree_on_diagonal (sqrt : Qc → Qc) (sde : SDE) (noise_std : Qc)
    (x y tt : ndarray) (B d : nat) :
  shape x = [B; d] → shape y = [B; d] → shape tt = [B; 1%nat] → B ≠ 0%nat →
  diagonal_jacobian sde x tt B d → same_times tt B →
  (∀ b j, (b < B)%nat → (j < d)%nat → entry_variance sde noise_std x tt b j ≠ 0) →
  Forall (λ m, res_eq (guidance_score sqrt m x tt)
                      (Ok (of_entries B d (entrywise_guidance sde noise_std x y tt))))
         (covariance_methods sde noise_std y B d).
Proof.
  intros Hx Hy Ht HB Hdiag Htime Hreg. unfold covariance_methods.
  repeat apply Forall_cons_2; try apply Forall_nil_2; apply entries_res_eq.
  - eapply full_method_diagonal; try done. by apply VJP_follows.
  - eapply full_method_diagonal; try done. by apply VJPAlt_follows.
  - eapply full_method_diagonal; try done. by apply JacRev_follows.
  - eapply full_method_diagonal; try done. by apply JacFwd_follows.
  - by apply VJPMask_diagonal.
  - apply diagonal_methods_diagonal; auto.
  - apply diagonal_methods_diagonal; auto.
  - apply diagonal_methods_diagonal; auto.
Qed.

Lemma covariance_methods_agree_on_diagonal_witness :
  Forall (λ m, res_eq (guidance_score id m (matrix [[1; 1]; [Qc_of_Z 2; 0]])
                         (times [Qc_of_Z 2; Qc_of_Z 2]))
                      (Ok (of_entries 2 2
                             (entrywise_guidance scaling_sde 1
                                (matrix [[1; 1]; [Qc_of_Z 2; 0]])
                                (matrix [[Qc_of_Z 3; 0]; [1; 1]])
                                (times [Qc_of_Z 2; Qc_of_Z 2])))))
         (covariance_methods scaling_sde 1 (matrix [[Qc_of_Z 3; 0]; [1; 1]]) 2 2).
Proof.
  apply (covariance_methods_agree_on_diagonal id scaling_sde 1
           (matrix [[1; 1]; [Qc_of_Z 2; 0]]) (matrix [[Qc_of_Z 3; 0]; [1; 1]])
           (times [Qc_of_Z 2; Qc_of_Z 2]) 2 2 eq_refl eq_refl eq_refl).
  - discriminate.
  - intros b o i Hb Ho Hi Hne.
    do 2 (destruct b as [| b];
          [do 2 (destruct o as [| o];
                 [do 2 (destruct i as [| i]; [done || reflexivity |]); lia |]); lia |]).
    lia.
  - intros b Hb. do 2 (destruct b as [| b]; [reflexivity |]). lia.
  - intros b j Hb Hj.
    do 2 (destruct b as [| b]; [do 2 (destruct j as [| j]; [qc_neq |]); lia |]). lia.
Defined.

(** * The score network *)

Lemma Linear_call_shape (self : Linear.t) (x : ndarray) (i o : nat) :
  Linear.has_features self i o → shape x = [i] →
  ∃ r, Linear.__call__ self x = Ok r ∧ shape r = [o].
Proof.
  intros [HW Hb] Hx. unfold Linear.__call__.
  destruct (matmul_vector (Linear.weight self) x o i HW Hx) as (r & -> & Hs & _).
  cbn [mbind res_bind]. unfold add.
  rewrite (map2_bc_eval _ r _ [o]) by (rewrite Hs, Hb; apply broadcast_shapes_same).
  eexists. split; [reflexivity | done].
Qed.

Lemma t_fourier_shape cos sin pi (tt : ndarray) :
  shape tt = [1%nat] →
  ∃ r, FullyConnectedWithTime.t_fourier cos sin pi tt = Ok r ∧ shape r = [4%nat].
Proof.
  intros Ht. unfold FullyConnectedWithTime.t_fourier, jnp_array.
  rewrite bool_decide_true by (repeat constructor).
  cbn [mbind res_bind]. unfold squeeze_last. cbn [shape map_arr length]. rewrite Ht.
  cbn. eexists. split; [reflexivity | done].
Qed.

Lemma concatenate_vectors (a b : ndarray) (n m : nat) :
  shape a = [n] → shape b = [m] →
  ∃ r, concatenate a b = Ok r ∧ shape r = [(n + m)%nat].
Proof.
  intros Ha Hb. unfold concatenate. rewrite Ha, Hb, decide_True by done.
  eexists. split; [reflexivity | done].
Qed.

Lemma relu_shape (a : ndarray) : shape (relu a) = shape a.
Proof. done. Qed.

Lemma network_call_shape {Key : Type} (split4 : Key → Key * Key * Key * Key)
    (linear : nat → nat → Key → Linear.t) (cos sin : Qc → Qc) (pi : Qc)
    (in_size : nat) (key : Key) (x tt : ndarray) :
  (∀ i o k, Linear.has_features (linear i o k) i o) →
  shape x = [in_size] → shape tt = [1%nat] →
  ∃ out,
    FullyConnectedWithTime.__call__ cos sin pi
      (FullyConnectedWithTime.__init__ split4 linear in_size key) x tt = Ok out
    ∧ shape out = [in_size].
Proof.
  intros Hlin Hx Ht. unfold FullyConnectedWithTime.__call__, FullyConnectedWithTime.__init__.
  destruct (split4 key) as [[[key1 key2] key3] key4].
  destruct (t_fourier_shape cos sin pi tt Ht) as (tf & -> & Htf). cbn [mbind res_bind].
  destruct (concatenate_vectors x tf in_size 4 Hx Htf) as (x1 & -> & Hx1).
  cbn [mbind res_bind FullyConnectedWithTime.layers removelast last
       FullyConnectedWithTime.hidden].
  destruct (Linear_call_shape _ x1 _ _ (Hlin (in_size + 4)%nat 256%nat key1) Hx1)
    as (x2 & -> & Hx2).
  cbn [mbind res_bind].
  destruct (Linear_call_shape _ (relu x2) _ _ (Hlin 256%nat 256%nat key2) Hx2)
    as (x3 & -> & Hx3).
  cbn [mbind res_bind].
  destruct (Linear_call_shape _ (relu x3) _ _ (Hlin 256%nat 256%nat key3) Hx3)
    as (x4 & -> & Hx4).
  cbn [mbind res_bind].
  exact (Linear_call_shape _ (relu x4) _ _ (Hlin 256%nat in_size key4) Hx4).
Qed.

(** X11: a network built by [__init__] for [in_size] entries accepts a
    sample of shape [(in_size,)] with a time of shape [(1,)] and returns an
    array of shape [(in_size,)]: the four features of the time make up the
    [in_size + 4] inputs of the first layer, and the layers fit one on the
    other. *)
Theorem network_output_shape {Key : Type} (split4 : Key → Key * Key * Key * Key)
    (linear : nat → nat → Key → Linear.t) (cos sin : Qc → Qc) (pi : Qc)
    (in_size : nat) (key : Key) (x tt : ndarray) :
  (∀ i o k, Linear.has_features (linear i o k) i o) →
  shape x = [in_size] → shape tt = [1%nat] →
  ∃ out,
    FullyConnectedWithTime.__call__ cos sin pi
      (FullyConnectedWithTime.__init__ split4 linear in_size key) x tt = Ok out
    ∧ shape out = [in_size].
Proof.
  intros Hlin Hx Ht. by apply network_call_shape.
Qed.

Lemma network_output_shape_witness :
  ∃ out,
    FullyConnectedWithTime.__call__ id id 0
      (FullyConnectedWithTime.__init__ (λ _ : unit, ((), (), (), ())) zero_linear 2 ())
      (vector [1; 0]) (vector [Q2Qc 0.5]) = Ok out
    ∧ shape out = [2%nat].
Proof.
  apply (network_output_shape (λ _ : unit, ((), (), (), ())) zero_linear id id 0 2 ()
           (vector [1; 0]) (vector [Q2Qc 0.5])).
  - intros i o k. split; reflexivity.
  - reflexivity.
  - reflexivity.
Defined.

(** X12: the time has to be an array with one axis of size one.  A
    zero-dimensional time, or a vector of another length, makes
    [squeeze(-1)] fail with a ValueError before the layers are reached,
    whatever the network and the sample. *)
Theorem network_time_shape (cos sin : Qc → Qc) (pi : Qc)
    (self : FullyConnectedWithTime.t) (x tt : ndarray) :
  shape tt = [] ∨ (∃ k, shape tt = [k] ∧ k ≠ 1%nat) →
  FullyConnectedWithTime.__call__ cos sin pi self x tt = Raise ValueError.
Proof.
  intros Ht. unfold FullyConnectedWithTime.__call__, FullyConnectedWithTime.t_fourier, jnp_array.
  rewrite bool_decide_true by (repeat constructor).
  cbn [mbind res_bind]. unfold squeeze_last. cbn [shape map_arr length].
  destruct Ht as [-> | (k & -> & Hk)]; [done |].
  cbn. destruct k as [| [| k]]; done.
Qed.

Lemma network_time_shape_witness :
  FullyConnectedWithTime.__call__ id id 0
    (FullyConnectedWithTime.__init__ (λ _ : unit, ((), (), (), ())) zero_linear 2 ())
    (vector [1; 0]) (scalar (Q2Qc 0.5)) = Raise ValueError.
Proof.
  apply (network_time_shape id id 0 _ (vector [1; 0]) (scalar (Q2Qc 0.5))).
  left. reflexivity.
Defined.

(** * The loss *)

Lemma Qc_mult_nonneg (a b : Qc) : 0 ≤ a → 0 ≤ b → 0 ≤ a * b.
Proof.
  unfold Qcle. intros Ha Hb. change (0 <= Qred (this a * this b))%Q.
  rewrite (Qred_correct (this a * this b)). by apply Qmult_le_0_compat.
Qed.

Lemma Qc_square_nonneg (v : Qc) : 0 ≤ v ^ 2.
Proof.
  cbn [Qcpower]. rewrite Qcmult_1_r.
  destruct (Qclt_le_dec v 0) as [Hneg | Hpos].
  - replace (v * v) with ((- v) * (- v)) by ring.
    assert (0 ≤ - v) by (apply Qclt_le_weak in Hneg; by apply Qcopp_le_compat in Hneg).
    by apply Qc_mult_nonneg.
  - by apply Qc_mult_nonneg.
Qed.

Lemma Qc_inv_nonneg (a : Qc) : 0 ≤ a → 0 ≤ / a.
Proof.
  unfold Qcle. intros Ha. change (0 <= Qred (/ this a))%Q.
  rewrite (Qred_correct (/ this a)). by apply Qinv_le_0_compat.
Qed.

Lemma Qc_plus_nonneg (a b : Qc) : 0 ≤ a → 0 ≤ b → 0 ≤ a + b.
Proof.
  intros Ha Hb. rewrite <- (Qcplus_0_l 0). by apply Qcplus_le_compat.
Qed.

Lemma Qc_of_nat_nonneg (n : nat) : 0 ≤ Qc_of_Z (Z.of_nat n).
Proof.
  unfold Qcle, Qc_of_Z. cbn [this]. change (0 <= inject_Z (Z.of_nat n))%Q.
  unfold Qle. cbn [Qnum Qden inject_Z]. lia.
Qed.

Lemma qsum_nonneg (l : list Qc) : Forall (λ v, 0 ≤ v) l → 0 ≤ qsum l.
Proof.
  induction 1 as [| v l Hv Hl IH]; [apply Qcle_refl |].
  cbn [qsum foldr]. by apply Qc_plus_nonneg.
Qed.

Lemma mean_of_squares_nonneg (a : ndarray) :
  0 ≤ item (mean (map_arr (λ v, v ^ 2) a)) [].
Proof.
  cbn [item mean scalar shape map_arr]. unfold Qcdiv. apply Qc_mult_nonneg.
  - unfold sum_over. apply qsum_nonneg. apply Forall_fmap, Forall_forall.
    intros idx _. apply Qc_square_nonneg.
  - apply Qc_inv_nonneg, Qc_of_nat_nonneg.
Qed.

Lemma broadcast_shapes_column (B d : nat) :
  broadcast_shapes [B; d] [B; 1%nat] = Ok [B; d].
Proof.
  unfold broadcast_shapes. cbn. rewrite decide_True by done. cbn.
  repeat case_decide; subst; done.
Qed.

Lemma map2_column op (a c : ndarray) (B d : nat) :
  shape a = [B; d] → shape c = [B; 1%nat] →
  ∃ r, map2_bc op a c = Ok r ∧ shape r = [B; d].
Proof.
  intros Ha Hc.
  rewrite (map2_bc_eval _ a c [B; d]) by (rewrite Ha, Hc; apply broadcast_shapes_column).
  eexists. split; [reflexivity | done].
Qed.

(** X13: on a batch of shape [(B, d)] holding at least one entry, with a
    network built by [__init__] for [d] entries, the loss is computed
    without a shape error — every sample meets its own drawn
    [alpha_bar] as a time of shape [(1,)] — and is a zero-dimensional array
    that is not negative. *)
Theorem loss_is_nonnegative_scalar {Key : Type} (split2 : Key → Key * Key)
    (split4 : Key → Key * Key * Key * Key) (linear : nat → nat → Key → Linear.t)
    (choice : Key → ndarray → list nat → ndarray) (normal : Key → list nat → ndarray)
    (sqrt cos sin : Qc → Qc) (pi : Qc)
    (key rng : Key) (data alpha_bar : ndarray) (B d : nat) :
  (∀ i o k, Linear.has_features (linear i o k) i o) →
  (∀ k a sh, shape (choice k a sh) = sh) →
  (∀ k sh, shape (normal k sh) = sh) →
  shape data = [B; d] → B ≠ 0%nat → d ≠ 0%nat →
  ∃ v, loss_value split2 choice normal sqrt cos sin pi
         (FullyConnectedWithTime.__init__ split4 linear d key) data alpha_bar rng = Ok v
       ∧ shape v = []
       ∧ 0 ≤ item v [].
Proof.
  intros Hlin Hchoice Hnormal Hdata HB _. unfold loss_value.
  destruct (split2 rng) as [key1 key2]. rewrite Hdata. cbn [shape0 mbind res_bind].
  cbv zeta.
  destruct (map2_column Qcmult data (map_arr sqrt (choice key1 alpha_bar [B; 1%nat])) B d
              Hdata (Hchoice _ _ _)) as (signal & Hsignal & Hss).
  unfold mul. rewrite Hsignal. cbn [mbind res_bind].
  destruct (map2_column Qcmult (normal key2 [B; d])
              (map_arr (λ v, sqrt (1 - v)) (choice key1 alpha_bar [B; 1%nat])) B d
              (Hnormal _ _) (Hchoice _ _ _)) as (blur & Hblur & Hsb).
  rewrite Hblur. cbn [mbind res_bind].
  destruct (map2_flat Qcplus signal blur B d Hss Hsb) as (noised & Hnoised & Hsn & _).
  unfold add. rewrite Hnoised. cbn [mbind res_bind].
  unfold vmap2. rewrite Hchoice, Hsn. cbn [hd_error]. rewrite decide_True by done.
  destruct (batch_map_exists
              (λ i ai, FullyConnectedWithTime.__call__ cos sin pi
                         (FullyConnectedWithTime.__init__ split4 linear d key) ai
                         (slice0 (choice key1 alpha_bar [B; 1%nat]) i))
              noised B [d] [d] (λ _ _ _, True) Hsn) as (output & -> & Hso & _).
  { intros b _.
    destruct (network_call_shape split4 linear cos sin pi d key (slice0 noised b)
                (slice0 (choice key1 alpha_bar [B; 1%nat]) b) Hlin)
      as (out & -> & Hout).
    - cbn [shape slice0]. by rewrite Hsn.
    - cbn [shape slice0]. by rewrite Hchoice.
    - by exists out. }
  cbn [mbind res_bind].
  destruct (map2_flat Qcminus (normal key2 [B; d]) output B d (Hnormal _ _) Hso)
    as (residual & Hres & _ & _).
  unfold sub. rewrite Hres. cbn [mbind res_bind].
  eexists. split; [reflexivity |]. split; [done |]. apply mean_of_squares_nonneg.
Qed.

Lemma loss_is_nonnegative_scalar_witness :
  ∃ v, loss_value (λ _ : unit, ((), ())) choose_first constant_noise id id id 0
         (FullyConnectedWithTime.__init__ (λ _ : unit, ((), (), (), ())) zero_linear 2 ())
         scenario_x (vector [Q2Qc 0.5]) () = Ok v
       ∧ shape v = []
       ∧ 0 ≤ item v [].
Proof.
  apply (loss_is_nonnegative_scalar (λ _ : unit, ((), ())) (λ _ : unit, ((), (), (), ()))
           zero_linear choose_first constant_noise id id id 0 () ()
           scenario_x (vector [Q2Qc 0.5]) 4 2).
  - intros i o k. split; reflexivity.
  - reflexivity.
  - reflexivity.
  - reflexivity.
  - discriminate.
  - discriminate.
Defined.

(** * The training loop *)

Lemma mean_loss_ok (l : list ndarray) :
  l ≠ [] → Forall (λ v, shape v = []) l → ∃ m, mean_loss l = Ok m.
Proof.
  intros Hne Hl. unfold mean_loss, jnp_array. destruct l as [| a l]; [done |].
  rewrite bool_decide_true.
  - eexists. reflexivity.
  - inversion Hl as [| ? ? Ha Hl']; subst. rewrite Ha. exact Hl.
Qed.

Section FitFacts.
Context {Model Params Grads Updates OptState Key : Type}.
Context (split2 : Key → Key * Key).
Context (loss : Model → ndarray → ndarray → Key → res (ndarray * Grads)).
Context (filter_arrays : Model → Params) (apply_updates : Model → Updates → Model).
Context (optimizer : GradientTransformation.t Model Params Grads Updates OptState).
Context (data alpha_bar : ndarray) (steps print_every : Z).

Hypothesis Hloss : ∀ m k, ∃ v g, loss m data alpha_bar k = Ok (v, g) ∧ shape v = [].
Hypothesis Hpe : print_every ≠ 0%Z.

Lemma fit_step_ok (step : Z) (st : fit_state (Model:=Model) (OptState:=OptState) (Key:=Key)) :
  Forall (λ v, shape v = []) (fit_losses st) →
  ∃ st' v,
    fit_step split2 loss apply_updates optimizer data alpha_bar steps print_every step st
    = inr st'
    ∧ shape v = []
    ∧ fit_losses st' = fit_losses st ++ [v]
    ∧ ((prints steps print_every step
        ∧ ∃ m, mean_loss (fit_losses st') = Ok m
               ∧ fit_printed st' = fit_printed st ++ [(step, m)])
       ∨ (¬ prints steps print_every step ∧ fit_printed st' = fit_printed st)).
Proof.
  intros Hl. unfold fit_step, make_step.
  destruct (split2 (fit_rng st)) as [step_rng rng].
  destruct (Hloss (fit_model st) step_rng) as (v & g & -> & Hv).
  cbn [mbind res_bind].
  destruct (GradientTransformation.update optimizer g (fit_opt_state st) (fit_model st))
    as [updates opt_state].
  rewrite decide_False by done.
  destruct (bool_decide _) eqn:Hp.
  - apply bool_decide_eq_true in Hp.
    destruct (mean_loss_ok (fit_losses st ++ [v])) as (m & Hm).
    { by destruct (fit_losses st). }
    { apply Forall_app. split; [done | by constructor]. }
    rewrite Hm. eexists _, v. split; [reflexivity |]. split; [done |].
    cbn [fit_losses fit_printed]. split; [done |]. left. split; [done |]. by exists m.
  - apply bool_decide_eq_false in Hp.
    eexists _, v. split; [reflexivity |]. split; [done |].
    cbn [fit_losses fit_printed]. split; [done |]. by right.
Qed.

Lemma fit_loop_invariant (n a : nat)
    (st : fit_state (Model:=Model) (OptState:=OptState) (Key:=Key)) :
  length (fit_losses st) = a →
  Forall (λ v, shape v = []) (fit_losses st) →
  ∃ st',
    fit_loop split2 loss apply_updates optimizer data alpha_bar steps print_every
      (Z.of_nat <$> seq a n) st = inr st'
    ∧ length (fit_losses st') = (a + n)%nat
    ∧ take a (fit_losses st') = fit_losses st
    ∧ Forall (λ v, shape v = []) (fit_losses st')
    ∧ (fit_printed st').*1
      = (fit_printed st).*1 ++ filter (prints steps print_every) (Z.of_nat <$> seq a n)
    ∧ ∀ s m, (s, m) ∈ fit_printed st' →
        (s, m) ∈ fit_printed st
        ∨ mean_loss (take (Z.to_nat s + 1) (fit_losses st')) = Ok m.
Proof.
  revert a st. induction n as [| n IH]; intros a st Ha Hl.
  - exists st. cbn [seq fmap list_fmap fit_loop]. split; [done |].
    split; [lia |]. split; [by rewrite take_ge by lia |]. split; [done |].
    split; [by rewrite filter_nil, app_nil_r |]. by left.
  - cbn [seq fmap list_fmap fit_loop].
    change (list_fmap nat Z Z.of_nat ?l) with (Z.of_nat <$> l).
    destruct (fit_step_ok (Z.of_nat a) st Hl) as (st1 & v & -> & Hv & Hl1 & Hp1).
    assert (Hlen1 : length (fit_losses st1) = S a)
      by (rewrite Hl1, length_app; cbn; lia).
    assert (Hall1 : Forall (λ v, shape v = []) (fit_losses st1))
      by (rewrite Hl1; apply Forall_app; split; [done | by constructor]).
    destruct (IH (S a) st1 Hlen1 Hall1) as (st' & -> & Hlen & Htake & Hall & Hpr & Hmean).
    exists st'. split; [done |]. split; [lia |]. split.
    { replace a with (a `min` S a)%nat at 1 by lia.
      rewrite <- take_take, Htake, Hl1. by rewrite take_app_length'. }
    split; [done |]. split.
    { rewrite Hpr. destruct Hp1 as [(Hp & m & _ & ->) | (Hp & ->)].
      - rewrite fmap_app, <- app_assoc. cbn [fmap list_fmap fst app].
        by rewrite filter_cons_True.
      - by rewrite filter_cons_False. }
    intros s m Hin. destruct (Hmean s m Hin) as [Hin1 | Hm]; [| by right].
    destruct Hp1 as [(Hp & m1 & Hm1 & Hpr1) | (Hp & Hpr1)]; rewrite Hpr1 in Hin1.
    + apply elem_of_app in Hin1 as [Hin1 | Hin1]; [by left |].
      apply list_elem_of_singleton in Hin1. injection Hin1 as -> ->. right.
      rewrite Nat2Z.id. replace (a + 1)%nat with (S a) by lia. by rewrite Htake.
    + by left.
Qed.
End FitFacts.

Lemma range_nonpositive (n : Z) : (n ≤ 0)%Z → range n = [].
Proof. intros Hn. unfold range. by replace (Z.to_nat n) with 0%nat by lia. Qed.

Lemma elem_of_range (n s : Z) : s ∈ range n ↔ (0 ≤ s < n)%Z.
Proof.
  unfold range. rewrite list_elem_of_fmap. split.
  - intros (k & -> & Hk%elem_of_seq). lia.
  - intros Hs. exists (Z.to_nat s). split; [lia |]. apply elem_of_seq. lia.
Qed.

(** X14: [fit] on its edge inputs.  With [steps] zero or negative the loop
    body never runs and the model comes back as it was given, whatever
    [print_every] is; with [print_every = 0] and at least one step, the
    first step computes its update and then [step % print_every] raises
    ZeroDivisionError, so no model is returned. *)
Theorem fit_edge_cases {Model Params Grads Updates OptState Key : Type}
    (split2 : Key → Key * Key)
    (loss : Model → ndarray → ndarray → Key → res (ndarray * Grads))
    (filter_arrays : Model → Params) (apply_updates : Model → Updates → Model)
    (optimizer : GradientTransformation.t Model Params Grads Updates OptState)
    (model : Model) (data alpha_bar : ndarray) (rng : Key) (steps print_every : Z) :
  ((steps ≤ 0)%Z →
     fit split2 loss filter_arrays apply_updates model steps optimizer data alpha_bar rng
       print_every = inr model)
  ∧ ((1 ≤ steps)%Z → is_ok (loss model data alpha_bar (split2 rng).1) →
     fit split2 loss filter_arrays apply_updates model steps optimizer data alpha_bar rng 0
     = inl ZeroDivisionError).
Proof.
  split.
  - intros Hs. unfold fit, fit_run. by rewrite range_nonpositive.
  - intros Hs Hok. unfold fit, fit_run, range.
    replace (Z.to_nat steps) with (S (Z.to_nat (steps - 1))) by lia.
    cbn [seq fmap list_fmap fit_loop]. unfold fit_step, make_step. cbn [fit_rng fit_model].
    destruct (split2 rng) as [step_rng rng']. cbn [fst] in Hok.
    destruct (loss model data alpha_bar step_rng) as [[v g] | e]; [| done].
    cbn [mbind res_bind fit_opt_state].
    destruct (GradientTransformation.update optimizer g _ model) as [updates opt_state].
    by rewrite decide_True.
Qed.

Lemma fit_edge_cases_witness :
  counting_fit (-2) 0 = inr 0%nat ∧ counting_fit 3 0 = inl ZeroDivisionError.
Proof.
  pose proof (fit_edge_cases (λ key : nat, (key, S key)) counting_loss id Nat.add
                counting_optimizer 0%nat (scalar 0) (scalar 0) 0%nat (-2) 0) as [Hnone _].
  pose proof (fit_edge_cases (λ key : nat, (key, S key)) counting_loss id Nat.add
                counting_optimizer 0%nat (scalar 0) (scalar 0) 0%nat 3 0) as [_ Hzero].
  split.
  - apply Hnone. lia.
  - apply Hzero; [lia | exact I].
Defined.

(** X15: when the loss never fails and is a zero-dimensional array, and
    [print_every] is not zero, [fit] returns after exactly [steps] steps.
    A line is printed at the steps that are multiples of [print_every] and
    at the last step, in order, so with at least one step the first and the
    last step are always printed; the average printed at a step is the
    mean of the losses of all the steps so far, from the first one on. *)
Theorem fit_prints_running_average {Model Params Grads Updates OptState Key : Type}
    (split2 : Key → Key * Key)
    (loss : Model → ndarray → ndarray → Key → res (ndarray * Grads))
    (filter_arrays : Model → Params) (apply_updates : Model → Updates → Model)
    (optimizer : GradientTransformation.t Model Params Grads Updates OptState)
    (model : Model) (data alpha_bar : ndarray) (rng : Key) (steps print_every : Z) :
  (∀ m k, ∃ v g, loss m data alpha_bar k = Ok (v, g) ∧ shape v = []) →
  print_every ≠ 0%Z →
  ∃ st,
    fit_run split2 loss filter_arrays apply_updates model steps optimizer data alpha_bar rng
      print_every = inr st
    ∧ fit split2 loss filter_arrays apply_updates model steps optimizer data alpha_bar rng
        print_every = inr (fit_model st)
    ∧ length (fit_losses st) = Z.to_nat steps
    ∧ (fit_printed st).*1 = filter (prints steps print_every) (range steps)
    ∧ (∀ s m, (s, m) ∈ fit_printed st →
         mean_loss (take (Z.to_nat s + 1) (fit_losses st)) = Ok m)
    ∧ ((1 ≤ steps)%Z → 0%Z ∈ (fit_printed st).*1 ∧ (steps - 1)%Z ∈ (fit_printed st).*1).
Proof.
  intros Hloss Hpe. unfold fit, fit_run, range.
  destruct (fit_loop_invariant split2 loss apply_updates optimizer data alpha_bar steps
              print_every Hloss Hpe (Z.to_nat steps) 0
              (FitState model (GradientTransformation.init optimizer (filter_arrays model))
                 rng [] []) eq_refl (Forall_nil_2 _))
    as (st & Hrun & Hlen & _ & _ & Hpr & Hmean).
  exists st. rewrite Hrun. split; [done |]. split; [done |]. split; [done |].
  cbn [fit_printed fmap list_fmap app] in Hpr. split; [exact Hpr |]. split.
  - intros s m Hin. destruct (Hmean s m Hin) as [Hin' | Hm]; [| done].
    by apply elem_of_nil in Hin'.
  - intros Hs. rewrite Hpr. split; apply list_elem_of_filter.
    + split; [left; apply Z.mod_0_l; done | apply (elem_of_range steps); lia].
    + split; [by right | apply (elem_of_range steps); lia].
Qed.

Lemma fit_prints_running_average_witness :
  ∃ st,
    counting_run 5 2 = inr st
    ∧ counting_fit 5 2 = inr (fit_model st)
    ∧ length (fit_losses st) = 5%nat
    ∧ (fit_printed st).*1 = [0; 2; 4]%Z
    ∧ (∀ s m, (s, m) ∈ fit_printed st →
         mean_loss (take (Z.to_nat s + 1) (fit_losses st)) = Ok m)
    ∧ ((1 ≤ 5)%Z → 0%Z ∈ (fit_printed st).*1 ∧ (5 - 1)%Z ∈ (fit_printed st).*1).
Proof.
  apply (fit_prints_running_average (λ key : nat, (key, S key)) counting_loss id Nat.add
           counting_optimizer 0%nat (scalar 0) (scalar 0) 0%nat 5 2).
  - intros m k. eexists _, _. split; reflexivity.
  - discriminate.
Defined.

(** The run of the example: five steps, a line every second step; the
    losses are 0, 1, 2, 3, 4 and the averages printed are 0, 1 and 2. *)
Example counting_fit_run :
  counting_fit 5 2 = inr 5%nat
  ∧ match counting_run 5 2 with
    | inr st => (λ p, (p.1, this (item p.2 []))) <$> fit_printed st
    | inl _ => []
    end = [(0%Z, 0%Q); (2%Z, 1%Q); (4%Z, 2%Q)].
Proof. split; vm_compute; reflexivity. Qed.

(** * More on the registry *)

Lemma value_inj (n m : ConditioningMethodName) : value n = value m → n = m.
Proof. destruct n, m; intros H; try reflexivity; discriminate H. Qed.

Lemma bindings_keys (l : list (ConditioningMethodName * Class.t)) :
  (bindings l).*1 = value <$> l.*1.
Proof. unfold bindings. rewrite <- !list_fmap_compose. done. Qed.

Lemma run_decorations_distinct (l : list (ConditioningMethodName * Class.t))
    (d : gmap string Class.t) :
  NoDup l.*1 → (∀ n, n ∈ l.*1 → d !! value n = None) →
  run_decorations l d = (Ok (), list_to_map (bindings l) ∪ d).
Proof.
  revert d. induction l as [| [n c] l IH]; intros d Hnd Hfree.
  - cbn. by rewrite (left_id_L ∅ (∪)).
  - cbn [run_decorations fmap list_fmap fst] in *.
    apply NoDup_cons in Hnd as [Hn Hnd].
    rewrite register_fresh by (apply Hfree; left).
    rewrite IH; [| done |].
    + f_equal. cbn [bindings fmap list_fmap fst snd list_to_map foldr uncurry].
      change (foldr _ ∅ ?l') with (list_to_map l' : gmap string Class.t).
      change (list_fmap _ _ _ l) with (bindings l).
      assert (Hnone : (list_to_map (bindings l) : gmap string Class.t) !! value n = None).
      { apply not_elem_of_list_to_map_1. rewrite bindings_keys.
        intros (m & Hm%value_inj & Hin)%list_elem_of_fmap. by subst. }
      rewrite <- insert_union_r by done. by rewrite insert_union_l.
    + intros m Hm. rewrite lookup_insert_ne; [apply Hfree; by right |].
      intros Heq%value_inj. by subst.
Qed.

Lemma run_decorations_clash (l : list (ConditioningMethodName * Class.t))
    (d : gmap string Class.t) :
  ¬ NoDup l.*1 ∨ (∃ n, n ∈ l.*1 ∧ is_Some (d !! value n)) →
  ∃ n d', n ∈ l.*1
          ∧ run_decorations l d
            = (Raise (NameError ("Name " +:+ value n +:+ " is already registered!")), d').
Proof.
  revert d. induction l as [| [n c] l IH]; intros d H.
  - destruct H as [H | (n & Hn & _)]; [destruct H; constructor | by apply elem_of_nil in Hn].
  - cbn [run_decorations fmap list_fmap fst] in *.
    destruct (d !! value n) as [old |] eqn:Hd.
    + exists n, d. split; [left |]. by rewrite (register_bound _ _ old).
    + rewrite register_fresh by done.
      destruct (IH (<[value n := c]> d)) as (m & d' & Hm & ->).
      { destruct (decide (n ∈ l.*1)) as [Hin | Hnin].
        - right. exists n. split; [done |]. rewrite lookup_insert_eq. by eexists.
        - destruct H as [H | (m & Hm & Hsome)].
          + left. intros Hnd. apply H. by constructor.
          + right. apply elem_of_cons in Hm as [-> | Hm].
            * rewrite Hd in Hsome. by destruct Hsome.
            * exists m. split; [done |].
              rewrite lookup_insert_ne; [done |]. intros Heq%value_inj. by subst. }
      exists m, d'. split; [by right | done].
Qed.

(** X16: the decorators may run in any order.  A list of decorators with
    pairwise distinct names registers every class under its name; a list
    that repeats a name stops with the already-registered NameError for a
    name of the list; and the eleven decorators of the module, taken in any
    order, leave the same dictionary. *)
Theorem decorators_in_any_order (l : list (ConditioningMethodName * Class.t)) :
  (NoDup l.*1 → run_decorations l ∅ = (Ok (), list_to_map (bindings l)))
  ∧ (¬ NoDup l.*1 →
     ∃ n d, n ∈ l.*1
            ∧ run_decorations l ∅
              = (Raise (NameError ("Name " +:+ value n +:+ " is already registered!")), d))
  ∧ (l ≡ₚ decorations → run_decorations l ∅ = (Ok (), __CONDITIONING_METHOD__)).
Proof.
  assert (Hdistinct : ∀ l', NoDup l'.*1 →
            run_decorations l' ∅ = (Ok (), list_to_map (bindings l'))).
  { intros l' Hnd. rewrite run_decorations_distinct; [| done | intros; apply lookup_empty].
    by rewrite (right_id_L ∅ (∪)). }
  assert (Hnd : NoDup decorations.*1)
    by (apply (bool_decide_unpack _); vm_compute; reflexivity).
  split; [apply Hdistinct |]. split.
  - intros Hdup. apply run_decorations_clash. by left.
  - intros Hperm. rewrite Hdistinct by (by rewrite Hperm).
    f_equal. unfold __CONDITIONING_METHOD__, module_init. rewrite (Hdistinct _ Hnd).
    cbn [snd]. apply list_to_map_proper.
    + rewrite bindings_keys. apply NoDup_fmap_2; [exact value_inj | by rewrite Hperm].
    + unfold bindings. by rewrite Hperm.
Qed.

Lemma decorators_in_any_order_witness :
  run_decorations (reverse decorations) ∅ = (Ok (), __CONDITIONING_METHOD__)
  ∧ ∃ n d, n ∈ [VJP_GUIDANCE; JAC_REV_GUIDANCE; VJP_GUIDANCE]
           ∧ run_decorations [(VJP_GUIDANCE, Class.VJP); (JAC_REV_GUIDANCE, Class.JacRev);
                              (VJP_GUIDANCE, Class.VJPAlt)] ∅
             = (Raise (NameError ("Name " +:+ value n +:+ " is already registered!")), d).
Proof.
  split.
  - apply (decorators_in_any_order (reverse decorations)). apply reverse_Permutation.
  - apply (decorators_in_any_order [(VJP_GUIDANCE, Class.VJP); (JAC_REV_GUIDANCE, Class.JacRev);
                                    (VJP_GUIDANCE, Class.VJPAlt)]).
    intros Hnd. apply NoDup_cons in Hnd as [Hn _]. apply Hn. set_solver.
Defined.

(** X17: for keyword calls the eleven constructors do not take one set of
    arguments.  Every class needs [sde] and [y]; the three classes with the
    matrix [H] reject [observation_map] and the eight others reject [H], so
    keyword arguments that construct VJP, VJPAlt or VJPDiagonal raise
    TypeError for each of the other classes and the other way round. *)
Theorem keyword_arguments_by_class (cls cls' : Class.t) (kw : kwargs) :
  (kw_sde kw = None ∨ kw_y kw = None → construct cls kw = Raise TypeError)
  ∧ (is_ok (construct cls kw) → takes_matrix cls ≠ takes_matrix cls' →
     construct cls' kw = Raise TypeError).
Proof.
  split.
  - intros [H | H]; destruct kw as [sde h Hm y ns sh sc HHT]; cbn in H; subst;
      destruct cls; cbn; unfold map_init, matrix_init; cbn;
      repeat (match goal with |- context [required ?o] => destruct o end; cbn); done.
  - destruct kw as [[sde |] [h |] [Hm |] [y |] [ns |] [sh |] [sc |] [HHT |]];
      destruct cls; cbn; try done; destruct cls'; cbn; done.
Qed.

Lemma keyword_arguments_by_class_witness :
  construct Class.JacRev (scenario_kwargs (stub_sde 1 1) scenario_y Class.VJP)
  = Raise TypeError.
Proof.
  apply (keyword_arguments_by_class Class.VJP Class.JacRev
           (scenario_kwargs (stub_sde 1 1) scenario_y Class.VJP)).
  - exact I.
  - discriminate.
Defined.

(** X18: building the closure.  [get_guidance_score_func] of VJP and of
    VJPDiagonal reads [self.shape[0]] and raises IndexError for the empty
    shape tuple, and VJPAlt fails for it as well; with a matrix [H] and a
    shape [(B, d)] that fits it the three return a closure.  The eight
    other classes return their closure whatever the attributes are. *)
Theorem closure_construction (sqrt : Qc → Qc) (m : method) :
  (takes_matrix (class_of m) = false → is_ok (get_guidance_score_func sqrt m))
  ∧ (∀ sde H y noise_std,
       get_guidance_score_func sqrt (VJP_instance (VJP.Build sde H y noise_std []))
       = Raise IndexError
       ∧ get_guidance_score_func sqrt
           (VJPDiagonal_instance (VJPDiagonal.Build sde H y noise_std []))
         = Raise IndexError
       ∧ ¬ is_ok (get_guidance_score_func sqrt
                    (VJPAlt_instance (VJPAlt.Build sde H y noise_std []))))
  ∧ (∀ sde H y noise_std B dy d, shape H = [dy; d] →
       is_ok (get_guidance_score_func sqrt (VJP_instance (VJP.Build sde H y noise_std [B; d])))
       ∧ is_ok (get_guidance_score_func sqrt
                  (VJPDiagonal_instance (VJPDiagonal.Build sde H y noise_std [B; d])))
       ∧ is_ok (get_guidance_score_func sqrt
                  (VJPAlt_instance (VJPAlt.Build sde H y noise_std [B; d])))).
Proof.
  split; [| split].
  - destruct m; cbn; done.
  - intros sde H y noise_std. split; [done |]. split; [done |].
    cbn [get_guidance_score_func]. unfold VJPAlt.get_guidance_score_func, VJPAlt.batch_H.
    cbn [VJPAlt.H VJPAlt.shape].
    destruct (shape0 (shape H)) as [h0 |]; [| cbn; tauto]. cbn [mbind res_bind].
    destruct (reshape H _); cbn; tauto.
  - intros sde H y noise_std B dy d HH. split; [| split].
    + cbn [get_guidance_score_func]. unfold VJP.get_guidance_score_func.
      cbn [VJP.shape shape0 mbind res_bind].
      destruct (VJP_batch_H_flat (VJP.Build sde H y noise_std [B; d]) B dy d [d] HH eq_refl)
        as (bH & -> & _). done.
    + cbn [get_guidance_score_func]. unfold VJPDiagonal.get_guidance_score_func.
      cbn [VJPDiagonal.shape shape0 mbind res_bind].
      destruct (VJPDiagonal_batch_H_flat (VJPDiagonal.Build sde H y noise_std [B; d])
                  B dy d [d] HH eq_refl) as (bH & -> & _). done.
    + cbn [get_guidance_score_func]. unfold VJPAlt.get_guidance_score_func, VJPAlt.batch_H.
      cbn [VJPAlt.H VJPAlt.shape]. rewrite HH. cbn [shape0 mbind res_bind tail].
      destruct (reshape_same H [dy; d] HH) as (Hr & -> & HsHr & _).
      cbn [mbind res_bind]. unfold transpose, tile, ndim. cbn [shape]. rewrite HsHr. done.
Qed.

Lemma closure_construction_witness :
  is_ok (get_guidance_score_func id
           (JacRev_instance (JacRev.Build (stub_sde 1 1) identity_map scenario_y 1 [])))
  ∧ get_guidance_score_func id (VJP_instance (VJP.Build (stub_sde 1 1) (eye 2) scenario_y 1 []))
    = Raise IndexError
  ∧ is_ok (get_guidance_score_func id
             (VJPAlt_instance (VJPAlt.Build (stub_sde 1 1) sum_of_entries scenario_sums 1
                                 [4; 2]%nat))).
Proof.
  destruct (closure_construction id
              (JacRev_instance (JacRev.Build (stub_sde 1 1) identity_map scenario_y 1 [])))
    as (Hmap & Hempty & Hfits).
  split; [exact (Hmap eq_refl) |]. split.
  - exact (proj1 (Hempty (stub_sde 1 1) (eye 2) scenario_y 1)).
  - exact (proj2 (proj2 (Hfits (stub_sde 1 1) sum_of_entries scenario_sums 1 4%nat 1%nat 2%nat
                           eq_refl))).
Defined.

(** * The full-matrix methods with any observation matrix *)

Lemma observed_forms_agree sde (A : nat → nat → Qc) (noise_std : Qc) (x y tt : ndarray)
    (B dy d : nat) (tr tr' : bool) (g g' : res ndarray) :
  B ≠ 0%nat →
  follows_observed_form sde A noise_std x y tt B dy d tr g →
  follows_observed_form sde A noise_std x y tt B dy d tr' g' →
  tr = tr' ∨ symmetric_second_moment sde A x tt B dy d →
  res_eq g g'.
Proof.
  intros HB (C & v & HsC & Hsv & HiC & Hiv & Hraise & Hok)
            (C' & v' & HsC' & Hsv' & HiC' & Hiv' & Hraise' & Hok') Hsym.
  destruct (batch_linalg_solve_agree C C' v v' B dy HsC HsC' Hsv Hsv' HB)
    as [[He He'] | (f & f' & Hf & Hf' & Hsf & Hsf' & Hff)].
  - intros b i j Hb Hi Hj. rewrite HiC, HiC' by done. f_equal. f_equal.
    destruct Hsym as [<- | Hsym]; [done |].
    destruct tr, tr'; try done; by apply Hsym.
  - intros b i Hb Hi. by rewrite Hiv, Hiv'.
  - rewrite (Hraise _ He), (Hraise' _ He'). done.
  - destruct (Hok f Hf) as (out & -> & Hso & Hio).
    destruct (Hok' f' Hf') as (out' & -> & Hso' & Hio').
    split; [by rewrite Hso, Hso' |].
    intros idx Hv. rewrite Hso in Hv.
    apply valid_index_flat in Hv as (b & j & -> & Hb & Hj).
    rewrite Hio, Hio' by done. f_equal.
    apply sum_n_ext. intros k Hk. by rewrite Hff.
Qed.

Section MatrixMethods.
Context (sqrt : Qc → Qc) (sde : SDE) (H : ndarray) (noise_std : Qc).
Context (x y tt : ndarray) (B dy d : nat).
Hypothesis HH : shape H = [dy; d].
Hypothesis Hx : shape x = [B; d].
Hypothesis Hy : shape y = [B; dy].
Hypothesis Ht : shape tt = [B; 1%nat].
Hypothesis HB : B ≠ 0%nat.

Lemma VJP_follows_observed :
  follows_observed_form sde (entries2 H) noise_std x y tt B dy d true
    (guidance_score sqrt (VJP_instance (VJP.Build sde H y noise_std [B; d])) x tt).
Proof.
  unfold guidance_score. cbn [get_guidance_score_func].
  unfold VJP.get_guidance_score_func. cbn [VJP.shape shape0 mbind res_bind].
  destruct (VJP_batch_H_flat (VJP.Build sde H y noise_std [B; d]) B dy d [d]
              HH eq_refl) as (bH & -> & HsH & HiH).
  cbn [mbind res_bind VJP.H] in *.
  unfold VJP.guidance_score, VJP.likelihood_score, VJP.system.
  cbn [VJP.sde VJP.H VJP.y VJP.noise_std VJP.shape].
  destruct (jax_vjp_flat sde (Some [Z.of_nat B; (-1)%Z]) x tt B d Hx Ht HB (or_intror eq_refl))
    as (hx & vjp_fun & s & aux & -> & Hshx & Hss & Hihx & His & Hvjp).
  cbn [mbind res_bind].
  destruct (stacked_pullback_H sde H x tt B dy d vjp_fun bH Hvjp HsH HiH)
    as (Hg & -> & HsHg & HiHg).
  cbn [mbind res_bind]. rewrite HH. cbn [shape0 mbind res_bind].
  unfold shape1. rewrite HH. cbn [mbind res_bind].
  destruct (reshape_same Hg [dy; B; d] HsHg) as (Hg' & -> & HsHg' & HiHg').
  cbn [mbind res_bind].
  assert (HiHg'' : ∀ i b j, (i < dy)%nat → (b < B)%nat → (j < d)%nat →
            item Hg' [i; b; j] = observed_jac sde (entries2 H) d x tt b i j).
  { intros i b j Hi Hb Hj. rewrite HiHg' by (repeat constructor; done). by apply HiHg. }
  destruct (transpose_120 Hg' dy B d HsHg') as (HgT & HT & HsT & HiT).
  rewrite HT.
  cbn [mbind res_bind].
  destruct (batch_matmul_A_matrices H HgT B dy d dy HH HsT) as (M & -> & HsM & HiM).
  destruct (full_covariance_flat sde noise_std y tt M B dy Hy Ht HB HsM) as (C & -> & HsC & HiC).
  cbn [mbind res_bind].
  destruct (batch_matmul_A_vectors H hx B dy d HH Hshx) as (Hx0 & -> & HsHx0 & HiHx0).
  cbn [mbind res_bind].
  destruct (map2_flat Qcminus y Hx0 B dy Hy HsHx0) as (v & Hv & Hsv & Hiv).
  unfold sub. rewrite Hv. cbn [mbind res_bind C_yy innovation back score].
  exists C, v. split; [done |]. split; [done |]. split; [| split; [| split]].
  - intros b i j Hb Hi Hj. rewrite HiC, HiM by done. f_equal. f_equal.
    unfold observed_second_moment. apply sum_n_ext. intros k Hk.
    rewrite HiT. by rewrite HiHg''.
  - intros b i Hb Hi. rewrite Hiv, HiHx0 by done.
    unfold observed_innovation, observed_mean. f_equal.
    apply sum_n_ext. intros k Hk. by rewrite Hihx.
  - intros e ->. done.
  - intros f Hf. rewrite Hf. cbn [mbind res_bind].
    pose proof (batch_linalg_solve_shape _ _ f B dy HsC Hsv Hf) as Hsf.
    rewrite HT. cbn [mbind res_bind].
    destruct (batch_matmul_vectors HgT f B d dy HsT Hsf) as (p & -> & Hsp & Hip).
    cbn [mbind res_bind]. rewrite Hss.
    destruct (reshape_same p [B; d] Hsp) as (ls & -> & Hsls & Hils).
    cbn [mbind res_bind].
    destruct (add_flat B d s ls Hss Hsls) as (out & -> & Hsout & Hiout).
    exists out. split; [done |]. split; [done |].
    intros b j Hb Hj. rewrite Hiout, His by done. f_equal.
    rewrite Hils by (repeat constructor; done). rewrite Hip by done.
    apply sum_n_ext. intros k Hk. rewrite HiT. by rewrite HiHg''.
Qed.
End MatrixMethods.

Section MatrixMethodsAlt.
Context (sqrt : Qc → Qc) (sde : SDE) (H : ndarray) (noise_std : Qc).
Context (x y tt : ndarray) (B dy d : nat).
Hypothesis HH : shape H = [dy; d].
Hypothesis Hx : shape x = [B; d].
Hypothesis Hy : shape y = [B; dy].
Hypothesis Ht : shape tt = [B; 1%nat].
Hypothesis HB : B ≠ 0%nat.

Lemma VJPAlt_batch_H_matrix :
  ∃ bH, VJPAlt.batch_H (VJPAlt.Build sde H y noise_std [B; d]) = Ok bH
        ∧ shape bH = [dy; B; d]
        ∧ ∀ i b j, (i < dy)%nat → (j < d)%nat → item bH [i; b; j] = item H [i; j].
Proof.
  unfold VJPAlt.batch_H. cbn [VJPAlt.H VJPAlt.shape]. rewrite HH.
  cbn [shape0 mbind res_bind tail length].
  destruct (reshape_same H [dy; d] HH) as (Hr & -> & HsHr & HiHr).
  cbn [mbind res_bind].
  unfold transpose, tile, ndim. cbn [shape]. rewrite HsHr. cbn.
  eexists. split; [reflexivity |]. cbn.
  split; [f_equal; [lia | f_equal; [lia | f_equal; lia]] |].
  intros i b j Hi Hj. rewrite !Nat.mod_small by done.
  by rewrite HiHr by (repeat constructor; done).
Qed.

Lemma VJPAlt_follows_observed :
  follows_observed_form sde (entries2 H) noise_std x y tt B dy d true
    (guidance_score sqrt (VJPAlt_instance (VJPAlt.Build sde H y noise_std [B; d])) x tt).
Proof.
  unfold guidance_score. cbn [get_guidance_score_func].
  unfold VJPAlt.get_guidance_score_func.
  destruct VJPAlt_batch_H_matrix as (bH & -> & HsH & HiH).
  cbn [mbind res_bind].
  unfold VJPAlt.guidance_score, VJPAlt.likelihood_score, VJPAlt.system.
  cbn [VJPAlt.sde VJPAlt.H VJPAlt.y VJPAlt.noise_std VJPAlt.shape].
  destruct (jax_vjp_flat sde None x tt B d Hx Ht HB (or_introl eq_refl))
    as (hx & vjp_fun & s & aux & -> & Hshx & Hss & Hihx & His & Hvjp).
  cbn [mbind res_bind].
  destruct (stacked_pullback_H sde H x tt B dy d vjp_fun bH Hvjp HsH HiH)
    as (Hg & -> & HsHg & HiHg).
  cbn [mbind res_bind]. rewrite HH. cbn [shape0 mbind res_bind].
  unfold shape1. rewrite HH. cbn [mbind res_bind].
  destruct (reshape_same Hg [dy; B; d] HsHg) as (Hg' & -> & HsHg' & HiHg').
  cbn [mbind res_bind].
  destruct (transpose_120 Hg' dy B d HsHg') as (HgT & -> & HsT & HiT).
  cbn [mbind res_bind].
  destruct (batch_matmul_A_matrices H HgT B dy d dy HH HsT) as (M & -> & HsM & HiM).
  destruct (full_covariance_flat sde noise_std y tt M B dy Hy Ht HB HsM) as (C & -> & HsC & HiC).
  cbn [mbind res_bind].
  destruct (reshape_batch_flatten B d HB hx Hshx) as (xf & -> & Hsxf & Hixf).
  cbn [mbind res_bind].
  destruct (batch_matmul_A_vectors H xf B dy d HH Hsxf) as (Hx0 & -> & HsHx0 & HiHx0).
  cbn [mbind res_bind].
  destruct (map2_flat Qcminus y Hx0 B dy Hy HsHx0) as (v & Hv & Hsv & Hiv).
  unfold sub. rewrite Hv. cbn [mbind res_bind C_yy innovation back score].
  exists C, v. split; [done |]. split; [done |]. split; [| split; [| split]].
  - intros b i j Hb Hi Hj. rewrite HiC, HiM by done. f_equal. f_equal.
    unfold observed_second_moment. apply sum_n_ext. intros k Hk.
    rewrite HiT. rewrite HiHg' by (repeat constructor; done). by rewrite HiHg.
  - intros b i Hb Hi. rewrite Hiv, HiHx0 by done.
    unfold observed_innovation, observed_mean. f_equal.
    apply sum_n_ext. intros k Hk. rewrite Hixf by (repeat constructor; done).
    by rewrite Hihx.
  - intros e ->. done.
  - intros f Hf. rewrite Hf. cbn [mbind res_bind].
    pose proof (batch_linalg_solve_shape _ _ f B dy HsC Hsv Hf) as Hsf.
    destruct (T_matrix H dy d HH) as (HT & -> & HsHT & HiHT). cbn [mbind res_bind].
    destruct (batch_matmul_A_vectors HT f B d dy HsHT Hsf) as (w & -> & Hsw & Hiw).
    cbn [mbind res_bind].
    destruct (reshape_same w [B; d] Hsw) as (ct & -> & Hsct & Hict).
    cbn [mbind res_bind].
    destruct (Hvjp ct Hsct) as (ls & -> & Hsls & Hils). cbn [mbind res_bind].
    destruct (add_flat B d s ls Hss Hsls) as (out & -> & Hsout & Hiout).
    exists out. split; [done |]. split; [done |].
    intros b j Hb Hj. rewrite Hiout, His, Hils by done. f_equal.
    transitivity (sum_n d (λ k, sum_n dy (λ o,
                    item H [o; k] * item f [b; o] * jac_at sde x tt b k j))).
    { apply sum_n_ext. intros k Hk. rewrite Hict by (repeat constructor; done).
      rewrite Hiw by done.
      change (sde_mean_jac sde (slice0 x b) (item tt [b; 0%nat]) [k; j])
        with (jac_at sde x tt b k j).
      rewrite Qcmult_comm, <- sum_n_scale. apply sum_n_ext. intros o Ho.
      rewrite HiHT. ring. }
    rewrite sum_n_swap. apply sum_n_ext. intros o Ho.
    unfold observed_jac. rewrite Qcmult_comm, <- sum_n_scale.
    apply sum_n_ext. intros k Hk. unfold entries2. ring.
Qed.
End MatrixMethodsAlt.

Section JacobianMethods.
Context (sqrt : Qc → Qc) (sde : SDE) (h : dfun) (A : nat → nat → Qc) (noise_std : Qc).
Context (x y tt : ndarray) (B dy d : nat) (sh : list nat).
Hypothesis Hh : linear_observation h A dy d.
Hypothesis Hx : shape x = [B; d].
Hypothesis Hy : shape y = [B; dy].
Hypothesis Ht : shape tt = [B; 1%nat].
Hypothesis HB : B ≠ 0%nat.
Hypothesis Hsh : length sh = 2%nat.

Lemma jacobian_vmap_obs :
  ∃ grad, vmap2 (λ xb tb, tr_jac (estimate_vmap_fst sde h tb) xb) x tt = Ok grad
          ∧ shape grad = [B; dy; d]
          ∧ ∀ b o i, (b < B)%nat → (o < dy)%nat →
              item grad [b; o; i] = observed_jac sde A d x tt b o i.
Proof.
  unfold vmap2. rewrite Ht, Hx. cbn [hd_error]. rewrite decide_True by done.
  destruct (batch_map_exists
              (λ i xi, tr_jac (estimate_vmap_fst sde h (slice0 tt i)) xi)
              x B [d] [dy; d]
              (λ b idx v, ∀ o i, idx = [o; i] → (o < dy)%nat →
                 v = observed_jac sde A d x tt b o i) Hx)
    as (grad & -> & Hs & Hi).
  { intros b _. cbn [tr_jac estimate_vmap_fst].
    rewrite (first_item_row tt B b Ht).
    apply (sample_estimate_jac_obs sde h A dy d Hh). by cbn [shape slice0]; rewrite Hx. }
  exists grad. split; [done |]. split; [done |].
  intros b o i Hb Ho. by eapply Hi.
Qed.

(** The body JacRev and JacFwd share. *)
Lemma jacobian_body_follows :
  follows_observed_form sde A noise_std x y tt B dy d false
    ('(ls, s) ←
       (sys ← ('(h_x_0, (s, _)) ← estimate_x_0 sde h None x tt;
               grad_H_x_0 ← vmap2 (λ xb tb, tr_jac (estimate_vmap_fst sde h tb) xb) x tt;
               H_grad_H_x_0 ← vmap (vmap (df_apply h)) grad_H_x_0;
               C_yy ← full_covariance sde noise_std y tt (Ok H_grad_H_x_0);
               innovation ← sub y h_x_0;
               Ok (LinearSystem C_yy innovation grad_H_x_0 s));
        f ← batch_linalg_solve (C_yy sys) (innovation sys);
        ls ← contract_jacobian (back sys) (jacobian_axes sh) f (score sys);
        Ok (ls, score sys));
     add s ls).
Proof.
  destruct (estimate_x_0_obs sde h A x tt B dy d Hh Hx Ht HB)
    as (hx & s & aux & -> & Hshx & Hss & Hihx & His).
  cbn [mbind res_bind].
  destruct jacobian_vmap_obs as (grad & -> & Hsg & Hig).
  cbn [mbind res_bind].
  destruct (vmap_vmap_obs h A dy d Hh grad B dy Hsg) as (M & -> & HsM & HiM).
  cbn [mbind res_bind].
  destruct (full_covariance_flat sde noise_std y tt M B dy Hy Ht HB HsM) as (C & -> & HsC & HiC).
  cbn [mbind res_bind].
  destruct (map2_flat Qcminus y hx B dy Hy Hshx) as (v & Hv & Hsv & Hiv).
  unfold sub. rewrite Hv. cbn [mbind res_bind C_yy innovation back score].
  exists C, v. split; [done |]. split; [done |]. split; [| split; [| split]].
  - intros b i j Hb Hi Hj. rewrite HiC, HiM by done. f_equal. f_equal.
    unfold observed_second_moment. apply sum_n_ext. intros k Hk. by rewrite Hig.
  - intros b i Hb Hi. rewrite Hiv, Hihx by done. done.
  - intros e ->. done.
  - intros f Hf. rewrite Hf. cbn [mbind res_bind].
    pose proof (batch_linalg_solve_shape _ _ f B dy HsC Hsv Hf) as Hsf.
    unfold contract_jacobian.
    replace (jacobian_axes sh) with [0; 2; 1]%nat
      by (unfold jacobian_axes; rewrite Hsh; reflexivity).
    destruct (transpose_021 grad B dy d Hsg) as (gT & -> & HsT & HiT).
    cbn [mbind res_bind].
    destruct (batch_matmul_vectors gT f B d dy HsT Hsf) as (p & -> & Hsp & Hip).
    cbn [mbind res_bind]. rewrite Hss.
    destruct (reshape_same p [B; d] Hsp) as (ls & -> & Hsls & Hils).
    cbn [mbind res_bind].
    destruct (add_flat B d s ls Hss Hsls) as (out & -> & Hsout & Hiout).
    exists out. split; [done |]. split; [done |].
    intros b j Hb Hj. rewrite Hiout, His by done. f_equal.
    rewrite Hils by (repeat constructor; done). rewrite Hip by done.
    apply sum_n_ext. intros k Hk. rewrite HiT. by rewrite Hig.
Qed.

Lemma JacRev_follows_observed :
  follows_observed_form sde A noise_std x y tt B dy d false
    (guidance_score sqrt (JacRev_instance (JacRev.Build sde h y noise_std sh)) x tt).
Proof. exact jacobian_body_follows. Qed.

Lemma JacFwd_follows_observed :
  follows_observed_form sde A noise_std x y tt B dy d false
    (guidance_score sqrt (JacFwd_instance (JacFwd.Build sde h y noise_std sh)) x tt).
Proof. exact jacobian_body_follows. Qed.
End JacobianMethods.

(** X19: the four full-matrix methods for any observation matrix.  With a
    matrix [H] of shape [(d_y, d)] on flat samples, VJP and VJPAlt built
    with [H] return the same array or raise the same error, and so do
    JacRev and JacFwd built with [lambda x: H @ x]; the covariance of the
    first two holds [H·Jᵗ·Hᵗ] where that of the last two holds [H·J·Hᵗ], so
    all four agree when [H·J·Hᵗ] is symmetric for every sample. *)
Theorem full_covariance_methods_any_H (sqrt : Qc → Qc) (sde : SDE) (H : ndarray)
    (noise_std : Qc) (x y tt : ndarray) (B dy d : nat) :
  shape H = [dy; d] →
  shape x = [B; d] → shape y = [B; dy] → shape tt = [B; 1%nat] → B ≠ 0%nat →
  let vjp := guidance_score sqrt (VJP_instance (VJP.Build sde H y noise_std [B; d])) x tt in
  let alt := guidance_score sqrt (VJPAlt_instance (VJPAlt.Build sde H y noise_std [B; d])) x tt in
  let rev := guidance_score sqrt
               (JacRev_instance (JacRev.Build sde (linear_map H) y noise_std [B; d])) x tt in
  let fwd := guidance_score sqrt
               (JacFwd_instance (JacFwd.Build sde (linear_map H) y noise_std [B; d])) x tt in
  res_eq vjp alt ∧ res_eq rev fwd
  ∧ (symmetric_second_moment sde (entries2 H) x tt B dy d →
     res_eq vjp rev ∧ res_eq vjp fwd).
Proof.
  intros HH Hx Hy Ht HB vjp alt rev fwd.
  pose proof (VJP_follows_observed sqrt sde H noise_std x y tt B dy d HH Hx Hy Ht HB) as Hvjp.
  pose proof (VJPAlt_follows_observed sqrt sde H noise_std x y tt B dy d HH Hx Hy Ht HB)
    as Halt.
  pose proof (JacRev_follows_observed sqrt sde (linear_map H) (entries2 H) noise_std x y tt
                B dy d [B; d] (linear_map_linear H dy d HH) Hx Hy Ht HB eq_refl) as Hrev.
  pose proof (JacFwd_follows_observed sqrt sde (linear_map H) (entries2 H) noise_std x y tt
                B dy d [B; d] (linear_map_linear H dy d HH) Hx Hy Ht HB eq_refl) as Hfwd.
  split; [| split].
  - eapply observed_forms_agree; [done | exact Hvjp | exact Halt | by left].
  - eapply observed_forms_agree; [done | exact Hrev | exact Hfwd | by left].
  - intros Hsym. split.
    + eapply observed_forms_agree; [done | exact Hvjp | exact Hrev | by right].
    + eapply observed_forms_agree; [done | exact Hvjp | exact Hfwd | by right].
Qed.

Lemma full_covariance_methods_any_H_witness :
  res_eq (guidance_score id
            (VJP_instance (VJP.Build shear_sde sum_of_entries scenario_sums (Q2Qc 0.1)
                             [4; 2]%nat)) scenario_x scenario_t)
         (guidance_score id
            (JacRev_instance (JacRev.Build shear_sde (linear_map sum_of_entries) scenario_sums
                                (Q2Qc 0.1) [4; 2]%nat)) scenario_x scenario_t).
Proof.
  assert (HB : 4%nat ≠ 0%nat) by discriminate.
  destruct (full_covariance_methods_any_H id shear_sde sum_of_entries (Q2Qc 0.1)
              scenario_x scenario_sums scenario_t 4 1 2 eq_refl eq_refl eq_refl eq_refl HB)
    as (_ & _ & Hsym).
  apply Hsym. intros b i j Hb Hi Hj.
  replace i with 0%nat by lia. by replace j with 0%nat by lia.
Defined.

(** ** Inequalities on rationals *)



(** ** Sums over two axes and bounds of sums *)










Lemma abs_bound_nonneg (a a' : Qc) : Qcabs.Qcabs a ≤ a' → 0 ≤ a'.
Proof. intros H. eapply Qcle_trans; [apply Qcabs.Qcabs_nonneg | exact H]. Qed.


(** ** The increment of a sum of squares *)

Section SquareIncrementFacts.
Context (B dy d : nat) (i D : nat → nat → Qc) (OJ : nat → nat → nat → Qc).
Context (e : nat → nat → Qc) (n : Qc).



Section Bounds.
Context (delta eta K : Qc).
Hypothesis Hdelta : 0 ≤ delta.
Hypothesis Heta : delta ≤ eta.
Hypothesis HK : 0 ≤ K.
Hypothesis He : ∀ b j, (b < B)%nat → (j < d)%nat → Qcabs.Qcabs (e b j) ≤ delta.
Hypothesis Hrest : ∀ b o, (b < B)%nat → (o < dy)%nat →
  Qcabs.Qcabs (rest d D OJ e b o) ≤ K * (delta * delta).







End Bounds.
End SquareIncrementFacts.

(** ** The increment of a root *)


(** ** DPS on flat samples *)


Section DPSFlat.
Context (sde : SDE) (h : dfun) (A : nat → nat → Qc) (y tt : ndarray) (scale : Qc).
Context (B dy d : nat).
Hypothesis Hh : linear_observation h A dy d.
Hypothesis Hy : shape y = [B; dy].
Hypothesis Ht : shape tt = [B; 1%nat].
Hypothesis HB : B ≠ 0%nat.



End DPSFlat.

(** ** The likelihood term of DPS is the gradient of the norm *)




Section DPSGradient.
Context (sde : SDE) (h : dfun) (A : nat → nat → Qc) (x y tt : ndarray) (scale : Qc).
Context (B dy d : nat) (sqrt : Qc → Qc).
Hypothesis Hh : linear_observation h A dy d.
Hypothesis Hx : shape x = [B; d].
Hypothesis Hy : shape y = [B; dy].
Hypothesis Ht : shape tt = [B; 1%nat].
Hypothesis HB : B ≠ 0%nat.

End DPSGradient.

(** ** The exact root *)






(** ** The last line of a closure *)



(** ** The stub: the estimate is the sample *)




(** ** The guidance score of DPS *)





(** The hand-computed case of the spec: one sample at the origin, measurement
    [(3, 4)], posterior mean the sample itself and score zero.  The norm of
    the innovation is 5, its gradient in [x] is [(-3/5, -4/5)], and the
    guidance score is [0.4 * (3/5, 4/5)]. *)
Example DPS_hand_computed :
  this <$> to_list (unwrap (guidance_score exact_sqrt (DPS_instance scenario_DPS)
                              (matrix [[0; 0]]) (times [Q2Qc 0.5])))
  = [(6 # 25)%Q; (8 # 25)%Q].
Proof. vm_compute. reflexivity. Qed.



(** ** A sample with no innovation *)








(** ** The two branches of PIG *)

Lemma batch_linalg_solve_A_regular (C v : ndarray) (B d : nat) :
  shape C = [d; d] → shape v = [B; d] → det d (entries2 C) ≠ 0 →
  ∃ f, batch_linalg_solve_A C v = Ok f
       ∧ shape f = [B; d]
       ∧ ∀ b i, (b < B)%nat →
           item f [b; i] = solution d (entries2 C) (λ k, item v [b; k]) i.
Proof.
  intros HC Hv Hdet. unfold batch_linalg_solve_A, vmap.
  destruct (batch_map_exists (λ _, linalg_solve C) v B [d] [d]
              (λ b idx w, ∀ i, idx = [i] →
                 w = solution d (entries2 C) (λ k, item v [b; k]) i) Hv)
    as (f & -> & Hs & Hi).
  { intros b _.
    destruct (linalg_solve_regular C (slice0 v b) d HC) as (r & -> & Hsr & Hir);
      [by cbn [shape slice0]; rewrite Hv | done |].
    exists r. split; [done |]. split; [done |]. intros idx i ->. apply Hir. }
  exists f. split; [done |]. split; [done |]. intros b i Hb. by apply Hi.
Qed.

Section PIGForm.
Context (sqrt : Qc → Qc) (sde : SDE) (h : dfun) (A : nat → nat → Qc) (noise_std : Qc).
Context (x y tt : ndarray) (B dy d : nat).
Hypothesis Hh : linear_observation h A dy d.
Hypothesis Hx : shape x = [B; d].
Hypothesis Hy : shape y = [B; dy].
Hypothesis Ht : shape tt = [B; 1%nat].
Hypothesis HB : B ≠ 0%nat.

Lemma PIG_full_entries (HHT : ndarray) :
  shape HHT = [dy; dy] →
  let C := regularised (sde_r2 sde (item tt [0; 0]%nat) 1) (noise_std ^ 2) (entries2 HHT) in
  det dy C ≠ 0 →
  ∃ out, guidance_score sqrt (PIG_instance (PIG.Build sde h y noise_std HHT)) x tt = Ok out
    ∧ shape out = [B; d]
    ∧ ∀ b j, (b < B)%nat → (j < d)%nat →
        item out [b; j]
        = score_at sde x tt b j
          + sum_n dy (λ o, solution dy C (observed_innovation sde A d x y tt b) o
                           * observed_jac sde A d x tt b o j).
Proof.
  intros HH C Hreg. unfold guidance_score. cbn [get_guidance_score_func].
  unfold PIG.get_guidance_score_func. cbn [mbind res_bind].
  unfold PIG.guidance_score, PIG.likelihood_score, PIG.solve_innovation.
  cbn [PIG.sde PIG.observation_map PIG.y PIG.noise_std PIG.HHT].
  destruct (jax_vjp_obs sde h A x tt B dy d Hh Hx Ht HB)
    as (hx & vjp_fun & s & aux & -> & Hshx & Hss & Hihx & His & Hvjp).
  cbn [mbind res_bind].
  destruct (map2_flat Qcminus y hx B dy Hy Hshx) as (v & Hv & Hsv & Hiv).
  unfold sub. rewrite Hv. cbn [mbind res_bind].
  unfold shape1. rewrite Hy. cbn [mbind res_bind].
  rewrite decide_True by done.
  destruct (PIG_full_C_yy_entries (PIG.Build sde h y noise_std HHT) tt B dy Ht HB HH)
    as (Cy & -> & HsC & HiC).
  cbn [mbind res_bind PIG.sde PIG.HHT PIG.noise_std] in *.
  assert (Hdet : det dy (entries2 Cy) = det dy C).
  { apply det_ext. intros i k Hi Hk. unfold entries2, C, regularised. by rewrite HiC. }
  destruct (batch_linalg_solve_A_regular Cy v B dy HsC Hsv) as (f & -> & Hsf & Hif);
    [by rewrite Hdet |].
  cbn [mbind res_bind].
  destruct (Hvjp f Hsf) as (ls & -> & Hsls & Hils). cbn [mbind res_bind].
  destruct (add_flat B d s ls Hss Hsls) as (out & -> & Hso & Hio).
  exists out. split; [done |]. split; [done |].
  intros b j Hb Hj. rewrite Hio, His, Hils by done. f_equal.
  apply sum_n_ext. intros o Ho. rewrite Hif by done. f_equal.
  unfold solution. rewrite Hdet. f_equal. apply det_ext. intros i k Hi Hk.
  unfold replace_col, entries2. case_decide.
  - rewrite Hiv, Hihx by done. done.
  - unfold C, regularised. by rewrite HiC.
Qed.
End PIGForm.

(** C6: PIG takes its covariance from [r2(t[0], data_variance=1.0)] and never
    from [ratio].  On flat samples, with an observation map that acts as a
    matrix: for [HHT] of shape [(d_y, d_y)] it forms the one matrix
    [C_yy = r2 * HHT + noise_std**2 * I], regular here, and returns the score
    plus the pullback of the solution of [C_yy f = innovation] of every
    sample; for [HHT] of shape [(1,)] it forms the scalar
    [C_yy = r2 * HHT[0] + noise_std**2], not zero here, and returns the score
    plus the pullback of the innovation divided by it.  The result is the
    same whatever [ratio] of the handle is. *)
Theorem PIG_covariance (sqrt : Qc → Qc) (sde : SDE) (h : dfun) (A : nat → nat → Qc)
    (noise_std : Qc) (x y tt HHT : ndarray) (B dy d : nat) :
  linear_observation h A dy d →
  shape x = [B; d] → shape y = [B; dy] → shape tt = [B; 1%nat] → B ≠ 0%nat →
  let self := PIG.Build sde h y noise_std HHT in
  let r2_t0 := sde_r2 sde (item tt [0; 0]%nat) 1 in
  (shape HHT = [dy; dy] →
     let C := regularised r2_t0 (noise_std ^ 2) (entries2 HHT) in
     det dy C ≠ 0 →
     (∃ C_yy, PIG.full_C_yy self dy tt = Ok C_yy
              ∧ shape C_yy = [dy; dy]
              ∧ ∀ i k, (i < dy)%nat → (k < dy)%nat → item C_yy [i; k] = C i k)
     ∧ ∃ out, guidance_score sqrt (PIG_instance self) x tt = Ok out
         ∧ shape out = [B; d]
         ∧ ∀ b j, (b < B)%nat → (j < d)%nat →
             item out [b; j]
             = score_at sde x tt b j
               + sum_n dy (λ o, solution dy C (observed_innovation sde A d x y tt b) o
                                * observed_jac sde A d x tt b o j))
  ∧ (shape HHT = [1%nat] →
     let c := r2_t0 * item HHT [0%nat] + noise_std ^ 2 in
     c ≠ 0 →
     (∃ C_yy, PIG.scalar_C_yy self tt = Ok C_yy
              ∧ shape C_yy = [1%nat] ∧ item C_yy [0%nat] = c)
     ∧ ∃ out, guidance_score sqrt (PIG_instance self) x tt = Ok out
         ∧ shape out = [B; d]
         ∧ ∀ b j, (b < B)%nat → (j < d)%nat →
             item out [b; j]
             = score_at sde x tt b j
               + sum_n dy (λ o, observed_innovation sde A d x y tt b o / c
                                * observed_jac sde A d x tt b o j))
  ∧ (∀ ratio' : Qc → Qc,
       guidance_score sqrt (PIG_instance (PIG_with_ratio ratio' self)) x tt
       = guidance_score sqrt (PIG_instance self) x tt).
Proof.
  intros Hh Hx Hy Ht HB self r2_t0. split; [| split].
  - intros HH C Hreg. split.
    + exact (PIG_full_C_yy_entries self tt B dy Ht HB HH).
    + exact (PIG_full_entries sqrt sde h A noise_std x y tt B dy d Hh Hx Hy Ht HB HHT HH Hreg).
  - intros HH c _. split.
    + exact (PIG_scalar_C_yy_entries self tt B Ht HB HH).
    + exact (PIG_scalar_entries sqrt sde h A noise_std x y tt B dy d Hh Hx Hy Ht HB HHT HH).
  - intros ratio'. reflexivity.
Qed.

Lemma PIG_covariance_witness :
  (∃ out, guidance_score id (PIG_instance (scenario_PIG (eye 2))) scenario_x scenario_t
          = Ok out ∧ shape out = [4; 2]%nat)
  ∧ (∃ out, guidance_score id (PIG_instance (scenario_PIG (vector [1]))) scenario_x scenario_t
            = Ok out ∧ shape out = [4; 2]%nat).
Proof.
  assert (HB : 4%nat ≠ 0%nat) by discriminate.
  destruct (PIG_covariance id (stub_sde 1 1) identity_map _ (Q2Qc 0.1)
              scenario_x scenario_y scenario_t (eye 2) 4 2 2
              (identity_map_linear 2) eq_refl eq_refl eq_refl HB) as (Hfull & _ & _).
  destruct (PIG_covariance id (stub_sde 1 1) identity_map _ (Q2Qc 0.1)
              scenario_x scenario_y scenario_t (vector [1]) 4 2 2
              (identity_map_linear 2) eq_refl eq_refl eq_refl HB) as (_ & Hscalar & _).
  destruct (Hfull eq_refl ltac:(qc_neq)) as (_ & out & Hout & Hs & _).
  destruct (Hscalar eq_refl ltac:(qc_neq)) as (_ & out' & Hout' & Hs' & _).
  split; [exists out | exists out']; split; assumption.
Defined.

(** The scenario with twice the identity for [HHT]: the matrix is
    [(2 + 0.01) * I] and the first sample moves by [(3 - 0) / 2.01 = 100/67] in its
    first entry. *)
Example PIG_full_scenario :
  this (item (unwrap (guidance_score id
                        (PIG_instance (scenario_PIG (matrix [[Qc_of_Z 2; 0]; [0; Qc_of_Z 2]])))
                        scenario_x scenario_t)) [0; 0]%nat)
  = (100 # 67)%Q.
Proof. vm_compute. reflexivity. Qed.

(** ** A scalar time *)





(** ** What a method does on a valid input *)




Section ValidFlat.
Context (sqrt : Qc → Qc) (sde : SDE) (h : dfun) (A : nat → nat → Qc).
Context (x y tt : ndarray) (B dy d : nat).
Hypothesis Hh : linear_observation h A dy d.
Hypothesis Hx : shape x = [B; d].
Hypothesis Hy : shape y = [B; dy].
Hypothesis Ht : shape tt = [B; 1%nat].
Hypothesis HB : B ≠ 0%nat.



End ValidFlat.


(** ** The shape of the result *)



